(** * Gaussian process regression models of [mogptk.gpr.model]

    A shallow embedding of the inference-model layer of the toolbox
    (file [mogptk/gpr/model.py]) and the properties its specification
    states about it.

    Numbers are the real numbers of the Standard Library, so that the
    models are read in exact arithmetic; tensors of rank two are MathComp
    matrices, which gives determinants, inverses and traces.  Python
    exceptions are the [Raise] results of a small monad of computations, and
    the [Parameter] objects the models share by reference live in a store. *)

From HB Require Import structures.
From Stdlib Require Import Reals Epsilon Lra String DecimalString.
From mathcomp Require Import boot order algebra.

Set Implicit Arguments.
Unset Strict Implicit.
Unset Printing Implicit Defensive.

Import Order.Theory GRing.Theory Num.Theory.

(** ** The reals as a MathComp real field *)

Section RealField.
Local Open Scope R_scope.

Definition Reqb (x y : R) : bool :=
  if Req_dec_T x y is left _ then true else false.

Lemma ReqbP : Equality.axiom Reqb.
Proof. by move=> x y; rewrite /Reqb; case: Req_dec_T => h; constructor. Qed.

HB.instance Definition _ := hasDecEq.Build R ReqbP.

Definition Rfind (P : pred R) (_ : nat) : option R :=
  let x := epsilon (inhabits 0) (fun x => P x = true) in
  if P x then Some x else None.

Lemma Rfind_some P n x : Rfind P n = Some x -> P x.
Proof. by rewrite /Rfind; case: ifP => // h [<-]. Qed.

Lemma Rfind_ex (P : pred R) : (exists x, P x) -> exists n, Rfind P n.
Proof.
move=> ex; exists 0%N; rewrite /Rfind.
have -> // : P (epsilon (inhabits 0) (fun x => P x = true)) = true.
apply: (epsilon_spec (inhabits 0) (fun x => P x = true)).
by case: ex => x px; exists x.
Qed.

Lemma Rfind_ext (P Q : pred R) : P =1 Q -> Rfind P =1 Rfind Q.
Proof.
move=> pq n; rewrite /Rfind.
have -> : (fun x => P x = true) = (fun x => Q x = true).
  by apply: FunctionalExtensionality.functional_extensionality => x; rewrite pq.
by rewrite pq.
Qed.

HB.instance Definition _ := hasChoice.Build R Rfind_some Rfind_ex Rfind_ext.

Lemma Radd_assoc : associative Rplus.
Proof. by move=> x y z; rewrite Rplus_assoc. Qed.

HB.instance Definition _ :=
  GRing.isZmodule.Build R Radd_assoc Rplus_comm Rplus_0_l Rplus_opp_l.

Lemma Rmul_assoc : associative Rmult.
Proof. by move=> x y z; rewrite Rmult_assoc. Qed.

Lemma R1_nonzero : (1 : R) != 0.
Proof. by apply/eqP; exact: R1_neq_R0. Qed.

HB.instance Definition _ :=
  GRing.Zmodule_isComNzRing.Build R
    Rmul_assoc Rmult_comm Rmult_1_l Rmult_plus_distr_r R1_nonzero.

Definition Runit : pred R := fun x => x != 0.

Lemma RmulVx : {in Runit, left_inverse 1 Rinv Rmult}.
Proof. by move=> x /eqP x0; rewrite Rinv_l. Qed.

Lemma RunitPl (x y : R) : y * x = 1 -> Runit x.
Proof.
move=> yx; apply/eqP => x0; move: yx; rewrite x0 Rmult_0_r => /esym.
exact: R1_neq_R0.
Qed.

Lemma Rinv_out : {in [predC Runit], Rinv =1 id}.
Proof. by move=> x; rewrite inE /Runit negbK => /eqP ->; rewrite Rinv_0. Qed.

HB.instance Definition _ :=
  GRing.ComNzRing_hasMulInverse.Build R RmulVx RunitPl Rinv_out.

Lemma R_fieldP : GRing.field_axiom R.
Proof. by []. Qed.

HB.instance Definition _ := GRing.ComUnitRing_isField.Build R R_fieldP.

Definition Rleb (x y : R) : bool := if Rle_dec x y is left _ then true else false.
Definition Rltb (x y : R) : bool := if Rlt_dec x y is left _ then true else false.

Lemma RlebP x y : reflect (x <= y) (Rleb x y).
Proof. by rewrite /Rleb; case: Rle_dec => h; constructor. Qed.

Lemma RltbP x y : reflect (x < y) (Rltb x y).
Proof. by rewrite /Rltb; case: Rlt_dec => h; constructor. Qed.

Lemma Rleb0_add x y : Rleb 0 x -> Rleb 0 y -> Rleb 0 (x + y).
Proof. by move=> /RlebP hx /RlebP hy; apply/RlebP; Lra.lra. Qed.

Lemma Rleb0_mul x y : Rleb 0 x -> Rleb 0 y -> Rleb 0 (x * y).
Proof. by move=> /RlebP hx /RlebP hy; apply/RlebP; exact: Rmult_le_pos. Qed.

Lemma Rleb0_anti x : Rleb 0 x -> Rleb x 0 -> x = 0.
Proof. by move=> /RlebP hx /RlebP hy; Lra.lra. Qed.

Lemma Rleb_sub x y : Rleb 0 (y - x) = Rleb x y.
Proof. by apply/RlebP/RlebP; rewrite /Rminus; Lra.lra. Qed.

Lemma Rleb0_total x : Rleb 0 x || Rleb x 0.
Proof.
case: (Rle_dec 0 x) => [/RlebP -> //|nx].
by apply/orP; right; apply/RlebP; Lra.lra.
Qed.

Lemma Rabs_neg x : Rabs (- x) = Rabs x.
Proof. exact: Rabs_Ropp. Qed.

Lemma Rabs_ge0 x : Rleb 0 x -> Rabs x = x.
Proof. by move=> /RlebP hx; rewrite Rabs_pos_eq. Qed.

Lemma Rltb_def x y : Rltb x y = (y != x) && Rleb x y.
Proof.
apply/RltbP/andP => [xy|[/eqP yx /RlebP xy]]; last by Lra.lra.
by split; [apply/eqP; Lra.lra | apply/RlebP; Lra.lra].
Qed.

HB.instance Definition _ :=
  Num.IntegralDomain_isLeReal.Build R
    Rleb0_add Rleb0_mul Rleb0_anti Rleb_sub Rleb0_total
    Rabs_neg Rabs_ge0 Rltb_def.

End RealField.

Local Open Scope ring_scope.

(** ** Linear algebra of [torch], in exact arithmetic *)

(** [torch.linalg.cholesky(A)]: the lower-triangular factor with a positive
    diagonal, computed column by column from the lower triangle of [A];
    [None] stands for the [RuntimeError] torch raises when a pivot is not
    positive, that is when [A] is not positive definite. *)
Fixpoint cholesky (n : nat) : 'M[R]_n -> option 'M[R]_n :=
  if n is n'.+1 then
    fun A : 'M[R]_(1 + n') =>
      let a := A 0 0 in
      if 0 < a then
        let l := sqrt a in
        let c := l^-1 *: dlsubmx A in
        if cholesky (drsubmx A - c *m c^T) is Some L'
        then Some (block_mx l%:M 0 c L') else None
      else None
  else fun A => Some A.

(** [torch.linalg.solve_triangular(L, B, upper=False)]: the solution [V] of
    [L V = B]. *)
Definition solve_triangular m n (L : 'M[R]_m) (B : 'M[R]_(m, n)) : 'M[R]_(m, n) :=
  invmx L *m B.

(** [torch.cholesky_solve(B, L)]: the solution [V] of [(L L^T) V = B]. *)
Definition cholesky_solve m n (B : 'M[R]_(m, n)) (L : 'M[R]_m) : 'M[R]_(m, n) :=
  invmx (L *m L^T) *m B.

(** ** Tensors, as the models receive them *)

HB.instance Definition _ := hasDecEq.Build string String.eqb_spec.

(** A [torch.Tensor]: its shape and its entries in row-major order. *)
Record tensor := Tensor { shape : seq nat; data : seq R }.

Definition ndim (t : tensor) : nat := size (shape t).
Definition numel (t : tensor) : nat := (\prod_(k <- shape t) k)%N.

(** [t.shape[k]] *)
Definition dim (t : tensor) (k : nat) : nat := nth 0%N (shape t) k.

(** [t.reshape(...)] keeps the entries and replaces the shape;
    [t.reshape(-1,1)] infers the number of rows from the entries. *)
Definition reshape (t : tensor) (s : seq nat) : tensor := Tensor s (data t).
Definition reshape_col (t : tensor) : tensor := reshape t [:: numel t; 1%N].

(** Entry [(i, j)] of a rank-2 tensor and the views of validated tensors as
    matrices. *)
Definition entry (t : tensor) (i j : nat) : R := nth 0 (data t) (i * dim t 1 + j).

Definition mx_of_tensor (m n : nat) (t : tensor) : 'M[R]_(m, n) :=
  \matrix_(i < m, j < n) nth 0 (data t) (i * n + j).

Definition tensor_of_mx (m n : nat) (A : 'M[R]_(m, n)) : tensor :=
  Tensor [:: m; n] [seq A ij.1 ij.2 | ij <- allpairs pair (enum 'I_m) (enum 'I_n)].

(** A scalar (rank 0) tensor and the item of a one-element tensor. *)
Definition scalar_tensor (x : R) : tensor := Tensor [::] [:: x].
Definition item (t : tensor) : R := nth 0 (data t) 0.

(** ** Exceptions and computations *)

(** The exceptions the models raise.  [CholeskyException] carries its
    message, the matrix whose factorization failed and the model. *)
Inductive exn (model : Type) : Type :=
| ValueError (msg : string)
| AttributeError (msg : string)
| NameError (name : string)
| IndexError (msg : string)
| RuntimeError (msg : string)
| NotImplementedError
| CholeskyException (msg : string) (n : nat) (K : 'M[R]_n) (self : model).

Arguments ValueError {model}.
Arguments AttributeError {model}.
Arguments NameError {model}.
Arguments IndexError {model}.
Arguments RuntimeError {model}.
Arguments NotImplementedError {model}.

Inductive result (model A : Type) : Type :=
| Ok (a : A)
| Raise (e : exn model).

Arguments Ok {model A}.
Arguments Raise {model A}.

(** What a call leaves on the outside: the factorizations it asked torch for
    and the diagnostics [_cholesky] prints when one fails. *)
Inductive event : Type :=
| TorchCholesky (n : nat) (K : 'M[R]_n)
| PrintError (msg : string)
| PrintParameters
| PlotGram (n : nat) (K : 'M[R]_n).

(** A computation: the events in the order they happened, and the value
    returned or the exception raised. *)
Definition comp (model A : Type) : Type := (seq event * result model A)%type.

Definition ret {model A} (a : A) : comp model A := ([::], Ok a).
Definition raise {model A} (e : exn model) : comp model A := ([::], Raise e).
Definition emit {model} (ev : event) : comp model unit := ([:: ev], Ok tt).

Definition bind {model A B} (c : comp model A) (f : A -> comp model B) :
  comp model B :=
  match c.2 with
  | Ok a => (c.1 ++ (f a).1, (f a).2)
  | Raise e => (c.1, Raise e)
  end.

Definition events {model A} (c : comp model A) : seq event := c.1.
Definition outcome {model A} (c : comp model A) : result model A := c.2.

Declare Scope comp_scope.
Delimit Scope comp_scope with comp.
Notation "'let!' x ':=' c 'in' k" := (bind c (fun x => k))
  (at level 200, x name, right associativity) : comp_scope.
Local Open Scope comp_scope.

Definition lift {model A} (r : result model A) : comp model A := ([::], r).

Definition str (n : nat) : string := NilZero.string_of_uint (Nat.to_uint n).

(** ** Parameters and the objects that hold them *)

(** Modelled from the spec: [Parameter] (class [mogptk.gpr.Parameter], whose
    source is not part of the model file).  A named, bounded value with a
    trainability flag and an optional prior over the constrained value;
    calling the Parameter returns [p_value], and [p_prior] is the log-density
    of the prior.  The unconstrained representation the optimizer sees is
    determined by the value and the bounds and is left out. *)
Record Param := mkParam {
  p_name : option string;
  p_value : tensor;
  p_lower : option tensor;
  p_upper : option tensor;
  p_trainable : bool;
  p_pegged : bool;
  p_prior : option (tensor -> R);
  p_num_parameters : nat
}.

(** Modelled from the spec: [Parameter(value, name, lower, trainable)]; the
    reported count is the number of entries. *)
Definition new_Param (value : tensor) (name : option string)
    (lower : option tensor) (trainable : bool) : Param :=
  mkParam name value lower None trainable false None (numel value).

(** Modelled from the spec: the log-prior density of a Parameter, the
    log-density of its prior at its value, zero if it has no prior. *)
Definition log_prior_density (p : Param) : R :=
  if p_prior p is Some logp then logp (p_value p) else 0.

(** Modelled from the spec: [Parameter.log_prior()], whose source is not part
    of the model file.  The spec has the prior accumulated in [log_prior()]
    be the sum of each trainable Parameter's log-prior density, zero if no
    prior, and [Model.log_prior] adds up [p.log_prior()] over the whole
    registry with no test of its own: what a Parameter contributes is its
    log-prior density if it is trainable, and zero if it is not. *)
Definition Param_log_prior (p : Param) : R :=
  if p_trainable p then log_prior_density p else 0.

(** Parameters are Python objects, shared by reference between the kernel,
    likelihood or mean that owns them and the registry of the model: they
    live in a store and are named by their address. *)
Definition ref := nat.
Definition store := seq Param.

Definition null_Param : Param :=
  mkParam None (Tensor [::] [::]) None None false false None 0.

Definition deref (h : store) (r : ref) : Param := nth null_Param h r.

Definition alloc (h : store) (p : Param) : store * ref := (rcons h p, size h).

Definition update (h : store) (r : ref) (f : Param -> Param) : store :=
  if (r < size h)%N then set_nth null_Param h r (f (deref h r)) else h.

Definition set_name (name : string) (p : Param) : Param :=
  mkParam (Some name) (p_value p) (p_lower p) (p_upper p)
    (p_trainable p) (p_pegged p) (p_prior p) (p_num_parameters p).

Definition set_trainable (b : bool) (p : Param) : Param :=
  mkParam (p_name p) (p_value p) (p_lower p) (p_upper p)
    b (p_pegged p) (p_prior p) (p_num_parameters p).

Definition set_num_parameters (k : nat) (p : Param) : Param :=
  mkParam (p_name p) (p_value p) (p_lower p) (p_upper p)
    (p_trainable p) (p_pegged p) (p_prior p) k.

(** Plain data held in attributes. *)
Inductive pydata : Type :=
| DNone
| DBool (b : bool)
| DInt (n : nat)
| DFloat (x : R)
| DStr (s : string)
| DTensor (t : tensor).

(** The objects [_register_parameters] walks and attributes hold: a
    Parameter, a list, an instance of [Kernel], [Mean] or [Likelihood] with
    its name and its [__dict__], or plain data. *)
Inductive pyobj : Type :=
| PParameter (r : ref)
| PList (items : seq pyobj)
| PModule (name : string) (dict : seq (string * pyobj))
| PData (v : pydata).

Definition isinstance_Parameter (o : pyobj) : bool :=
  if o is PParameter _ then true else false.

(** ** The parameter registry: [Model._register_parameters] *)

(** The state the walk changes: the Parameters (their names are assigned)
    and the list [self._params]. *)
Definition registry : Type := (store * seq ref)%type.

Definition register_name (own : option string) (name : option string) : string :=
  match own, name with
  | Some pn, None => pn
  | Some pn, Some nm => String.append nm (String.append "." pn)
  | None, None => ""
  | None, Some nm => nm
  end.

Definition index_name (name : option string) (i : nat) : string :=
  String.append (if name is Some nm then nm else "")
    (String.append "[" (String.append (str i) "]")).

Definition member_name (name : option string) (oname : string) : string :=
  String.append (if name is Some nm then String.append nm "." else "") oname.

Fixpoint _register_parameters (obj : pyobj) (name : option string)
    (st : registry) : registry :=
  match obj with
  | PParameter r =>
      let name := register_name (p_name (deref st.1 r)) name in
      (update st.1 r (set_name name), rcons st.2 r)
  | PList items =>
      (fix each (vs : seq pyobj) (i : nat) (st : registry) : registry :=
         match vs with
         | [::] => st
         | v :: vs =>
             each vs i.+1 (_register_parameters v (Some (index_name name i)) st)
         end) items 0%N st
  | PModule oname dict =>
      (fix each (vs : seq (string * pyobj)) (st : registry) : registry :=
         match vs with
         | [::] => st
         | v :: vs =>
             each vs (_register_parameters v.2 (Some (member_name name oname)) st)
         end) dict st
  | PData _ => st
  end.

(** ** Kernels, means and likelihoods *)

(** Modelled from the spec: the kernel capability ([mogptk.gpr.Kernel], not
    part of the model file).  [k_fun] is the covariance function at the
    current hyperparameters; [K] and [K_diag] evaluate it on the rows of
    their inputs.  [k_name] and [k_dict] are the attributes the registry
    walks. *)
Record Kernel := mkKernel {
  k_name : string;
  k_dict : seq (string * pyobj);
  output_dims : nat;
  k_fun : forall d : nat, 'rV[R]_d -> 'rV[R]_d -> R
}.

(** [kernel.K(X1, X2)], also [kernel(X1, X2)]; [kernel.K(X)] is [K X X]. *)
Definition K (k : Kernel) n1 n2 d (X1 : 'M[R]_(n1, d)) (X2 : 'M[R]_(n2, d)) :
    'M[R]_(n1, n2) :=
  \matrix_(i, j) k_fun k (row i X1) (row j X2).

(** [kernel.K_diag(X)], a vector of length [n]. *)
Definition K_diag (k : Kernel) n d (X : 'M[R]_(n, d)) : 'rV[R]_n :=
  \row_i k_fun k (row i X) (row i X).

(** Modelled from the spec: the mean capability, a callable from the inputs
    to a vector with one entry per row. *)
Record Mean := mkMean {
  m_name : string;
  m_dict : seq (string * pyobj);
  m_fun : forall n d : nat, 'M[R]_(n, d) -> 'rV[R]_n
}.

(** [mean(X).reshape(-1,1)] *)
Definition mean_col (m : Mean) n d (X : 'M[R]_(n, d)) : 'cV[R]_n := (m_fun m X)^T.

(** A predictive variance: the full covariance matrix or its diagonal as a
    column. *)
Inductive pvar (n : nat) : Type :=
| VarFull (V : 'M[R]_n)
| VarDiag (v : 'cV[R]_n).

(** Modelled from the spec: the likelihood capability.  [l_output_dims] is
    present for a [MultiOutputLikelihood]; [l_scale] is the [scale] Parameter
    of a [GaussianLikelihood]; [validate_y] answers with the message of the
    error it raises on malformed observations. *)
Record Likelihood := mkLikelihood {
  l_name : string;
  l_dict : seq (string * pyobj);
  l_output_dims : option nat;
  l_scale : option ref;
  validate_y : forall n d : nat, 'cV[R]_n -> 'M[R]_(n, d) -> option string;
  variational_expectation :
    store -> forall n d : nat, 'cV[R]_n -> 'cV[R]_n -> 'cV[R]_n -> 'M[R]_(n, d) -> R;
  l_predict :
    store -> forall n d : nat, 'cV[R]_n -> pvar n -> bool -> 'M[R]_(n, d) ->
    'cV[R]_n * pvar n
}.

(** Modelled from the spec: [GaussianLikelihood(variance)], a likelihood whose
    only Parameter is [scale], the noise variance, bounded below by the
    positive minimum of the configuration.  Its validation, variational
    expectation and predictive transform are external: they come as
    [gaussian], given the address of [scale]. *)
Record gaussian_capability := mkGaussian {
  g_validate_y : forall n d : nat, 'cV[R]_n -> 'M[R]_(n, d) -> option string;
  g_variational_expectation :
    ref -> store ->
    forall n d : nat, 'cV[R]_n -> 'cV[R]_n -> 'cV[R]_n -> 'M[R]_(n, d) -> R;
  g_predict :
    ref -> store ->
    forall n d : nat, 'cV[R]_n -> pvar n -> bool -> 'M[R]_(n, d) ->
    'cV[R]_n * pvar n
}.

(** The global configuration [mogptk.gpr.config]. *)
Inductive dtype_t : Type := Float32 | Float64 | OtherDtype.

Record config_t := mkConfig { dtype : dtype_t; positive_minimum : R }.

Definition GaussianLikelihood (gaussian : gaussian_capability)
    (config : config_t) (variance : tensor) (h : store) : Likelihood * store :=
  let: (h, r) :=
    alloc h (new_Param variance (Some "scale"%string)
               (Some (scalar_tensor (positive_minimum config))) true) in
  (mkLikelihood "GaussianLikelihood" [:: ("scale"%string, PParameter r)]
     None (Some r) (g_validate_y gaussian)
     (g_variational_expectation gaussian r) (g_predict gaussian r),
   h).


(** ** The base class [Model] *)

Module Model.

Record t := mk {
  data_points : nat;
  input_dims : nat;
  kernel : Kernel;
  X : 'M[R]_(data_points, input_dims);
  y : 'cV[R]_data_points;
  likelihood : Likelihood;
  jitter : R;
  mean : option Mean;
  name : option string;
  _params : seq ref
}.

(** A class that derives from [Model]: its instances have the attributes of
    the base class. *)
Class Subclass (S : Type) := super : S -> t.

#[global] Instance Model_Subclass : Subclass t := fun self => self.




Definition cholesky_message : string :=
  "linalg.cholesky: The factorization could not be completed because the input is not positive-definite".

(** The first block of [Model._check_input]: [X] as a tensor of rank 2 that
    is not empty.  Converting a tensor to the configured device and dtype
    leaves it as it is. *)
Definition rank2_X {model} (X : tensor) : result model tensor :=
  if ndim X == 0%N then Ok (reshape X [:: 1%N; 1%N])
  else if ndim X == 1%N then Ok (reshape_col X)
  else if ndim X != 2%N then
    Raise (ValueError
      "X must have dimensions (data_points,input_dims) with input_dims optional")
  else Ok X.

Definition check_X {model} (X : tensor) : result model tensor :=
  match rank2_X X with
  | Raise e => Raise e
  | Ok X =>
      if (dim X 0 == 0%N) || (dim X 1 == 0%N) then
        Raise (ValueError "X must not be empty")
      else Ok X
  end.

(** Its second block: [y] as a column. *)
Definition check_y {model} (y : tensor) : result model tensor :=
  if ndim y == 0%N then Ok (reshape y [:: 1%N; 1%N])
  else if ndim y == 1%N then Ok (reshape_col y)
  else if (ndim y != 2%N) || (dim y 1 != 1%N) then
    Raise (ValueError "y must have one dimension (data_points,)")
  else Ok y.

(** [Model._check_input].  [input_dims] is [self.input_dims], which is not
    set yet when the constructor validates the training data. *)
Definition _check_input {model} (input_dims : option nat)
    (X : tensor) (y : option tensor) : result model (tensor * option tensor) :=
  match check_X X with
  | Raise e => Raise e
  | Ok X =>
      match y with
      | Some y =>
        match check_y y with
        | Raise e => Raise e
        | Ok y =>
          if dim X 0 != dim y 0 then
            Raise (ValueError "number of data points for X and y must match")
          else Ok (X, Some y)
        end
      | None =>
        (* X is for prediction *)
        match input_dims with
        | None => Raise (AttributeError "input_dims")
        | Some d =>
          if dim X 1 != d then
            Raise (ValueError
              (String.append "X must have "
                (String.append (str d) " input dimensions")))
          else Ok (X, None)
        end
      end
  end.


(** [Model._index_channel]: the entries of a per-channel value selected by
    the channel of each input, which is its first coordinate. *)
Definition long (x : R) : Z :=
  if 0 <= x then Int_part x else Z.opp (Int_part (- x)).

Definition first_column n d (X : 'M[R]_(n, d)) (i : 'I_n) : R :=
  if insub 0%N is Some j then X i j else 0.

(** [torch.index_select(value, dim=0, index)]: the slices of [value] along
    its first dimension at the given indices, or an [IndexError]. *)
Definition index_select {model} (value : tensor) (index : seq Z) :
    result model tensor :=
  let c := dim value 0 in
  let w := (\prod_(k <- behead (shape value)) k)%N in
  if all (fun z : Z => Z.leb 0 z && (Z.to_nat z < c)%N) index then
    Ok (Tensor (size index :: behead (shape value))
          (flatten [seq take w (drop (Z.to_nat z * w) (data value)) | z <- index]))
  else Raise (IndexError "index out of range in self").

Definition _index_channel {model} (self : t) (value : tensor)
    n d (X : 'M[R]_(n, d)) : result model tensor :=
  if [&& (1 < output_dims (kernel self))%N, (0 < ndim value)%N
       & dim value 0 == output_dims (kernel self)] then
    index_select value [seq long (first_column X i) | i <- enum 'I_n]
  else Ok value.

(** [Model.parameters]: the trainable Parameters of the registry, in order;
    the generator yields the unconstrained tensor of each of them. *)
Definition parameters (h : store) (self : t) : seq ref :=
  [seq r <- _params self | p_trainable (deref h r)].

(** [Model.get_parameters] *)
Definition get_parameters (self : t) : seq ref := _params self.

(** [param_range] of [Model.print_parameters]; the bounds are kept as
    tensors instead of their printed form. *)
Inductive range_t : Type :=
| RangePegged
| RangeFixed
| RangeAll
| RangeUpTo (upper : tensor)
| RangeFrom (lower : tensor)
| RangeBetween (lower upper : tensor).

Definition param_range (lower upper : option tensor) (trainable pegged : bool) :
    range_t :=
  if pegged then RangePegged
  else if ~~ trainable then RangeFixed
  else match lower, upper with
       | None, None => RangeAll
       | None, Some u => RangeUpTo u
       | Some l, None => RangeFrom l
       | Some l, Some u => RangeBetween l u
       end.

(** [Model.print_parameters]: the rows of the table, one per registered
    Parameter: name, range and value. *)
Definition print_parameters (h : store) (self : t) :
    seq (option string * range_t * tensor) :=
  [seq let p := deref h r in
       (p_name p, param_range (p_lower p) (p_upper p) (p_trainable p) (p_pegged p),
        p_value p)
  | r <- _params self].

(** [K.diagonal().mean()] *)
Definition diagonal_mean n (A : 'M[R]_n) : R := ((\sum_i A i i) / n%:R)%R.

(** [Model._cholesky].  The reals have neither NaN nor infinities, so the
    two diagnostics about them never print. *)
Definition _cholesky {S} `{Subclass S} (self : S) n (A : 'M[R]_n)
    (add_jitter : bool) : comp S 'M[R]_n :=
  let A :=
    if add_jitter then A + (jitter (super self) * diagonal_mean A)%:M else A in
  let! _ := emit (TorchCholesky A) in
  match cholesky A with
  | Some L => ret L
  | None =>
      let! _ := emit (PrintError (String.append "ERROR: " cholesky_message)) in
      let! _ := emit PrintParameters in
      let! _ := emit (PlotGram A) in
      raise (CholeskyException cholesky_message A self)
  end.

(** [Model.log_marginal_likelihood] of the base class. *)
Definition log_marginal_likelihood {model} (self : t) : result model R :=
  Raise NotImplementedError.

(** [Model.log_prior] *)
Definition log_prior (h : store) (self : t) : R :=
  \sum_(r <- _params self) Param_log_prior (deref h r).

(** [Model.__init__].  That the kernel and the mean derive from [Kernel] and
    [Mean], and that the mean has one value per data point, hold by their
    types. *)
Definition __init__ {model} (config : config_t) (kernel : Kernel)
    (X y : tensor) (likelihood : Likelihood) (jitter : R) (mean : option Mean)
    (name : option string) (h : store) : result model (t * store) :=
  match _check_input None X (Some y) with
  | Raise e => Raise e
  | Ok (X, y) =>
    let y := if y is Some y then y else Tensor [::] [::] in
    let n := dim X 0 in
    let d := dim X 1 in
    let X := mx_of_tensor n d X in
    let y := mx_of_tensor n 1 y in
    if (if l_output_dims likelihood is Some od then od != output_dims kernel
        else false) then
      Raise (ValueError "kernel and likelihood must have matching output dimensions")
    else if validate_y likelihood y X is Some msg then Raise (ValueError msg)
    else
      (* limit to number of significant digits *)
      let jitter :=
        match dtype config with
        | Float32 => Num.max jitter (10 ^- 6)
        | Float64 => Num.max jitter (10 ^- 15)
        | OtherDtype => jitter
        end in
      let st : registry := (h, [::]) in
      let st := _register_parameters (PModule (k_name kernel) (k_dict kernel)) None st in
      let st :=
        _register_parameters (PModule (l_name likelihood) (l_dict likelihood)) None st in
      let st :=
        if mean is Some m then
          _register_parameters (PModule (m_name m) (m_dict m)) None st
        else st in
      Ok (mk kernel X y likelihood jitter mean name st.2, st.1)
  end.

End Model.

(** ** Broadcasting *)

(** The matrix of shape [(m, n)] a tensor of rank at most 2 broadcasts to,
    if it does; a vector broadcasts along the rows. *)
Definition broadcast (t : tensor) (m n : nat) : option 'M[R]_(m, n) :=
  match shape t with
  | [::] => Some (const_mx (item t))
  | [:: c] =>
      if c == n then Some (\matrix_(i, j) nth 0 (data t) j)
      else if c == 1%N then Some (const_mx (item t))
      else None
  | [:: a; b] =>
      if ((a == m) || (a == 1%N)) && ((b == n) || (b == 1%N)) then
        Some (\matrix_(i, j)
                nth 0 (data t)
                  ((if a == 1%N then 0 else i) * b + (if b == 1%N then 0 else j))%N)
      else None
  | _ => None
  end.

Definition broadcast_error : string :=
  "The size of tensor a must match the size of tensor b".

(** [A += t * eye], for a square [A]. *)
Definition add_times_eye {model} n (A : 'M[R]_n) (t : tensor) :
    result model 'M[R]_n :=
  if broadcast t n n is Some B then
    Ok (A + \matrix_(i, j) (B i j * (1%:M : 'M[R]_n) i j))
  else Raise (RuntimeError broadcast_error).

(** [A += t.diagflat()], for a square [A]. *)
Definition add_diagflat {model} n (A : 'M[R]_n) (t : tensor) :
    result model 'M[R]_n :=
  if numel t == n then Ok (A + diag_mx (\row_i nth 0 (data t) i))
  else if numel t == 1%N then Ok (A + const_mx (item t))
  else Raise (RuntimeError broadcast_error).

(** [v += t], for a vector [v]. *)
Definition add_broadcast {model} n (v : 'rV[R]_n) (t : tensor) :
    result model 'rV[R]_n :=
  if broadcast t 1 n is Some B then Ok (v + B)
  else Raise (RuntimeError broadcast_error).

(** [A.square().sum(dim=1)] of the transpose of [A]: the sums of the squares
    of the columns. *)
Definition column_square_sums m n (A : 'M[R]_(m, n)) : 'rV[R]_n :=
  \row_j \sum_i A i j ^+ 2.

(** [self.likelihood.scale()], the value of the [scale] Parameter. *)
Definition likelihood_scale {model} (h : store) (l : Likelihood) : result model tensor :=
  if l_scale l is Some r then Ok (p_value (deref h r))
  else Raise (AttributeError "scale").

(** ** Exact inference: [Exact] *)

Module Exact.

Record t := mk { base : Model.t; variance_per_data : bool }.

#[global] Instance Exact_Subclass : Model.Subclass t := base.

Definition n (self : t) : nat := Model.data_points (base self).

(** [self.eye] and [self.log_marginal_likelihood_constant], fixed by the
    constructor from the number of data points. *)
Definition eye (self : t) : 'M[R]_(n self) := 1%:M.

Definition log_marginal_likelihood_constant (self : t) : R :=
  (2^-1 * (n self)%:R * ln (2 * PI))%R.

(** [Exact.__init__] *)
Definition __init__ {model} (gaussian : gaussian_capability) (config : config_t)
    (kernel : Kernel) (X y : tensor) (variance : tensor) (jitter : R)
    (mean : option Mean) (name : option string) (h : store) :
    result model (t * store) :=
  let per_data :=
    [&& ndim variance == 2%N,
        (ndim X != 1%N) || (dim variance 0 == dim X 0)
      & dim variance 1 == 1%N] in
  if ~~ per_data &&
     ((1 < ndim variance)%N ||
      ((ndim variance == 1%N) && (dim variance 0 != output_dims kernel))) then
    Raise (ValueError
      "variance must be float or have shape (channels,) or (data_points,1)")
  else
    let variance :=
      if per_data then reshape variance [:: numel variance] else variance in
    let: (likelihood, h) := GaussianLikelihood gaussian config variance h in
    match Model.__init__ config kernel X y likelihood jitter mean name h with
    | Raise e => Raise e
    | Ok (self, h) =>
        let h :=
          if l_scale (Model.likelihood self) is Some r then
            update h r (set_trainable (~~ per_data))
          else h in
        Ok (mk self per_data, h)
    end.

(** [Kff = self.kernel.K(self.X)] with the noise added, as both
    [log_marginal_likelihood] and [predict] compute it. *)
Definition noisy_Kff (h : store) (self : t) : result t 'M[R]_(n self) :=
  let Kff := K (Model.kernel (base self)) (Model.X (base self)) (Model.X (base self)) in
  match likelihood_scale h (Model.likelihood (base self)) with
  | Raise e => Raise e
  | Ok scale =>
      if variance_per_data self then add_diagflat Kff scale
      else
        match Model._index_channel (base self) scale (Model.X (base self)) with
        | Raise e => Raise e
        | Ok v => add_times_eye Kff v
        end
  end.

(** [y = self.y - self.mean(self.X).reshape(-1,1)] if there is a mean. *)
Definition centered_y (self : Model.t) : 'cV[R]_(Model.data_points self) :=
  if Model.mean self is Some m then Model.y self - mean_col m (Model.X self)
  else Model.y self.

(** [Exact.log_marginal_likelihood] *)
Definition log_marginal_likelihood (h : store) (self : t) : comp t R :=
  let! Kff := lift (noisy_Kff h self) in
  let! L := Model._cholesky self Kff true in
  let y := centered_y (base self) in
  let p := - log_marginal_likelihood_constant self in
  let p := p - \sum_i ln (L i i) in
  let p := p - 2^-1 * (y^T *m cholesky_solve y L) 0 0 in
  ret p.

(** [Exact.predict].  The pair is returned as tensors whether [tensor] is set
    or not: the NumPy arrays hold the same entries. *)
Definition predict (h : store) (self : t) (Xs : tensor)
    (full as_tensor predict_y : bool) : comp t (tensor * tensor) :=
  if variance_per_data self && predict_y then
    raise (ValueError
      "can only predict function values when data point variances are given, set predict_y=False")
  else
    let! Xs := lift (Model._check_input
                       (Some (Model.input_dims (base self))) Xs None) in
    let m := dim Xs.1 0 in
    let Xs : 'M[R]_(m, Model.input_dims (base self)) := mx_of_tensor _ _ Xs.1 in
    let y := centered_y (base self) in
    let! Kff := lift (noisy_Kff h self) in
    let Kfs := K (Model.kernel (base self)) (Model.X (base self)) Xs in
    let! Lff := Model._cholesky self Kff true in
    let v := solve_triangular Lff Kfs in
    let mu := Kfs^T *m cholesky_solve y Lff in
    let mu :=
      if Model.mean (base self) is Some mn then mu + mean_col mn Xs else mu in
    if full then
      let Kss := K (Model.kernel (base self)) Xs Xs in
      let var := Kss - v^T *m v in
      let! var :=
        if predict_y then
          let! scale := lift (likelihood_scale h (Model.likelihood (base self))) in
          let! s := lift (Model._index_channel (base self) scale Xs) in
          lift (add_times_eye var s)
        else ret var in
      ret (tensor_of_mx mu, tensor_of_mx var)
    else
      let Kss_diag := K_diag (Model.kernel (base self)) Xs in
      let var := Kss_diag - column_square_sums v in
      let! var :=
        if predict_y then
          let! scale := lift (likelihood_scale h (Model.likelihood (base self))) in
          let! s := lift (Model._index_channel (base self) scale Xs) in
          lift (add_broadcast var s)
        else ret var in
      ret (tensor_of_mx mu, tensor_of_mx var^T).

End Exact.

(** ** Inducing points *)

(** The value of a Parameter that holds a matrix with [d] columns: its number
    of rows and the matrix, or the shape error of the first product that
    uses it. *)
Definition matrix_value {model} (h : store) (r : ref) (d : nat) :
    result model {m : nat & 'M[R]_(m, d)} :=
  let t := p_value (deref h r) in
  if (ndim t == 2%N) && (dim t 1 == d) then
    Ok (existT _ (dim t 0) (mx_of_tensor (dim t 0) d t))
  else Raise (RuntimeError "mat1 and mat2 shapes cannot be multiplied").

(** The same for a Parameter whose shape the caller fixes. *)
Definition shaped_value {model} (h : store) (r : ref) (m n : nat) :
    result model 'M[R]_(m, n) :=
  let t := p_value (deref h r) in
  if shape t == [:: m; n] then Ok (mx_of_tensor m n t)
  else Raise (RuntimeError "mat1 and mat2 shapes cannot be multiplied").

(** The [Z] argument of the sparse models: a number of inducing points, one
    number per channel, or their positions. *)
Inductive Z_arg : Type :=
| ZInt (M : nat)
| ZInts (M : seq nat)
| ZTensor (Z : tensor).

(** [torch.linspace(a, b, m)] *)
Definition linspace (a b : R) (m : nat) : seq R :=
  [seq if m == 1%N then a else a + k%:R * (b - a) / (m.-1)%:R | k <- iota 0 m].

(** [torch.min] and [torch.max] of a vector; both fail on an empty one. *)
Definition torch_min {model} (xs : seq R) : result model R :=
  if xs is x :: xs' then Ok (foldr Num.min x xs')
  else Raise (RuntimeError "min(): Expected reduction dim to be specified for input.numel() == 0").

Definition torch_max {model} (xs : seq R) : result model R :=
  if xs is x :: xs' then Ok (foldr Num.max x xs')
  else Raise (RuntimeError "max(): Expected reduction dim to be specified for input.numel() == 0").

Definition rows_of m n (A : 'M[R]_(m, n)) : seq (seq R) :=
  [seq [seq A i j | j <- enum 'I_n] | i <- enum 'I_m].

(** The columns [linspace(min(x[:,i]), max(x[:,i]), m)] for [i] in [cols], as
    a list of columns. *)
Fixpoint linspace_columns {model} (x : seq (seq R)) (cols : seq nat) (m : nat) :
    result model (seq (seq R)) :=
  if cols is i :: cols' then
    let xi := [seq nth 0 r i | r <- x] in
    match torch_min xi, torch_max xi with
    | Ok lo, Ok hi =>
        match linspace_columns x cols' m with
        | Ok cs => Ok (linspace lo hi m :: cs)
        | Raise e => Raise e
        end
    | Raise e, _ => Raise e
    | _, Raise e => Raise e
    end
  else Ok [::].

(** Rows [0 .. m-1] of a matrix given by its columns. *)
Definition rows_of_columns (cs : seq (seq R)) (m : nat) : seq (seq R) :=
  [seq [seq nth 0 c k | c <- cs] | k <- iota 0 m].

(** The blocks of the multi-output case: for channel [j] with [m] points, the
    first coordinate is [j] and the others are spread over the range of the
    inputs of that channel. *)
Fixpoint channel_blocks {model} (X : seq (seq R)) (d : nat) (M : seq nat) (j : nat) :
    result model (seq (seq R)) :=
  if M is m :: M' then
    let x := [seq r <- X | nth 0 r 0 == j%:R] in
    match linspace_columns x (iota 1 d.-1) m with
    | Ok cs =>
        match channel_blocks X d M' j.+1 with
        | Ok rest => Ok (rows_of_columns (nseq m j%:R :: cs) m ++ rest)
        | Raise e => Raise e
        end
    | Raise e => Raise e
    end
  else Ok [::].

(** [init_inducing_points(Z, X, kernel)] *)
Definition init_inducing_points {model} (Z : Z_arg) n d (X : 'M[R]_(n, d))
    (kernel : Kernel) : result model tensor :=
  let as_given : tensor :=
    match Z with
    | ZInt M => scalar_tensor M%:R
    | ZInts M => Tensor [:: size M] [seq m%:R | m <- M]
    | ZTensor Z => Z
    end in
  if (1 < output_dims kernel)%N then
    let counts : option (seq nat) :=
      match Z with
      | ZInt M => Some (nseq (output_dims kernel) M)
      | ZInts M => if size M == output_dims kernel then Some M else None
      | ZTensor _ => None
      end in
    if counts is Some M then
      match channel_blocks (rows_of X) d M 0 with
      | Ok rows => Ok (Tensor [:: sumn M; d] (flatten rows))
      | Raise e => Raise e
      end
    else Ok as_given
  else if Z is ZInt M then
    match linspace_columns (rows_of X) (iota 0 d) M with
    | Ok cs => Ok (Tensor [:: M; d] (flatten (rows_of_columns cs M)))
    | Raise e => Raise e
    end
  else Ok as_given.

(** The value of a scale that the computation uses as a single number.
    [Titsias] does not support a variance per channel (a TODO of its
    constructor): a scale with several entries stops the model here. *)
Definition scalar_value {model} (t : tensor) : result model R :=
  if numel t == 1%N then Ok (item t)
  else Raise (RuntimeError "a scalar noise variance is expected").

(** [t.squeeze()]: the dimensions of size one are dropped. *)
Definition squeeze (t : tensor) : tensor :=
  Tensor [seq k <- shape t | k != 1%N] (data t).

(** What the constructors of the sparse models do with the inducing points
    once the base class is set up: [Z = init_inducing_points(Z, self.X,
    kernel)], [Z = self._check_input(Z)], [self.Z = Parameter(Z,
    name="induction_points")], one parameter less per point when the first
    coordinate is the channel, and [self._register_parameters(self.Z)]. *)
Definition register_inducing_points {model} (kernel : Kernel) (Z : Z_arg)
    (self : Model.t) (h : store) : result model (Model.t * ref * store) :=
  match init_inducing_points Z (Model.X self) kernel with
  | Raise e => Raise e
  | Ok Z =>
    match Model._check_input (Some (Model.input_dims self)) Z None with
    | Raise e => Raise e
    | Ok (Z, _) =>
      let: (h, Zr) :=
        alloc h (new_Param Z (Some "induction_points"%string) None true) in
      let h :=
        if (1 < output_dims kernel)%N then
          update h Zr (fun p =>
            set_num_parameters (p_num_parameters p - dim (p_value p) 0) p)
        else h in
      let st := _register_parameters (PParameter Zr) None (h, Model._params self) in
      Ok (Model.mk (Model.kernel self) (Model.X self) (Model.y self)
            (Model.likelihood self) (Model.jitter self) (Model.mean self)
            (Model.name self) st.2,
          Zr, st.1)
    end
  end.

(** ** Sparse regression with pseudo-inputs: [Snelson] *)

Module Snelson.

Record t := mk { base : Model.t; Z : ref }.

#[global] Instance Snelson_Subclass : Model.Subclass t := base.

(** [Snelson.predict] *)
Definition predict (h : store) (self : t) (Xs : tensor)
    (full as_tensor predict_y : bool) : comp t (tensor * tensor) :=
  let kernel := Model.kernel (base self) in
  let X := Model.X (base self) in
  let! Xs := lift (Model._check_input
                     (Some (Model.input_dims (base self))) Xs None) in
  let Xs : 'M[R]_(dim Xs.1 0, Model.input_dims (base self)) :=
    mx_of_tensor _ _ Xs.1 in
  let y := Exact.centered_y (base self) in
  let Kff_diag := K_diag kernel X in
  let! Zv := lift (matrix_value h (Z self) (Model.input_dims (base self))) in
  let Zm := projT2 Zv in
  let Kuf := K kernel Zm X in
  let Kuu := K kernel Zm Zm in
  let Kus := K kernel Zm Xs in
  let! Luu := Model._cholesky self Kuu true in
  let v := solve_triangular Luu Kuf in
  let! scale := lift (likelihood_scale h (Model.likelihood (base self))) in
  let! sx := lift (Model._index_channel (base self) scale X) in
  let! g := lift (add_broadcast (Kff_diag - column_square_sums v) sx) in
  let G := diag_mx (map_mx (fun x => 1 / x) g) in
  let! L := Model._cholesky self (v *m G *m v^T + 1%:M) false in
  let a := solve_triangular Luu Kus in
  let b := solve_triangular L a in
  let c := solve_triangular L (v *m G *m y) in
  let mu := b^T *m c in
  let mu :=
    if Model.mean (base self) is Some mn then mu + mean_col mn Xs else mu in
  if full then
    let Kss := K kernel Xs Xs in
    (* var = Kss - a.T.mm(w) + b.T.mm(u): the name w is not bound *)
    raise (NameError "w")
  else
    let Kss_diag := K_diag kernel Xs in
    let var := Kss_diag - column_square_sums a + column_square_sums b in
    let! var :=
      if predict_y then
        let! scale := lift (likelihood_scale h (Model.likelihood (base self))) in
        let! s := lift (Model._index_channel (base self) scale Xs) in
        lift (add_broadcast var s)
      else ret var in
    ret (tensor_of_mx mu, tensor_of_mx var^T).

(** [Snelson.__init__] *)
Definition __init__ {model} (gaussian : gaussian_capability) (config : config_t)
    (kernel : Kernel) (X y : tensor) (Z : Z_arg) (variance : tensor) (jitter : R)
    (mean : option Mean) (name : option string) (h : store) :
    result model (t * store) :=
  let variance := squeeze variance in
  if (1 < ndim variance)%N ||
     ((ndim variance == 1%N) && (dim variance 0 != output_dims kernel)) then
    Raise (ValueError "variance must be float or have shape (channels,)")
  else
    let: (likelihood, h) := GaussianLikelihood gaussian config variance h in
    match Model.__init__ config kernel X y likelihood jitter mean name h with
    | Raise e => Raise e
    | Ok (self, h) =>
        match register_inducing_points kernel Z self h with
        | Raise e => Raise e
        | Ok (self, Zr, h) => Ok (mk self Zr, h)
        end
    end.

Definition log_marginal_likelihood_constant (self : t) : R :=
  (2^-1 * (Model.data_points (base self))%:R * ln (2 * PI))%R.

(** [Snelson.log_marginal_likelihood] *)
Definition log_marginal_likelihood (h : store) (self : t) : comp t R :=
  let kernel := Model.kernel (base self) in
  let X := Model.X (base self) in
  let y := Exact.centered_y (base self) in
  let Kff_diag := K_diag kernel X in
  let! Zv := lift (matrix_value h (Z self) (Model.input_dims (base self))) in
  let Zm := projT2 Zv in
  let Kuf := K kernel Zm X in
  let Kuu := K kernel Zm Zm in
  let! Luu := Model._cholesky self Kuu true in
  let v := solve_triangular Luu Kuf in
  let! scale := lift (likelihood_scale h (Model.likelihood (base self))) in
  let! sx := lift (Model._index_channel (base self) scale X) in
  let! g := lift (add_broadcast (Kff_diag - column_square_sums v) sx) in
  let G := diag_mx (map_mx (fun x => 1 / x) g) in
  let! L := Model._cholesky self (v *m G *m v^T + 1%:M) false in
  let c := solve_triangular L (v *m G *m y) in
  let p := - log_marginal_likelihood_constant self in
  let p := p - \sum_i ln (L i i) in
  let p := p - 2^-1 * \sum_i ln (g 0 i) in
  let p := p - 2^-1 * (y^T *m G *m y) 0 0 in
  let p := p + 2^-1 * (c^T *m c) 0 0 in
  ret p.

End Snelson.

(** ** The variational Gaussian approximation: [OpperArchambeau] *)

Module OpperArchambeau.

Record t := mk { base : Model.t; q_nu : ref; q_lambda : ref }.

#[global] Instance OpperArchambeau_Subclass : Model.Subclass t := base.

(** [OpperArchambeau.__init__] *)
Definition __init__ {model} (config : config_t) (kernel : Kernel) (X y : tensor)
    (likelihood : Likelihood) (jitter : R) (mean : option Mean)
    (name : option string) (h : store) : result model (t * store) :=
  match Model.__init__ config kernel X y likelihood jitter mean name h with
  | Raise e => Raise e
  | Ok (self, h) =>
    let n := Model.data_points self in
    let: (h, q_nu) :=
      alloc h (new_Param (tensor_of_mx (0 : 'M[R]_(n, 1)))
                 (Some "q_nu"%string) None true) in
    let: (h, q_lambda) :=
      alloc h (new_Param (tensor_of_mx (const_mx 1 : 'M[R]_(n, 1)))
                 (Some "q_lambda"%string)
                 (Some (scalar_tensor (positive_minimum config))) true) in
    let st : registry := (h, Model._params self) in
    let st := _register_parameters (PParameter q_nu) None st in
    let st := _register_parameters (PParameter q_lambda) None st in
    Ok (mk (Model.mk (Model.kernel self) (Model.X self) (Model.y self)
              (Model.likelihood self) (Model.jitter self) (Model.mean self)
              (Model.name self) st.2)
           q_nu q_lambda,
        st.1)
  end.

(** [OpperArchambeau.elbo].  The Parameters keep the shape the constructor
    gave them. *)
Definition elbo (h : store) (self : t) : comp t R :=
  let n := Model.data_points (base self) in
  let kernel := Model.kernel (base self) in
  let X := Model.X (base self) in
  let y := Exact.centered_y (base self) in
  let! q_nu := lift (shaped_value h (q_nu self) n 1) in
  let! q_lambda := lift (shaped_value h (q_lambda self) n 1) in
  let Kff := K kernel X X in
  let! L :=
    Model._cholesky self
      (\matrix_(i, j) (q_lambda i 0 * q_lambda j 0 * Kff i j) + 1%:M) false in
  let invL := solve_triangular L 1%:M in
  let qf_mu := Kff *m q_nu in
  let qf_var_diag : 'cV[R]_n :=
    \col_i (1 / q_lambda i 0 ^+ 2
            - (invL^T *m invL) i i / q_lambda i 0 / q_lambda i 0) in
  let kl := (- n%:R)%R in
  let kl := (kl + (q_nu^T *m qf_mu) 0 0)%R in
  let kl := (kl + \sum_i ln (L i i ^+ 2))%R in
  let kl := (kl + \sum_i \sum_j invL i j ^+ 2)%R in
  let qf_mu :=
    if Model.mean (base self) is Some mn then qf_mu - mean_col mn X
    else qf_mu in
  let var_exp :=
    variational_expectation (Model.likelihood (base self)) h y qf_mu
      qf_var_diag X in
  ret (var_exp - 2^-1 * kl).

(** [OpperArchambeau.log_marginal_likelihood]: maximize the lower bound. *)
Definition log_marginal_likelihood (h : store) (self : t) : comp t R := elbo h self.

(** [OpperArchambeau.predict] *)
Definition predict (h : store) (self : t) (Xs : tensor)
    (full as_tensor predict_y : bool) : comp t (tensor * tensor) :=
  let n := Model.data_points (base self) in
  let kernel := Model.kernel (base self) in
  let X := Model.X (base self) in
  let! Xs := lift (Model._check_input
                     (Some (Model.input_dims (base self))) Xs None) in
  let Xs : 'M[R]_(dim Xs.1 0, Model.input_dims (base self)) :=
    mx_of_tensor _ _ Xs.1 in
  let Kff := K kernel X X in
  let Kfs := K kernel X Xs in
  let! q_lambda := lift (shaped_value h (q_lambda self) n 1) in
  let! L :=
    Model._cholesky self
      (Kff + diag_mx (\row_i (1 / q_lambda i 0 ^+ 2))) false in
  let a := solve_triangular L Kfs in
  let! q_nu := lift (shaped_value h (q_nu self) n 1) in
  let mu := Kfs^T *m q_nu in
  let mu :=
    if Model.mean (base self) is Some mn then mu + mean_col mn Xs else mu in
  let var :=
    if full then VarFull (K kernel Xs Xs - a^T *m a)
    else VarDiag (K_diag kernel Xs - column_square_sums a)^T in
  let r :=
    if predict_y then
      l_predict (Model.likelihood (base self)) h mu var full Xs
    else (mu, var) in
  ret (tensor_of_mx r.1,
       match r.2 with
       | VarFull V => tensor_of_mx V
       | VarDiag v => tensor_of_mx v
       end).

End OpperArchambeau.

(** ** Variational free energy: [Titsias] *)

Module Titsias.

Record t := mk { base : Model.t; Z : ref }.

#[global] Instance Titsias_Subclass : Model.Subclass t := base.

Definition log_marginal_likelihood_constant (self : t) : R :=
  (2^-1 * (Model.data_points (base self))%:R * ln (2 * PI))%R.

(** [Titsias.elbo] *)
Definition elbo (h : store) (self : t) : comp t R :=
  let kernel := Model.kernel (base self) in
  let X := Model.X (base self) in
  let y := Exact.centered_y (base self) in
  let Kff_diag := K_diag kernel X in
  let! Zv := lift (matrix_value h (Z self) (Model.input_dims (base self))) in
  let Zm := projT2 Zv in
  let Kuf := K kernel Zm X in
  let Kuu := K kernel Zm Zm in
  let! Luu := Model._cholesky self Kuu true in
  let v := solve_triangular Luu Kuf in
  let Q := v *m v^T in
  let! scale := lift (likelihood_scale h (Model.likelihood (base self))) in
  let! scale := lift (scalar_value scale) in
  let! L := Model._cholesky self (scale^-1 *: Q + 1%:M) false in
  let c := scale^-1 *: solve_triangular L (v *m y) in
  let p := - log_marginal_likelihood_constant self in
  let p := p - \sum_i ln (L i i) in
  let p := p - 2^-1 * (Model.data_points (base self))%:R * ln scale in
  let p := p - 2^-1 * (y^T *m y) 0 0 / scale in
  let p := p + 2^-1 * (c^T *m c) 0 0 in
  let p := p - 2^-1 * (\sum_i Kff_diag 0 i - \tr Q) / scale in
  ret p.

(** [Titsias.log_marginal_likelihood]: maximize the lower bound. *)
Definition log_marginal_likelihood (h : store) (self : t) : comp t R := elbo h self.

(** [Titsias.__init__] *)
Definition __init__ {model} (gaussian : gaussian_capability) (config : config_t)
    (kernel : Kernel) (X y : tensor) (Z : Z_arg) (variance : tensor) (jitter : R)
    (mean : option Mean) (name : option string) (h : store) :
    result model (t * store) :=
  let: (likelihood, h) := GaussianLikelihood gaussian config variance h in
  match Model.__init__ config kernel X y likelihood jitter mean name h with
  | Raise e => Raise e
  | Ok (self, h) =>
      match register_inducing_points kernel Z self h with
      | Raise e => Raise e
      | Ok (self, Zr, h) => Ok (mk self Zr, h)
      end
  end.

(** [Titsias.predict] *)
Definition predict (h : store) (self : t) (Xs : tensor)
    (full as_tensor predict_y : bool) : comp t (tensor * tensor) :=
  let kernel := Model.kernel (base self) in
  let X := Model.X (base self) in
  let! Xs := lift (Model._check_input
                     (Some (Model.input_dims (base self))) Xs None) in
  let Xs : 'M[R]_(dim Xs.1 0, Model.input_dims (base self)) :=
    mx_of_tensor _ _ Xs.1 in
  let y := Exact.centered_y (base self) in
  let! Zv := lift (matrix_value h (Z self) (Model.input_dims (base self))) in
  let Zm := projT2 Zv in
  let Kus := K kernel Zm Xs in
  let Kuf := K kernel Zm X in
  let Kuu := K kernel Zm Zm in
  let! Luu := Model._cholesky self Kuu true in
  let v := solve_triangular Luu Kuf in
  let! scale := lift (likelihood_scale h (Model.likelihood (base self))) in
  let! scale := lift (scalar_value scale) in
  let! L := Model._cholesky self (scale^-1 *: (v *m v^T) + 1%:M) false in
  let a := solve_triangular Luu Kus in
  let b := solve_triangular L a in
  let c := scale^-1 *: solve_triangular L (v *m y) in
  let mu := b^T *m c in
  let mu :=
    if Model.mean (base self) is Some mn then mu + mean_col mn Xs else mu in
  if full then
    let Kss := K kernel Xs Xs in
    let var := Kss - a^T *m a + b^T *m b in
    let var := if predict_y then var + scale%:M else var in
    ret (tensor_of_mx mu, tensor_of_mx var)
  else
    let Kss_diag := K_diag kernel Xs in
    let var := Kss_diag - column_square_sums a + column_square_sums b in
    let var := if predict_y then var + const_mx scale else var in
    ret (tensor_of_mx mu, tensor_of_mx var^T).

End Titsias.

(** ** Whitened sparse variational inference: [SparseHensman], [Hensman] *)

(** [A.tril()] *)
Definition tril n (A : 'M[R]_n) : 'M[R]_n :=
  \matrix_(i, j) if (j <= i)%N then A i j else 0.

Module SparseHensman.

Record t := mk {
  base : Model.t;
  is_sparse : bool;
  q_mu : ref;
  q_sqrt : ref;
  Z : ref
}.

#[global] Instance SparseHensman_Subclass : Model.Subclass t := base.

(** The default of the [name] argument of the constructor. *)
Definition default_name : string := "SparseHensman".

(** [SparseHensman.__init__] *)
Definition __init__ {model} (config : config_t) (kernel : Kernel) (X y : tensor)
    (Z : option Z_arg) (likelihood : Likelihood) (jitter : R)
    (mean : option Mean) (name : option string) (h : store) :
    result model (t * store) :=
  match Model.__init__ config kernel X y likelihood jitter mean name h with
  | Raise e => Raise e
  | Ok (self, h) =>
    let n := Model.data_points self in
    let is_sparse := isSome Z in
    let rZ : result model (option tensor * nat) :=
      if Z is Some Z then
        match init_inducing_points Z (Model.X self) kernel with
        | Raise e => Raise e
        | Ok Z =>
            match Model._check_input (Some (Model.input_dims self)) Z None with
            | Raise e => Raise e
            | Ok (Z, _) => Ok (Some Z, dim Z 0)
            end
        end
      else Ok (None, n) in
    match rZ with
    | Raise e => Raise e
    | Ok (Z, n) =>
      let: (h, q_mu) :=
        alloc h (new_Param (tensor_of_mx (0 : 'M[R]_(n, 1)))
                   (Some "q_mu"%string) None true) in
      let: (h, q_sqrt) :=
        alloc h (new_Param (tensor_of_mx (1%:M : 'M[R]_n))
                   (Some "q_sqrt"%string) None true) in
      let h := update h q_sqrt (set_num_parameters ((n * n + n) %/ 2)) in
      let: (h, Zr) :=
        if Z is Some Z then
          let: (h, Zr) :=
            alloc h (new_Param Z (Some "induction_points"%string) None true) in
          (if (1 < output_dims kernel)%N then
             update h Zr (fun p =>
               set_num_parameters (p_num_parameters p - dim (p_value p) 0) p)
           else h, Zr)
        else
          (* don't use inducing points *)
          alloc h (new_Param (tensor_of_mx (Model.X self)) None None false) in
      let st : registry := (h, Model._params self) in
      let st := _register_parameters (PParameter q_mu) None st in
      let st := _register_parameters (PParameter q_sqrt) None st in
      let st :=
        if is_sparse then _register_parameters (PParameter Zr) None st else st in
      Ok (mk (Model.mk (Model.kernel self) (Model.X self) (Model.y self)
                (Model.likelihood self) (Model.jitter self) (Model.mean self)
                (Model.name self) st.2)
             is_sparse q_mu q_sqrt Zr,
          st.1)
    end
  end.

(** [SparseHensman.kl_gaussian] *)
Definition kl_gaussian n (q_mu : 'cV[R]_n) (q_sqrt : 'M[R]_n) : R :=
  let S_diag : 'rV[R]_n := \row_i (q_sqrt i i) ^+ 2 in
  let kl := (- n%:R)%R in
  let kl := (kl + (q_mu^T *m q_mu) 0 0)%R in
  let kl := (kl - \sum_i ln (S_diag 0 i))%R in
  let kl := (kl + \sum_i S_diag 0 i)%R in
  (2^-1 * kl)%R.

(** [SparseHensman._predict] *)
Definition _predict (h : store) (self : t) m (Xs : 'M[R]_(m, Model.input_dims (base self)))
    (full : bool) : comp t ('cV[R]_m * pvar m) :=
  let kernel := Model.kernel (base self) in
  let! Zv := lift (matrix_value h (Z self) (Model.input_dims (base self))) in
  let Zm := projT2 Zv in
  let Kuu := K kernel Zm Zm in
  let Kus := K kernel Zm Xs in
  let! Luu := Model._cholesky self Kuu true in
  let a := solve_triangular Luu Kus in
  let! q_sqrt := lift (shaped_value h (q_sqrt self) (projT1 Zv) (projT1 Zv)) in
  let b := (tril q_sqrt)^T *m solve_triangular Luu Kus in
  let! q_mu := lift (shaped_value h (q_mu self) (projT1 Zv) 1) in
  let mu := Kus^T *m solve_triangular Luu^T q_mu in
  if full then
    let Kss := K kernel Xs Xs in
    ret (mu, VarFull (Kss - a^T *m a + b^T *m b))
  else
    let Kss_diag := K_diag kernel Xs in
    let var := Kss_diag - column_square_sums a + column_square_sums b in
    ret (mu, VarDiag var^T).

Arguments _predict h self {m} Xs full.

(** The two branches of [SparseHensman.elbo] for the marginal [q(f)] at the
    training inputs: through [_predict] if sparse, directly otherwise. *)
Definition qf_sparse (h : store) (self : t) :
    comp t ('cV[R]_(Model.data_points (base self)) *
            'cV[R]_(Model.data_points (base self))) :=
  let! r := _predict h self (Model.X (base self)) false in
  ret (r.1, if r.2 is VarDiag v then v else 0).

Definition qf_dense (h : store) (self : t) :
    comp t ('cV[R]_(Model.data_points (base self)) *
            'cV[R]_(Model.data_points (base self))) :=
  let kernel := Model.kernel (base self) in
  let X := Model.X (base self) in
  let n := Model.data_points (base self) in
  let Kff := K kernel X X in
  let! Lff := Model._cholesky self Kff true in
  let! q_mu := lift (shaped_value h (q_mu self) n 1) in
  let qf_mu := Lff *m q_mu in
  let qf_mu :=
    if Model.mean (base self) is Some mn then qf_mu - mean_col mn X
    else qf_mu in
  let! q_sqrt := lift (shaped_value h (q_sqrt self) n n) in
  let qf_sqrt := Lff *m tril q_sqrt in
  let qf_var_diag : 'cV[R]_n := \col_i (qf_sqrt *m qf_sqrt^T) i i in
  ret (qf_mu, qf_var_diag).

(** What follows the branches: the variational expectation less the
    divergence from the prior. *)
Definition elbo_of (h : store) (self : t)
    (qf : 'cV[R]_(Model.data_points (base self)) *
          'cV[R]_(Model.data_points (base self))) : comp t R :=
  let y := Exact.centered_y (base self) in
  let var_exp :=
    variational_expectation (Model.likelihood (base self)) h y qf.1 qf.2
      (Model.X (base self)) in
  let m := dim (p_value (deref h (q_mu self))) 0 in
  let! q_mu := lift (shaped_value h (q_mu self) m 1) in
  let! q_sqrt := lift (shaped_value h (q_sqrt self) m m) in
  let kl := kl_gaussian q_mu q_sqrt in
  ret (var_exp - kl).

(** [SparseHensman.elbo] *)
Definition elbo (h : store) (self : t) : comp t R :=
  let! qf := if is_sparse self then qf_sparse h self else qf_dense h self in
  elbo_of h qf.

(** [SparseHensman.log_marginal_likelihood]: maximize the lower bound. *)
Definition log_marginal_likelihood (h : store) (self : t) : comp t R := elbo h self.

(** [SparseHensman.predict] *)
Definition predict (h : store) (self : t) (Xs : tensor)
    (full as_tensor predict_y : bool) : comp t (tensor * tensor) :=
  let! Xs := lift (Model._check_input
                     (Some (Model.input_dims (base self))) Xs None) in
  let Xs : 'M[R]_(dim Xs.1 0, Model.input_dims (base self)) :=
    mx_of_tensor _ _ Xs.1 in
  let! r := _predict h self Xs full in
  let r :=
    if predict_y then l_predict (Model.likelihood (base self)) h r.1 r.2 full Xs
    else r in
  let mu :=
    if Model.mean (base self) is Some mn then r.1 + mean_col mn Xs else r.1 in
  ret (tensor_of_mx mu,
       match r.2 with
       | VarFull V => tensor_of_mx V
       | VarDiag v => tensor_of_mx v
       end).

End SparseHensman.

Module Hensman.

(** [class Hensman(SparseHensman)] *)
Definition t : Type := SparseHensman.t.

(** The default of the [name] argument of the constructor. *)
Definition default_name : string := "Hensman".

(** [Hensman.__init__]: [super().__init__(kernel, X, y, None, likelihood,
    jitter, mean, name)]. *)
Definition __init__ {model} (config : config_t) (kernel : Kernel) (X y : tensor)
    (likelihood : Likelihood) (jitter : R) (mean : option Mean)
    (name : option string) (h : store) : result model (t * store) :=
  SparseHensman.__init__ config kernel X y None likelihood jitter mean name h.

(** The methods [Hensman] inherits. *)
Definition elbo : store -> t -> comp t R := SparseHensman.elbo.
Definition predict :
    store -> t -> tensor -> bool -> bool -> bool -> comp t (tensor * tensor) :=
  SparseHensman.predict.

End Hensman.

(** * The notions the properties are stated with *)

(** ** Definite matrices *)

Definition symmetric n (A : 'M[R]_n) : Prop := A^T = A.
Definition qform n (A : 'M[R]_n) (x : 'cV[R]_n) : R := (x^T *m A *m x) 0 0.
Definition posdef n (A : 'M[R]_n) : Prop := forall x, x != 0 -> 0 < qform A x.
Definition possemidef n (A : 'M[R]_n) : Prop := forall x, 0 <= qform A x.

Definition lower_pos n (L : 'M[R]_n) : Prop :=
  is_trig_mx L /\ forall i, 0 < L i i.

Definition dot n (x y : 'cV[R]_n) : R := (x^T *m y) 0 0.

(** ** Outcomes, registries and the models of the examples *)

Definition is_Ok {model A} (r : result model A) : bool :=
  if r is Ok _ then true else false.

Definition is_ValueError {model A} (r : result model A) : bool :=
  if r is Raise (ValueError _) then true else false.

(** The rows and columns of an input after the promotion of ranks 0 and 1
    the specification describes; none for a rank above 2. *)
Definition promoted (s : seq nat) : option (nat * nat) :=
  match s with
  | [::] => Some (1%N, 1%N)
  | [:: n] => Some (n, 1%N)
  | [:: r; c] => Some (r, c)
  | _ => None
  end.

(** A small model for the examples: one data point at the origin, a constant
    kernel and a likelihood without Parameters of its own. *)
Definition unit_kernel (dict : seq (string * pyobj)) : Kernel :=
  mkKernel "kernel" dict 1 (fun _ _ _ => 1).

Definition plain_likelihood (scale : option ref) : Likelihood :=
  mkLikelihood "likelihood" [::] None scale
    (fun _ _ _ _ => None) (fun _ _ _ _ _ _ _ => 0)
    (fun _ _ _ mu var _ _ => (mu, var)).

Definition unit_model (dict : seq (string * pyobj)) (scale : option ref)
    (jitter : R) (params : seq ref) : Model.t :=
  @Model.mk 1 1 (unit_kernel dict) 0 0 (plain_likelihood scale) jitter None None
    params.

(** Two Parameters with a prior: a trainable one, of log-density 2, and one
    that is not trainable, of log-density 1. *)
Definition free_with_prior : Param :=
  mkParam (Some "scale"%string) (scalar_tensor 1) None None true false
    (Some (fun _ => 2)) 1.

Definition fixed_with_prior : Param :=
  mkParam (Some "weight"%string) (scalar_tensor 1) None None false false
    (Some (fun _ => 1)) 1.

Definition is_TorchCholesky (ev : event) : bool :=
  if ev is TorchCholesky _ _ then true else false.

(** The Parameters an object holds, in the order the walk meets them. *)
Fixpoint refs_of (obj : pyobj) : seq ref :=
  match obj with
  | PParameter r => [:: r]
  | PList items => flatten [seq refs_of v | v <- items]
  | PModule _ dict => flatten [seq refs_of v.2 | v <- dict]
  | PData _ => [::]
  end.

(** The Parameters of the kernel, the likelihood and the mean. *)
Definition owned_refs (kernel : Kernel) (likelihood : Likelihood)
    (mean : option Mean) : seq ref :=
  refs_of (PModule (k_name kernel) (k_dict kernel))
  ++ refs_of (PModule (l_name likelihood) (l_dict likelihood))
  ++ (if mean is Some m then refs_of (PModule (m_name m) (m_dict m)) else [::]).

(** The model under another name, and what a computation shows to its
    caller: the events and the value returned, if one is. *)
Definition with_name (nm : option string) (b : Model.t) : Model.t :=
  Model.mk (Model.kernel b) (Model.X b) (Model.y b) (Model.likelihood b)
    (Model.jitter b) (Model.mean b) nm (Model._params b).

Definition renamed (nm : option string) (s : SparseHensman.t) : SparseHensman.t :=
  SparseHensman.mk (with_name nm (SparseHensman.base s))
    (SparseHensman.is_sparse s) (SparseHensman.q_mu s) (SparseHensman.q_sqrt s)
    (SparseHensman.Z s).

Definition observed {model A} (c : comp model A) : seq event * option A :=
  (events c, if outcome c is Ok a then Some a else None).

(** A valid kernel: a symmetric function whose Gram matrices are positive
    semi-definite. *)
Definition kernel_valid (k : Kernel) : Prop :=
  (forall d (x y : 'rV[R]_d), k_fun k x y = k_fun k y x) /\
  (forall d n (P : 'M[R]_(n, d)), possemidef (K k P P)).

Definition plain_gaussian : gaussian_capability :=
  mkGaussian (fun _ _ _ _ => None) (fun _ _ _ _ _ _ _ _ => 0)
    (fun _ _ _ _ mu var _ _ => (mu, var)).

(** The value [Titsias.elbo] computes from the two Cholesky factors. *)
Definition titsias_value n m (s : R) (Kff_diag : 'rV[R]_n) (y : 'cV[R]_n)
    (v : 'M[R]_(m, n)) (L : 'M[R]_m) : R :=
  let c := s^-1 *: solve_triangular L (v *m y) in
  (- (2^-1 * n%:R * ln (2 * PI)) - \sum_i ln (L i i) - 2^-1 * n%:R * ln s
   - 2^-1 * (y^T *m y) 0 0 / s + 2^-1 * (c^T *m c) 0 0
   - 2^-1 * (\sum_i Kff_diag 0 i - \tr (v *m v^T)) / s)%R.

(** The model with another jitter. *)
Definition with_jitter (j : R) (b : Model.t) : Model.t :=
  Model.mk (Model.kernel b) (Model.X b) (Model.y b) (Model.likelihood b) j
    (Model.mean b) (Model.name b) (Model._params b).

(** One data point at the origin with observation 0, the constant kernel 1,
    noise variance 1 and an inducing point at the data point: the exact and
    the variational model with the same jitter [j]. *)
Definition constant_store : store :=
  [:: new_Param (scalar_tensor 1%R) (Some "scale"%string) None true;
      new_Param (tensor_of_mx (0 : 'M[R]_(1, 1))) (Some "induction_points"%string)
        None true].

Definition constant_exact (j : R) : Exact.t :=
  Exact.mk (unit_model [::] (Some 0%N) j [:: 0%N]) false.

Definition constant_titsias (j : R) : Titsias.t :=
  Titsias.mk (unit_model [::] (Some 0%N) j [:: 0%N; 1%N]) 1%N.

Definition is_NameError {model A} (r : result model A) : bool :=
  if r is Raise (NameError _) then true else false.

Definition constant_snelson (j : R) : Snelson.t :=
  Snelson.mk (unit_model [::] (Some 0%N) j [:: 0%N; 1%N]) 1%N.

(** ** Sequences of calls *)


(** * Linear algebra over the reals *)

Lemma RltP (x y : R) : reflect (Rlt x y) (x < y).
Proof. exact: RltbP. Qed.

Lemma RleP (x y : R) : reflect (Rle x y) (x <= y).
Proof. exact: RlebP. Qed.

Lemma sqrt_sq (a : R) : 0 <= a -> sqrt a * sqrt a = a.
Proof. by move=> /RleP a0; exact: sqrt_sqrt. Qed.

Lemma sqrt_pos (a : R) : 0 < a -> 0 < sqrt a.
Proof. by move=> /RltP a0; apply/RltP; exact: sqrt_lt_R0. Qed.

Lemma symmetric_schur n (A : 'M[R]_(1 + n)) (c : 'cV[R]_n) :
  symmetric A -> symmetric (drsubmx A - c *m c^T).
Proof.
by rewrite /symmetric => sA; rewrite linearB /= trmx_drsub sA trmx_mul trmxK.
Qed.

Lemma ulsubmx11 n (A : 'M[R]_(1 + n)) : ulsubmx A = (A 0 0)%:M.
Proof.
by rewrite [LHS]mx11_scalar !mxE /=; congr (A _ _)%:M; apply/val_inj.
Qed.

Lemma cholesky_sound n (A L : 'M[R]_n) :
  symmetric A -> cholesky A = Some L ->
  [/\ is_trig_mx L, forall i, 0 < L i i & L *m L^T = A].
Proof.
elim: n A L => [|n IH]; last rewrite -[n.+1]/(1 + n)%N; move=> A L symA /=.
  case=> <-; split; first by apply/is_trig_mxP => -[].
    by case.
  by rewrite [LHS]flatmx0 [RHS]flatmx0.
case: ifP => // a0.
set l := sqrt _; set c := _ *: _.
case E: (cholesky _) => [L'|] // [<-].
have [trigL' posL' eqL'] := IH _ _ (symmetric_schur c symA) E.
have l0 : 0 < l by exact: sqrt_pos.
split.
- by rewrite is_trig_block_mx // eqxx mx11_is_trig.
- move=> i; case: (split_ordP i) => j ->.
    by rewrite block_mxEul mxE ord1 eqxx mulr1n.
  by rewrite block_mxEdr.
rewrite tr_block_mx mulmx_block !trmx0 !tr_scalar_mx !mulmx0 !mul0mx !addr0.
rewrite eqL' addrC subrK -scalar_mxM sqrt_sq ?ltW // mul_scalar_mx mul_mx_scalar.
rewrite -[RHS]submxK ulsubmx11.
have lc : l *: c = dlsubmx A.
  by rewrite /c scalerA divff ?scale1r // gt_eqF.
rewrite -linearZ /= lc; congr block_mx.
by rewrite trmx_dlsub symA.
Qed.

Lemma mx11_00 (M : 'M[R]_1) (N : 'M[R]_1) : (M *m N) 0 0 = M 0 0 * N 0 0.
Proof. by rewrite mxE big_ord1. Qed.

Lemma tr00 (M : 'M[R]_1) : M^T 0 0 = M 0 0.
Proof. by rewrite mxE. Qed.

Lemma add00 m n (M N : 'M[R]_(m, n)) i j : (M + N) i j = M i j + N i j.
Proof. by rewrite mxE. Qed.

Lemma scale00 m n a (M : 'M[R]_(m, n)) i j : (a *: M) i j = a * M i j.
Proof. by rewrite mxE. Qed.

Lemma scalar00 (a : R) : (a%:M : 'M[R]_1) 0 0 = a.
Proof. by rewrite mxE eqxx mulr1n. Qed.

Lemma qform_block n (A : 'M[R]_(1 + n)) (t : R) (z : 'cV[R]_n) :
  symmetric A ->
  qform A (col_mx t%:M z) =
    A 0 0 * t ^+ 2 + 2 * t * ((dlsubmx A)^T *m z) 0 0 + qform (drsubmx A) z.
Proof.
move=> symA; rewrite /qform -{1}[A]submxK tr_col_mx mul_row_block mul_row_col.
rewrite tr_scalar_mx ulsubmx11 !mulmxDl !add00.
have -> : ursubmx A = (dlsubmx A)^T by rewrite trmx_dlsub symA.
rewrite -!scalar_mxM scalar00 mul_mx_scalar scale00 mul_scalar_mx -scalemxAl.
rewrite scale00.
have -> : (z^T *m dlsubmx A) 0 0 = ((dlsubmx A)^T *m z) 0 0.
  by rewrite -[LHS]tr00 trmx_mul trmxK.
ring.
Qed.

Lemma qformB n (A B : 'M[R]_n) z : qform (A - B) z = qform A z - qform B z.
Proof. by rewrite /qform mulmxBr mulmxBl !mxE. Qed.

Lemma qform_outer n (c z : 'cV[R]_n) : qform (c *m c^T) z = ((c^T *m z) 0 0) ^+ 2.
Proof.
rewrite /qform mulmxA -mulmxA mx11_00 expr2; congr (_ * _).
by rewrite -[LHS]tr00 trmx_mul trmxK.
Qed.

Lemma qform_schur n (A : 'M[R]_(1 + n)) (z : 'cV[R]_n) :
  symmetric A -> 0 < A 0 0 ->
  let c := (sqrt (A 0 0))^-1 *: dlsubmx A in
  let b := ((dlsubmx A)^T *m z) 0 0 in
  qform (drsubmx A - c *m c^T) z = qform A (col_mx (- b / A 0 0)%:M z).
Proof.
move=> symA a0 c b; rewrite qformB qform_outer qform_block // -/b.
have -> : (c^T *m z) 0 0 = b / sqrt (A 0 0).
  by rewrite /c linearZ /= -scalemxAl scale00 mulrC.
have a_neq0 : A 0 0 != 0 by rewrite gt_eqF.
have l_neq0 : sqrt (A 0 0) != 0 by rewrite gt_eqF // sqrt_pos.
rewrite expr_div_n [sqrt _ ^+ 2]expr2 sqrt_sq ?ltW //.
by field.
Qed.

Lemma col_mx_neq0 n (t : 'M[R]_1) (z : 'cV[R]_n) : z != 0 -> col_mx t z != 0.
Proof.
apply: contra_neq => /(congr1 dsubmx).
by rewrite col_mxKd => ->; apply/matrixP => i j; rewrite !mxE.
Qed.

Lemma posdef_pivot n (A : 'M[R]_(1 + n)) : symmetric A -> posdef A -> 0 < A 0 0.
Proof.
move=> symA /(_ (col_mx 1%:M 0)).
rewrite qform_block // /qform !mulmx0 mxE mulr0 !addr0 expr1n mulr1; apply.
apply/eqP => /(congr1 usubmx); rewrite col_mxKu => /matrixP /(_ 0 0).
by rewrite !mxE eqxx /=; apply/eqP; rewrite oner_eq0.
Qed.

Lemma cholesky_complete n (A : 'M[R]_n) :
  symmetric A -> posdef A -> exists L, cholesky A = Some L.
Proof.
elim: n A => [|n IH]; last rewrite -[n.+1]/(1 + n)%N; move=> A symA pdA /=.
  by exists A.
have a0 := posdef_pivot symA pdA; rewrite a0.
set c := _ *: _.
have [|L' ->] := IH (drsubmx A - c *m c^T) (symmetric_schur c symA).
  by move=> z z0; rewrite qform_schur //; apply/pdA/col_mx_neq0.
by eexists.
Qed.

(* ---- logarithms ---- *)
Lemma ln_mul (x y : R) : 0 < x -> 0 < y -> ln (x * y) = ln x + ln y.
Proof. by move=> /RltP hx /RltP hy; exact: ln_mult. Qed.

Lemma ln_le_sub1 (x : R) : 0 < x -> ln x <= x - 1.
Proof.
move=> /RltP hx; apply/RleP.
have h := exp_ineq1_le (Rminus x 1).
have e : Rplus 1 (Rminus x 1) = x by Lra.lra.
rewrite e in h; case: h => [h|h].
  by have := ln_increasing _ _ hx h; rewrite ln_exp; exact: Rlt_le.
by rewrite {1}h ln_exp; exact: Rle_refl.
Qed.

Lemma ln_prod (I : Type) (r : seq I) (P : pred I) (f : I -> R) :
  (forall i, P i -> 0 < f i) ->
  0 < \prod_(i <- r | P i) f i /\
  ln (\prod_(i <- r | P i) f i) = \sum_(i <- r | P i) ln (f i).
Proof.
move=> f0; elim/big_rec2: _ => [|i x y Pi [y0 <-]]; first by rewrite ln_1.
by rewrite mulr_gt0 ?f0 // ln_mul ?f0.
Qed.

Lemma ln_sqr (x : R) : 0 < x -> ln (x ^+ 2) = 2 * ln x.
Proof. by move=> x0; rewrite expr2 ln_mul // mulr2n mulrDl mul1r. Qed.

Lemma det_lower_pos n (L : 'M[R]_n) : lower_pos L -> 0 < \det L.
Proof. by case=> tL pL; rewrite det_trig //; case: (@ln_prod _ (index_enum _) xpredT (fun i => L i i)). Qed.

Lemma unit_lower_pos n (L : 'M[R]_n) : lower_pos L -> L \in unitmx.
Proof. by move=> /det_lower_pos dL; rewrite unitmxE unitfE gt_eqF. Qed.

Lemma logdet_lower_pos n (L : 'M[R]_n) :
  lower_pos L -> ln (\det (L *m L^T)) = 2 * \sum_i ln (L i i).
Proof.
move=> lpL; rewrite det_mulmx det_tr -expr2 ln_sqr ?det_lower_pos //.
case: lpL => tL pL; rewrite det_trig //.
by case: (@ln_prod _ (index_enum _) xpredT (fun i => L i i)) => // _ ->.
Qed.

Lemma cholesky_exists n (P : 'M[R]_n) :
  symmetric P -> posdef P -> exists2 H, lower_pos H & H *m H^T = P.
Proof.
move=> sP pP; have [H cH] := cholesky_complete sP pP.
by have [tH dH eH] := cholesky_sound sP cH; exists H.
Qed.

Lemma diag_gram n (H : 'M[R]_n) i : (H *m H^T) i i = \sum_j H i j ^+ 2.
Proof. by rewrite mxE; apply: eq_bigr => j _; rewrite mxE expr2. Qed.

Lemma logdet_le_trace n (P : 'M[R]_n) :
  symmetric P -> posdef P -> ln (\det P) <= \tr P - n%:R.
Proof.
move=> sP pP; have [H lpH <-] := cholesky_exists sP pP.
rewrite logdet_lower_pos // mulr_sumr /mxtrace.
have -> : n%:R = \sum_(i < n) (1 : R) by rewrite sumr_const card_ord.
rewrite -sumrB; apply: ler_sum => i _; case: lpH => _ /(_ i) hi.
rewrite -ln_sqr // diag_gram (bigD1 i) //=.
apply: (le_trans (ln_le_sub1 _)); first by rewrite exprn_gt0.
by rewrite lerB // lerDl sumr_ge0 // => j _; rewrite sqr_ge0.
Qed.

Lemma invmx_uniq n (X Y : 'M[R]_n) : X *m Y = 1%:M -> invmx X = Y.
Proof.
by move=> XY; have [uX _] := mulmx1_unit XY; rewrite -[RHS](mulKmx uX) XY mulmx1.
Qed.

Lemma invmx_gram n (F : 'M[R]_n) :
  F \in unitmx -> invmx (F *m F^T) = (invmx F)^T *m invmx F.
Proof.
move=> uF; apply: invmx_uniq.
by rewrite trmx_inv mulmxA -[F *m _ *m _]mulmxA mulmxV ?unitmx_tr // mulmx1 mulmxV.
Qed.

Lemma posdef_det_gt0 n (P : 'M[R]_n) : symmetric P -> posdef P -> 0 < \det P.
Proof.
move=> sP pP; have [H lpH <-] := cholesky_exists sP pP.
by rewrite det_mulmx det_tr mulr_gt0 // det_lower_pos.
Qed.

Lemma posdef_unit n (P : 'M[R]_n) : symmetric P -> posdef P -> P \in unitmx.
Proof. by move=> sP pP; rewrite unitmxE unitfE gt_eqF // posdef_det_gt0. Qed.

Lemma qformD n (A B : 'M[R]_n) z : qform (A + B) z = qform A z + qform B z.
Proof. by rewrite /qform mulmxDr mulmxDl !mxE. Qed.

Lemma qform_congr n (G A : 'M[R]_n) z :
  qform (G *m A *m G^T) z = qform A (G^T *m z).
Proof. by rewrite /qform trmx_mul trmxK !mulmxA. Qed.

Lemma mulmx_unit_neq0 n (G : 'M[R]_n) (z : 'cV[R]_n) :
  G \in unitmx -> z != 0 -> G *m z != 0.
Proof.
by move=> uG; apply: contra_neq => Gz; rewrite -[z](mulKmx uG) Gz mulmx0.
Qed.

Lemma posdefD n (A B : 'M[R]_n) : posdef A -> possemidef B -> posdef (A + B).
Proof. by move=> pA pB z z0; rewrite qformD ltr_wpDr ?pA. Qed.

Lemma logdet_update n (A B : 'M[R]_n) :
  symmetric A -> posdef A -> symmetric B -> possemidef B ->
  ln (\det (A + B)) <= ln (\det A) + \tr (invmx A *m B).
Proof.
move=> sA pA sB pB; have [F lpF eF] := cholesky_exists sA pA.
have uF := unit_lower_pos lpF.
pose G := invmx F; have uG : G \in unitmx by rewrite unitmx_inv.
pose P := G *m (A + B) *m G^T.
have sP : symmetric P.
  by rewrite /symmetric /P !trmx_mul trmxK linearD /= sA sB mulmxA.
have pP : posdef P.
  move=> z z0; rewrite qform_congr; apply: posdefD => //.
  by rewrite mulmx_unit_neq0 // unitmx_tr.
have dF := det_lower_pos lpF.
have dA : \det A = \det F ^+ 2 by rewrite -eF det_mulmx det_tr expr2.
have dP : \det (A + B) = \det P * \det A.
  rewrite /P !det_mulmx det_tr det_inv dA.
  by field; rewrite gt_eqF.
have tP : \tr P = n%:R + \tr (invmx A *m B).
  rewrite /P mulmxDr mulmxDl mxtraceD -{1}eF; congr (_ + _).
    by rewrite !mulmxA mulVmx // mul1mx -trmx_mul mulVmx // trmx1 mxtrace1.
  by rewrite mxtrace_mulC mulmxA -eF invmx_gram.
rewrite dP ln_mul ?posdef_det_gt0 // addrC lerD2l.
by apply: (le_trans (logdet_le_trace sP pP)); rewrite tP addrC addKr.
Qed.

Lemma det_sylvester m n (X : 'M[R]_(m, n)) (Y : 'M[R]_(n, m)) :
  \det (1%:M + X *m Y) = \det (1%:M + Y *m X).
Proof.
have e1 : block_mx 1%:M (- X) Y 1%:M =
    block_mx 1%:M 0 Y 1%:M *m block_mx 1%:M (- X) 0 (1%:M + Y *m X).
  rewrite mulmx_block !mul1mx ?mulmx1 ?mul0mx ?mulmx0 ?addr0 ?add0r.
  by rewrite mulmxN addrCA addNr addr0.
have e2 : block_mx 1%:M (- X) Y 1%:M =
    block_mx (1%:M + X *m Y) (- X) 0 1%:M *m block_mx 1%:M 0 Y 1%:M.
  rewrite mulmx_block ?mul1mx ?mulmx1 ?mul0mx ?mulmx0 ?addr0 ?add0r.
  by rewrite mulNmx addrK.
have := congr1 determinant e1; rewrite {1}e2 !det_mulmx !det_lblock !det_ublock.
by rewrite !det1 !mulr1 !mul1r.
Qed.

Lemma det_scale_gram m n (s : R) (v : 'M[R]_(m, n)) :
  s != 0 ->
  \det (s%:M + v^T *m v) = s ^+ n * \det (1%:M + s^-1 *: (v *m v^T)).
Proof.
move=> s0; rewrite scalemxAr det_sylvester -det_scalar -det_mulmx.
by rewrite mulmxDr mulmx1 mul_scalar_mx -scalemxAl scalerA divff // scale1r.
Qed.

Lemma dotC n (x y : 'cV[R]_n) : dot x y = dot y x.
Proof. by rewrite /dot -[LHS]tr00 trmx_mul trmxK. Qed.

Lemma dotDr n (x y z : 'cV[R]_n) : dot x (y + z) = dot x y + dot x z.
Proof. by rewrite /dot mulmxDr mxE. Qed.

Lemma dotBr n (x y z : 'cV[R]_n) : dot x (y - z) = dot x y - dot x z.
Proof. by rewrite /dot mulmxBr !mxE. Qed.

Lemma dotBl n (x y z : 'cV[R]_n) : dot (x - y) z = dot x z - dot y z.
Proof. by rewrite dotC dotBr dotC [dot z y]dotC. Qed.

Lemma dot_mull m n (A : 'M[R]_(m, n)) x y : dot (A *m x) y = dot x (A^T *m y).
Proof. by rewrite /dot trmx_mul mulmxA. Qed.

Lemma qformE n (A : 'M[R]_n) x : qform A x = dot x (A *m x).
Proof. by rewrite /qform /dot mulmxA. Qed.

Lemma dot_ge0 n (x : 'cV[R]_n) : 0 <= dot x x.
Proof.
rewrite /dot mxE sumr_ge0 // => i _; rewrite mxE -expr2; exact: sqr_ge0.
Qed.

Lemma qform_inv n (A : 'M[R]_n) y :
  A \in unitmx -> qform (invmx A) y = dot y (invmx A *m y).
Proof. by rewrite qformE. Qed.

Lemma qform_inv_le n (A B : 'M[R]_n) (y : 'cV[R]_n) :
  symmetric A -> posdef A -> symmetric B -> possemidef B ->
  qform (invmx (A + B)) y <= qform (invmx A) y.
Proof.
move=> sA pA sB pB.
have sAB : symmetric (A + B) by rewrite /symmetric linearD /= sA sB.
have uA := posdef_unit sA pA.
have uAB := posdef_unit sAB (posdefD pA pB).
rewrite !qformE; set x := invmx A *m y; set z := invmx (A + B) *m y.
have Ax : A *m x = y by rewrite mulKVmx.
have ABz : A *m z + B *m z = y by rewrite -mulmxDl mulKVmx.
have h0 : 0 <= qform A (x - z).
  have [/eqP ->|xz] := boolP (x - z == 0); last exact/ltW/pA.
  by rewrite /qform !mulmx0 mxE.
have h1 : 0 <= qform B z by exact: pB.
move: h0 h1; rewrite !qformE mulmxBr Ax dotBl !dotBr.
have -> : dot z y = dot y z by rewrite dotC.
have -> : dot x y = dot y x by rewrite dotC.
have -> : dot x (A *m z) = dot y z.
  by rewrite -[A]trmxK -dot_mull sA Ax.
have : dot y z = dot z (A *m z) + dot z (B *m z) by rewrite dotC -dotDr ABz.
move: (dot y z) (dot y x) (dot z _) (dot z _) => a b c d e h0 h1.
lra.
Qed.

Section Woodbury.
Variables (m n : nat) (s : R) (v : 'M[R]_(m, n)).
Hypothesis s0 : s != 0.
Let W : 'M[R]_m := 1%:M + s^-1 *: (v *m v^T).
Hypothesis uW : W \in unitmx.
Let X : 'M[R]_n := v^T *m invmx W *m v.

Lemma woodbury_key : v^T *m v *m X = s *: (v^T *m v - X).
Proof.
have vv : v *m v^T = s *: (W - 1%:M).
  by rewrite /W addrC addKr scalerA divff // scale1r.
rewrite /X !mulmxA -[v^T *m v *m v^T]mulmxA vv -scalemxAr -!scalemxAl.
congr (_ *: _); rewrite mulmxBr mulmx1 !mulmxBl; congr (_ - _).
by rewrite mulmxK.
Qed.

Lemma woodbury : invmx (s%:M + v^T *m v) = s^-1%:M - s^-2 *: X.
Proof.
apply: invmx_uniq; rewrite mulmxDl !mulmxBr -scalar_mxM divff // mul_scalar_mx.
rewrite mul_mx_scalar -!scalemxAr woodbury_key !scalerA.
have -> : s * s ^- 2 = s^-1 by rewrite expr2 invfM mulrA divff // mul1r.
have -> : s ^- 2 * s = s^-1 by rewrite expr2 invfM -mulrA mulVf // mulr1.
by rewrite scalerBr subKr subrK.
Qed.

End Woodbury.

Lemma diag_congr m n (b : 'M[R]_(m, n)) (B : 'M[R]_n) k :
  (b *m B *m b^T) k k = qform B (row k b)^T.
Proof.
rewrite /qform trmxK -!mulmxA mxE [RHS]mxE.
apply: eq_bigr => j _; rewrite [row k b 0 j]mxE; congr (_ * _).
by rewrite !mxE; apply: eq_bigr => l _; rewrite !mxE.
Qed.

Lemma tr_congr_ge0 m n (b : 'M[R]_(m, n)) (B : 'M[R]_n) :
  possemidef B -> 0 <= \tr (b *m B *m b^T).
Proof. by move=> pB; rewrite /mxtrace sumr_ge0 // => k _; rewrite diag_congr. Qed.

Lemma dot_gt0 n (x : 'cV[R]_n) : x != 0 -> 0 < dot x x.
Proof.
move=> x0; rewrite lt_neqAle dot_ge0 andbT eq_sym.
apply: contra_neq x0; rewrite /dot mxE => /eqP.
rewrite psumr_eq0 => [|/allP h]; first by move=> i _; rewrite mxE -expr2 sqr_ge0.
apply/matrixP => i j; rewrite ord1 [RHS]mxE.
have := h i; rewrite mem_index_enum mxE -expr2 sqrf_eq0 => /(_ isT) /=.
by move=> /eqP.
Qed.

Lemma ln_pow_nat (x : R) k : 0 < x -> ln (x ^+ k) = k%:R * ln x.
Proof.
move=> x0; elim: k => [|k IH]; first by rewrite expr0 ln_1 mul0r.
by rewrite exprS ln_mul ?exprn_gt0 // IH -natr1 mulrDl mul1r addrC.
Qed.

Lemma qformZ n a (B : 'M[R]_n) y : qform (a *: B) y = a * qform B y.
Proof. by rewrite /qform -scalemxAr -scalemxAl mxE. Qed.

Lemma qform_scalar n a (y : 'cV[R]_n) : qform a%:M y = a * dot y y.
Proof. by rewrite /qform mul_mx_scalar -scalemxAl mxE. Qed.

Lemma dotZl n a (x y : 'cV[R]_n) : dot (a *: x) y = a * dot x y.
Proof. by rewrite /dot linearZ /= -scalemxAl mxE. Qed.

Lemma dotZr n a (x y : 'cV[R]_n) : dot x (a *: y) = a * dot x y.
Proof. by rewrite dotC dotZl dotC. Qed.

Section VariationalBound.
Variables (m n : nat) (s : R) (K : 'M[R]_n) (v : 'M[R]_(m, n)).
Variables (L : 'M[R]_m) (y : 'cV[R]_n).
Hypothesis s_gt0 : 0 < s.
Hypothesis symK : symmetric K.
Hypothesis psdR : possemidef (K - v^T *m v).
Hypothesis lpL : lower_pos L.
Hypothesis eL : L *m L^T = s^-1 *: (v *m v^T) + 1%:M.

Let A : 'M[R]_n := s%:M + v^T *m v.
Let c : 'cV[R]_m := s^-1 *: (invmx L *m (v *m y)).

Let s_neq0 : s != 0. Proof. by rewrite gt_eqF. Qed.

Let uW : 1%:M + s^-1 *: (v *m v^T) \in unitmx.
Proof.
by rewrite addrC -eL unitmx_mul unitmx_tr unit_lower_pos.
Qed.

Lemma low_rank_sym : symmetric A.
Proof. by rewrite /symmetric /A linearD /= tr_scalar_mx trmx_mul trmxK. Qed.

Lemma low_rank_posdef : posdef A.
Proof.
move=> x x0; rewrite qformD ltr_pwDl //.
  by rewrite /qform mul_mx_scalar -scalemxAl scale00 mulr_gt0 // -/(dot x x) dot_gt0.
by rewrite qformE -mulmxA -dot_mull dot_ge0.
Qed.

Lemma low_rank_logdet : ln (\det A) = n%:R * ln s + 2 * \sum_i ln (L i i).
Proof.
rewrite /A det_scale_gram // addrC -eL ln_mul ?exprn_gt0 //.
  by rewrite det_mulmx det_tr mulr_gt0 // det_lower_pos.
by rewrite ln_pow_nat // logdet_lower_pos.
Qed.

Lemma low_rank_quad : qform (invmx A) y = dot y y / s - dot c c.
Proof.
rewrite /A woodbury // qformB qform_scalar qformZ [s^-1 * _]mulrC.
congr (_ - _); rewrite /c dotZl dotZr mulrA -invfM -expr2; congr (_ * _).
rewrite dot_mull mulmxA -invmx_gram ?unit_lower_pos // eL addrC.
by rewrite qformE -!mulmxA [RHS]dot_mull.
Qed.

Lemma low_rank_trace :
  \tr (invmx A *m (K - v^T *m v)) <= (\tr K - \tr (v *m v^T)) / s.
Proof.
set B := K - _.
have -> : \tr K - \tr (v *m v^T) = \tr B.
  by rewrite /B linearB /= [\tr (v^T *m v)]mxtrace_mulC.
rewrite /A woodbury // mulmxBl mul_scalar_mx linearB /= mxtraceZ.
rewrite [_ / s]mulrC lerBlDr lerDl -scalemxAl mxtraceZ.
rewrite mulr_ge0 ?invr_ge0 ?sqr_ge0 //.
pose b := invmx L *m v.
suff -> : \tr (v^T *m invmx (1%:M + s^-1 *: (v *m v^T)) *m v *m B)
        = \tr (b *m B *m b^T) by exact: tr_congr_ge0.
rewrite [RHS]mxtrace_mulC /b trmx_mul !mulmxA addrC -eL.
by rewrite invmx_gram ?unit_lower_pos // !mulmxA.
Qed.

Theorem variational_bound :
  - \sum_i ln (L i i) - 2^-1 * n%:R * ln s - 2^-1 * dot y y / s
    + 2^-1 * dot c c - 2^-1 * (\tr K - \tr (v *m v^T)) / s
  <= - (2^-1 * ln (\det (K + s%:M))) - 2^-1 * qform (invmx (K + s%:M)) y.
Proof.
have sR : symmetric (K - v^T *m v).
  by rewrite /symmetric linearB /= symK trmx_mul trmxK.
have -> : K + s%:M = A + (K - v^T *m v).
  by rewrite /A [RHS]addrC addrA addrAC subrK.
have h1 := logdet_update low_rank_sym low_rank_posdef sR psdR.
have h2 := qform_inv_le y low_rank_sym low_rank_posdef sR psdR.
have h3 := low_rank_trace.
move: h1 h2 h3; rewrite low_rank_logdet low_rank_quad.
rewrite -!mulrA.
move: (ln (\det _)) (qform _ _) (\tr (invmx _ *m _)) (\sum_i _) (n%:R * ln s)
  (dot y y / s) (dot c c) ((\tr K - _) / s) => a b t0 sl ls yy cc tr h1 h2 h3.
lra.
Qed.

End VariationalBound.

(** ** Definiteness of the matrices the models factorize *)

Lemma symmetricD n (A B : 'M[R]_n) : symmetric A -> symmetric B -> symmetric (A + B).
Proof. by rewrite /symmetric linearD /= => -> ->. Qed.

Lemma symmetric_scalar n (a : R) : symmetric (a%:M : 'M[R]_n).
Proof. by rewrite /symmetric tr_scalar_mx. Qed.

Lemma symmetric_diag n (d : 'rV[R]_n) : symmetric (diag_mx d).
Proof. by rewrite /symmetric tr_diag_mx. Qed.

Lemma symmetric_gram m n (v : 'M[R]_(m, n)) : symmetric (v *m v^T).
Proof. by rewrite /symmetric trmx_mul trmxK. Qed.

Lemma symmetric_congr m n (v : 'M[R]_(m, n)) (G : 'M[R]_n) :
  symmetric G -> symmetric (v *m G *m v^T).
Proof. by rewrite /symmetric !trmx_mul trmxK mulmxA => ->. Qed.

Lemma posdef_scalar n (a : R) : 0 < a -> posdef (a%:M : 'M[R]_n).
Proof. by move=> a0 x x0; rewrite qform_scalar mulr_gt0 // dot_gt0. Qed.

Lemma possemidef_scalar n (a : R) : 0 <= a -> possemidef (a%:M : 'M[R]_n).
Proof. by move=> a0 x; rewrite qform_scalar mulr_ge0 // dot_ge0. Qed.

Lemma possemidefD n (A B : 'M[R]_n) :
  possemidef A -> possemidef B -> possemidef (A + B).
Proof. by move=> pA pB x; rewrite qformD addr_ge0. Qed.

Lemma posdefDl n (A B : 'M[R]_n) : possemidef A -> posdef B -> posdef (A + B).
Proof. by move=> pA pB; rewrite addrC; exact: posdefD. Qed.

Lemma posdef_semidef n (A : 'M[R]_n) : posdef A -> possemidef A.
Proof.
move=> pA x; have [->|x0] := eqVneq x 0; last exact/ltW/pA.
by rewrite /qform mulmx0 mxE.
Qed.

Lemma qform_congr_rect m n (v : 'M[R]_(m, n)) (G : 'M[R]_n) x :
  qform (v *m G *m v^T) x = qform G (v^T *m x).
Proof. by rewrite /qform trmx_mul trmxK !mulmxA. Qed.

Lemma possemidef_congr m n (v : 'M[R]_(m, n)) (G : 'M[R]_n) :
  possemidef G -> possemidef (v *m G *m v^T).
Proof. by move=> pG x; rewrite qform_congr_rect. Qed.

Lemma possemidef_gram m n (v : 'M[R]_(m, n)) : possemidef (v *m v^T).
Proof.
by have := possemidef_congr v (@possemidef_scalar n 1 ler01); rewrite mulmx1.
Qed.

Lemma qform_diag n (d : 'rV[R]_n) (x : 'cV[R]_n) :
  qform (diag_mx d) x = \sum_i d 0 i * x i 0 ^+ 2.
Proof.
rewrite /qform mxE; apply: eq_bigr => i _.
rewrite mul_mx_diag !mxE expr2 mulrA; congr (_ * _).
by rewrite mulrC.
Qed.

Lemma possemidef_diag n (d : 'rV[R]_n) :
  (forall i, 0 <= d 0 i) -> possemidef (diag_mx d).
Proof.
by move=> d0 x; rewrite qform_diag sumr_ge0 // => i _; rewrite mulr_ge0 ?sqr_ge0.
Qed.

Lemma posdef_diag n (d : 'rV[R]_n) : (forall i, 0 < d 0 i) -> posdef (diag_mx d).
Proof.
move=> d0 x x0; rewrite qform_diag lt_neqAle eq_sym.
have ge0 i : 0 <= d 0 i * x i 0 ^+ 2 by rewrite mulr_ge0 ?sqr_ge0 // ltW.
rewrite sumr_ge0 // andbT; apply: contra_neq x0.
move=> /eqP; rewrite psumr_eq0 // => /allP h0.
apply/matrixP => i j; rewrite ord1 mxE.
have /eqP := h0 i (mem_index_enum _).
by move=> /eqP; rewrite /= mulf_eq0 gt_eqF //= sqrf_eq0 => /eqP.
Qed.

Lemma qform_delta n (A : 'M[R]_n) i : qform A (delta_mx i 0) = A i i.
Proof. by rewrite /qform trmx_delta -rowE -colE !mxE. Qed.

Lemma possemidef_diag_ge0 n (A : 'M[R]_n) i : possemidef A -> 0 <= A i i.
Proof. by move=> /(_ (delta_mx i 0)); rewrite qform_delta. Qed.

(** The Schur complement of a positive semi-definite block matrix. *)
Lemma schur_possemidef m n (A : 'M[R]_m) (B : 'M[R]_(m, n)) (C : 'M[R]_n) :
  A \in unitmx -> possemidef (block_mx A B B^T C) ->
  possemidef (C - B^T *m invmx A *m B).
Proof.
move=> uA pM x; pose a := invmx A *m B *m x.
have Aa : A *m a = B *m x by rewrite /a !mulmxA mulmxV // mul1mx.
suff -> : qform (C - B^T *m invmx A *m B) x
          = qform (block_mx A B B^T C) (col_mx (- a) x) by exact: pM.
rewrite /qform tr_col_mx mul_row_block mul_row_col; congr (_ 0 0).
have -> : (- a)^T = - a^T by rewrite linearN.
rewrite !mulmxDl !mulNmx !mulmxN opprK.
rewrite -[a^T *m A *m a]mulmxA Aa mulmxA addrACA subrr add0r.
by rewrite [in LHS]addrC mulmxDr mulmxDl mulmxN mulNmx /a !mulmxA.
Qed.

(** * The properties of the specification *)

(** ** Input validation *)

Lemma numel1 n xs : numel (Tensor [:: n] xs) = n.
Proof. by rewrite /numel /= big_cons big_nil muln1. Qed.

Ltac shape_cases t :=
  let a := fresh "a" in let b := fresh "b" in let c := fresh "c" in
  let s := fresh "s" in let xs := fresh "xs" in
  case: t => [[|a [|b [|c s]]] xs].

Lemma check_X_eq model X :
  @Model.check_X model X =
  if promoted (shape X) is Some (r, c) then
    if (r == 0%N) || (c == 0%N) then Raise (ValueError "X must not be empty")
    else Ok (Tensor [:: r; c] (data X))
  else
    Raise (ValueError
      "X must have dimensions (data_points,input_dims) with input_dims optional").
Proof.
rewrite /Model.check_X /Model.rank2_X /reshape_col /reshape /dim.
by shape_cases X; rewrite /= ?numel1.
Qed.

Lemma check_y_eq model y :
  @Model.check_y model y =
  if promoted (shape y) is Some (r, c) then
    if c != 1%N then Raise (ValueError "y must have one dimension (data_points,)")
    else Ok (Tensor [:: r; c] (data y))
  else Raise (ValueError "y must have one dimension (data_points,)").
Proof.
rewrite /Model.check_y /reshape_col /reshape /dim.
by shape_cases y; rewrite /= ?numel1 //; case: ifP.
Qed.

(** [_check_input] in terms of the promoted shapes. *)
Lemma check_input_eq model d X y :
  @Model._check_input model d X y =
  if promoted (shape X) is Some (r, c) then
    if (r == 0%N) || (c == 0%N) then Raise (ValueError "X must not be empty")
    else
      let X' := Tensor [:: r; c] (data X) in
      match y with
      | Some y =>
          if promoted (shape y) is Some (r', c') then
            if c' != 1%N then
              Raise (ValueError "y must have one dimension (data_points,)")
            else if r != r' then
              Raise (ValueError "number of data points for X and y must match")
            else Ok (X', Some (Tensor [:: r'; c'] (data y)))
          else Raise (ValueError "y must have one dimension (data_points,)")
      | None =>
          match d with
          | None => Raise (AttributeError "input_dims")
          | Some d =>
              if c != d then
                Raise (ValueError
                  (String.append "X must have "
                    (String.append (str d) " input dimensions")))
              else Ok (X', None)
          end
      end
  else
    Raise (ValueError
      "X must have dimensions (data_points,input_dims) with input_dims optional").
Proof.
rewrite /Model._check_input check_X_eq.
case: (promoted (shape X)) => [[r c]|] //; case: ifP => // _.
case: y => [y0|] //; rewrite check_y_eq.
by case: (promoted (shape y0)) => [[r' c']|] //; case: ifP.
Qed.

(** C5. [_check_input] reshapes a rank-1 [X] of [n] entries to shape [(n,1)]
    and keeps its entries; it fails with a [ValueError] on an [X] of rank
    above 2 and on an [X] with no rows or no columns; with [y] it succeeds
    exactly when moreover [y] has one column after promotion and as many
    rows as [X]; without [y] it succeeds exactly when moreover [X] has
    [input_dims] columns; and whenever it fails it is with a [ValueError]. *)
Theorem check_input_contract (model : Type) (input_dims : nat)
    (X : tensor) (y : option tensor) :
  let r := @Model._check_input model (Some input_dims) X y in
  [/\ forall n X' y', shape X = [:: n] -> r = Ok (X', y') ->
        shape X' = [:: n; 1%N] /\ data X' = data X,
      (2 < ndim X)%N ||
        (if promoted (shape X) is Some (r, c) then (r == 0%N) || (c == 0%N)
         else false) -> is_ValueError r,
      forall y0, y = Some y0 ->
        is_Ok r =
          (if (promoted (shape X), promoted (shape y0)) is (Some (r, c), Some (r', c'))
           then [&& (0 < r)%N, (0 < c)%N, c' == 1%N & r == r'] else false),
      y = None ->
        is_Ok r =
          (if promoted (shape X) is Some (r, c)
           then [&& (0 < r)%N, (0 < c)%N & c == input_dims] else false)
    & ~~ is_Ok r -> is_ValueError r].
Proof.
rewrite /= check_input_eq; split.
- move=> n X' y' sX; rewrite sX /=; case: ifP => // _.
  case: y => [y0|]; last by case: ifP => // _ [<- _].
  case: (promoted (shape y0)) => [[r' c']|] //.
  by case: ifP => // _; case: ifP => // _ [<- _].
- case E: (promoted (shape X)) => [[r c]|] /=; last by rewrite orbF.
  suff -> : (2 < ndim X)%N = false by move=> /= ->.
  by move: E; rewrite /ndim; case: (shape X) => [|a [|b [|c' s]]].
- move=> y0 ->; case: (promoted (shape X)) => [[r c]|] //.
  rewrite !lt0n; case: (r =P 0%N) => [_|_] /=.
    by case: (promoted _) => [[r' c']|].
  case: (c =P 0%N) => [_|_] /=; first by case: (promoted _) => [[r' c']|].
  case: (promoted _) => [[r' c']|] //.
  by case: eqP => //= _; case: eqP.
- move=> ->; case: (promoted (shape X)) => [[r c]|] //.
  rewrite !lt0n; case: (r =P 0%N) => [_|_] //=; case: (c =P 0%N) => [_|_] //=.
  by case: eqP.
- case: (promoted (shape X)) => [[r c]|] //; case: ifP => // _.
  case: y => [y0|] /=; last by case: ifP.
  by case: (promoted _) => [[r' c']|] //; case: ifP => // _; case: ifP.
Qed.

(** ** Attribute protection *)




(** ** The log-prior *)


(** The model the constructor builds from a kernel that owns the two
    Parameters above: both are registered, only the first is trainable, and
    the log-prior is the log-density of the first. *)
Example log_prior_of_two_parameters :
  exists (self : Model.t) (h : store),
  [/\ @Model.__init__ unit (mkConfig Float64 (10 ^- 8))
        (unit_kernel [:: ("scale"%string, PParameter 0);
                         ("weight"%string, PParameter 1)])
        (Tensor [:: 1%N; 1%N] [:: 0]) (Tensor [:: 1%N; 1%N] [:: 0])
        (plain_likelihood None) (10 ^- 8) None None
        [:: free_with_prior; fixed_with_prior]
      = Ok (self, h),
      Model.get_parameters self = [:: 0%N; 1%N],
      Model.parameters h self = [:: 0%N]
    & Model.log_prior h self = 2].
Proof.
do 2!eexists; split; first by rewrite /Model.__init__ check_input_eq /=.
- by [].
- by [].
- rewrite /Model.log_prior /= !big_cons big_nil.
  by rewrite /Param_log_prior /log_prior_density /= !addr0.
Qed.


(** ** The stabilized factorization *)

Lemma cholesky_call S (inst : Model.Subclass S) (self : S) n (A : 'M[R]_n) b :
  let A' :=
    if b then A + (Model.jitter (Model.super self) * Model.diagonal_mean A)%:M
    else A in
  Model._cholesky self A b =
  if cholesky A' is Some L then ([:: TorchCholesky A'], Ok L)
  else ([:: TorchCholesky A';
            PrintError (String.append "ERROR: " Model.cholesky_message);
            PrintParameters; PlotGram A'],
        Raise (CholeskyException Model.cholesky_message A' self)).
Proof. by rewrite /Model._cholesky /bind /=; case: (cholesky _). Qed.

(** C4. [_cholesky(K, add_jitter=True)] factorizes the matrix that is [K] with
    [jitter * mean(diag(K))] added to each diagonal entry and nothing added
    elsewhere; it asks torch for exactly one factorization, of that matrix,
    whether it succeeds or not; when it succeeds the factor is returned, and
    when it fails the call raises a [CholeskyException] that carries that
    matrix and the model. *)
Theorem cholesky_adds_jitter_once S (inst : Model.Subclass S) (self : S)
    n (A : 'M[R]_n) :
  let eps := Model.jitter (Model.super self) * Model.diagonal_mean A in
  let A' : 'M[R]_n := \matrix_(i, j) (A i j + if i == j then eps else 0) in
  let c := Model._cholesky self A true in
  [/\ [seq ev <- events c | is_TorchCholesky ev] = [:: TorchCholesky A'],
      forall L, cholesky A' = Some L -> outcome c = Ok L
    & cholesky A' = None ->
      outcome c = Raise (CholeskyException Model.cholesky_message A' self)].
Proof.
move=> eps A' c.
have eA : A + eps%:M = A'.
  by apply/matrixP => i j; rewrite !mxE; case: eqP => _; rewrite ?mulr1n ?mulr0n.
rewrite /c cholesky_call /= -/eps eA.
by case: (cholesky A') => [L|]; split=> // L' [<-].
Qed.

(** ** The registry *)

Lemma size_update h r f : size (update h r f) = size h.
Proof.
rewrite /update; case: ifP => // rh; rewrite size_set_nth.
by apply/maxn_idPr.
Qed.

(** The walk appends the Parameters of the object to the registry and
    allocates nothing. *)
Lemma register_parameters_refs obj name st :
  (_register_parameters obj name st).2 = st.2 ++ refs_of obj
  /\ size (_register_parameters obj name st).1 = size st.1.
Proof.
move: obj name st; fix IH 1; case=> [r|items|oname dict|v] name st /=.
- by rewrite cats1 size_update.
- move: 0%N; elim: items st => [|v vs IHvs] st i /=; first by rewrite cats0.
  have [e1 e2] := IH v (Some (index_name name i)) st.
  have [-> ->] := IHvs (_register_parameters v (Some (index_name name i)) st) i.+1.
  by rewrite e1 e2 catA.
- elim: dict st => [|v vs IHvs] st /=; first by rewrite cats0.
  have [e1 e2] := IH v.2 (Some (member_name name oname)) st.
  have [-> ->] := IHvs (_register_parameters v.2 (Some (member_name name oname)) st).
  by rewrite e1 e2 catA.
- by rewrite cats0.
Qed.

Lemma Model_init_registry model config kernel X y likelihood jitter mean name h
    (self : Model.t) h' :
  @Model.__init__ model config kernel X y likelihood jitter mean name h
    = Ok (self, h') ->
  [/\ Model._params self = owned_refs kernel likelihood mean,
      size h' = size h,
      Model.kernel self = kernel,
      Model.likelihood self = likelihood
    & Model.mean self = mean].
Proof.
rewrite /Model.__init__; case: Model._check_input => [[X' y']|] //.
case: ifP => // _; case: validate_y => //.
have := register_parameters_refs (PModule (k_name kernel) (k_dict kernel)) None (h, [::]).
move: (_register_parameters (PModule (k_name kernel) _) _ _) => st1 [k1 k2].
have := register_parameters_refs (PModule (l_name likelihood) (l_dict likelihood)) None st1.
move: (_register_parameters (PModule (l_name likelihood) _) _ _) => st2 [l1 l2].
rewrite /owned_refs; case: mean => [m|]; last first.
  by case=> <- <-; split=> //=; rewrite ?l1 ?k1 ?cats0 // l2 k2.
have := register_parameters_refs (PModule (m_name m) (m_dict m)) None st2.
move: (_register_parameters (PModule (m_name m) _) _ _) => st3 [m1 m2].
by case=> <- <-; split=> //=; rewrite ?m1 ?l1 ?k1 ?catA // m2 l2 k2.
Qed.

Lemma deref_rcons h p : deref (rcons h p) (size h) = p.
Proof. by rewrite /deref nth_rcons ltnn eqxx. Qed.

Lemma deref_rcons_lt h p r : (r < size h)%N -> deref (rcons h p) r = deref h r.
Proof. by move=> rh; rewrite /deref nth_rcons rh. Qed.

Lemma deref_update h r f r' :
  deref (update h r f) r' =
  if (r' == r) && (r < size h)%N then f (deref h r) else deref h r'.
Proof.
rewrite /update; case: ifP => rh; last by rewrite andbF.
by rewrite andbT /deref nth_set_nth /=; case: eqP.
Qed.

(** An update that keeps the value of a Parameter keeps every value. *)
Lemma p_value_update h r f k :
  (forall p, p_value (f p) = p_value p) ->
  p_value (deref (update h r f) k) = p_value (deref h k).
Proof. by move=> hf; rewrite deref_update; case: ifP => // /andP [/eqP -> _]. Qed.

(** What [SparseHensman.__init__] builds on top of the base model: [q_mu],
    [q_sqrt] and [Z] are allocated next to each other, and registered are
    the first two and, if sparse, the third. *)
Lemma SparseHensman_init_spec model config kernel X y Z likelihood jitter mean
    name h (self : SparseHensman.t) h' :
  @SparseHensman.__init__ model config kernel X y Z likelihood jitter mean name h
    = Ok (self, h') ->
  exists m0 h0,
    let q := size h0 in
    [/\ @Model.__init__ model config kernel X y likelihood jitter mean name h
          = Ok (m0, h0),
        SparseHensman.base self =
          Model.mk (Model.kernel m0) (Model.X m0) (Model.y m0)
            (Model.likelihood m0) (Model.jitter m0) (Model.mean m0) (Model.name m0)
            (Model._params m0 ++ q :: q.+1 :: (if Z is Some _ then [:: q.+2] else [::])),
        [/\ SparseHensman.q_mu self = q, SparseHensman.q_sqrt self = q.+1,
            SparseHensman.Z self = q.+2 & SparseHensman.is_sparse self = isSome Z],
        size h' = q.+3
      & Z = None ->
        [/\ deref h' q.+2 = new_Param (tensor_of_mx (Model.X m0)) None None false,
            p_value (deref h' q)
              = tensor_of_mx (0 : 'M[R]_(Model.data_points m0, 1))
          & p_value (deref h' q.+1)
              = tensor_of_mx (1%:M : 'M[R]_(Model.data_points m0))]].
Proof.
rewrite /SparseHensman.__init__.
case E: Model.__init__ => [[m0 h0]|] //.
case: Z => [z|]; rewrite /alloc /_register_parameters; cbv beta iota zeta.
  case: init_inducing_points => // Zt; case: Model._check_input => [[Zc _]|] //.
  cbv beta iota zeta; cbn [fst snd]; rewrite !size_update !size_rcons.
  case=> <- <-; exists m0, h0; split; cbv beta iota zeta; cbn [fst snd].
  - by [].
  - by rewrite -!cats1 -!catA.
  - by [].
  - by rewrite !size_update; case: (_ < _)%N; rewrite !(size_update, size_rcons).
  - by [].
cbn [fst snd]; rewrite !size_update !size_rcons.
move=> [<- <-]; exists m0, h0; split; cbv beta iota zeta; cbn [fst snd].
- by [].
- by rewrite -!cats1 -!catA.
- by [].
- by rewrite !(size_update, size_rcons).
- move=> _.
  have e21 : ((size h0).+2 == (size h0).+1) = false by rewrite gtn_eqF.
  have e20 : ((size h0).+2 == size h0) = false by rewrite gtn_eqF // ltnW.
  set h1 := rcons (rcons h0 _) _; set h2 := update h1 _ _.
  have sh2 : size h2 = (size h0).+2 by rewrite size_update !size_rcons.
  split.
  + by rewrite !deref_update e21 e20 !andFb -sh2 deref_rcons.
  + rewrite !p_value_update // deref_rcons_lt ?sh2 // /h2 p_value_update //.
    by rewrite /h1 deref_rcons_lt ?size_rcons // deref_rcons.
  + rewrite !p_value_update // deref_rcons_lt ?sh2 // /h2 p_value_update //.
    rewrite /h1; set h00 := rcons h0 _.
    by rewrite (_ : (size h0).+1 = size h00) ?deref_rcons // size_rcons.
Qed.

(** C10. Of a [SparseHensman] model, and so of every [Hensman] model, [q_mu]
    and [q_sqrt] are registered in every case, and [Z] is registered exactly
    when inducing points were given.  Without them [Z] is a Parameter that
    holds [X], is not trainable and was never named, and it is absent from
    [parameters()] and [get_parameters()]; the table of [print_parameters()]
    has one row per Parameter of the kernel, likelihood and mean and two
    more.  The Parameters of the kernel, likelihood and mean are taken to be
    allocated, as every Python object is. *)
Theorem sparse_hensman_registry (model : Type) config kernel X y Z likelihood
    jitter mean name (h : store) (self : SparseHensman.t) (h' : store) :
  all (fun r => (r < size h)%N) (owned_refs kernel likelihood mean) ->
  @SparseHensman.__init__ model config kernel X y Z likelihood jitter mean name h
    = Ok (self, h') ->
  let base := SparseHensman.base self in
  [/\ SparseHensman.is_sparse self = isSome Z,
      (SparseHensman.Z self \in Model.get_parameters base)
        = SparseHensman.is_sparse self,
      (SparseHensman.q_mu self \in Model.get_parameters base)
        /\ (SparseHensman.q_sqrt self \in Model.get_parameters base),
      Z = None ->
        [/\ p_value (deref h' (SparseHensman.Z self)) = tensor_of_mx (Model.X base),
            p_trainable (deref h' (SparseHensman.Z self)) = false
          & p_name (deref h' (SparseHensman.Z self)) = None]
    & Z = None ->
        [/\ SparseHensman.Z self \notin Model.parameters h' base,
            SparseHensman.Z self \notin Model.get_parameters base
          & size (Model.print_parameters h' base)
            = (size (owned_refs kernel likelihood mean) + 2)%N]].
Proof.
move=> wf /SparseHensman_init_spec [m0 [h0 [E eb [e1 e2 e3 e4] sh' dZ']]].
have dZ : Z = None -> deref h' (size h0).+2
    = new_Param (tensor_of_mx (Model.X m0)) None None false.
  by move=> Z0; case: (dZ' Z0).
move=> /=.
have [ep sh0 _ _ _] := Model_init_registry E.
have notin k : ((size h0) + k)%N \notin Model._params m0.
  rewrite ep; apply/negP => /(allP wf); rewrite sh0.
  by rewrite ltnNge leq_addr.
have Zin : (SparseHensman.Z self \in Model.get_parameters (SparseHensman.base self))
           = isSome Z.
  rewrite /Model.get_parameters eb /= e3 mem_cat -addn2 (negbTE (notin _)) /=.
  rewrite !inE addn2.
  have -> : ((size h0).+2 == size h0) = false by rewrite gtn_eqF // ltnW.
  have -> : ((size h0).+2 == (size h0).+1) = false by rewrite gtn_eqF.
  by case: (Z) => [z|] //=; rewrite inE eqxx.
split.
- by [].
- by rewrite Zin e4.
- by rewrite /Model.get_parameters eb /= e1 e2 !mem_cat !inE !eqxx /= !orbT.
- by move=> /dZ; rewrite e3 eb /= => ->.
- move=> Z0; have Zn : SparseHensman.Z self \notin
      Model.get_parameters (SparseHensman.base self) by rewrite Zin Z0.
  split=> //.
    by apply: contra Zn; rewrite /Model.parameters mem_filter => /andP [].
  by rewrite /Model.print_parameters size_map eb /= size_cat Z0 /= ep.
Qed.

(** ** Tensors and matrices *)

Lemma nth_allpairs (S T U : Type) (f : S -> T -> U) u0 x0 y0 s t i j :
  (i < size s)%N -> (j < size t)%N ->
  nth u0 [seq f x y | x <- s, y <- t] (i * size t + j) = f (nth x0 s i) (nth y0 t j).
Proof.
elim: s i => [|a s IH] [|i] //= si sj; rewrite nth_cat size_map.
  by rewrite mul0n add0n sj (nth_map y0).
by rewrite mulSn -addnA ltnNge leq_addr /= addKn IH.
Qed.

Lemma mx_of_tensorK m n (A : 'M[R]_(m, n)) : mx_of_tensor m n (tensor_of_mx A) = A.
Proof.
apply/matrixP => i j; rewrite mxE /tensor_of_mx /=.
have lt : (i * n + j < m * n)%N.
  apply: (@leq_trans (i.+1 * n)); last by rewrite leq_mul2r ltn_ord orbT.
  by rewrite mulSn addnC ltn_add2r.
rewrite (nth_map (i, j)) ?size_allpairs ?size_enum_ord //.
have := @nth_allpairs _ _ _ (@pair 'I_m 'I_n) (i, j) i j (enum 'I_m) (enum 'I_n) i j.
by rewrite !size_enum_ord !nth_ord_enum => -> //.
Qed.

(** ** [Hensman] *)

Lemma observed_bind model A B (c1 c2 : comp model A) (f1 f2 : A -> comp model B) :
  observed c1 = observed c2 ->
  (forall a, observed (f1 a) = observed (f2 a)) ->
  observed (bind c1 f1) = observed (bind c2 f2).
Proof.
rewrite /observed /bind /events /outcome.
case: c1 => e1 [a1|x1]; case: c2 => e2 [a2|x2] //=; last by case=> ->.
by case=> -> -> /(_ a2); case: (f1 a2) => u1 r1; case: (f2 a2) => u2 r2 /= [-> ->].
Qed.

Lemma observed_cholesky_renamed nm (self : SparseHensman.t) n (A : 'M[R]_n) b :
  observed (Model._cholesky (renamed nm self) A b)
  = observed (Model._cholesky self A b).
Proof.
rewrite !cholesky_call.
have -> : Model.jitter (Model.super (renamed nm self))
          = Model.jitter (Model.super self) by [].
by case: (cholesky _).
Qed.

Lemma observed_predict_renamed h nm (self : SparseHensman.t) m
    (Xs : 'M[R]_(m, Model.input_dims (SparseHensman.base self))) full :
  observed (SparseHensman._predict h (renamed nm self) Xs full)
  = observed (SparseHensman._predict h self Xs full).
Proof.
rewrite /SparseHensman._predict; apply: observed_bind => [|Zv] //.
by apply: observed_bind => [|Luu] //; exact: observed_cholesky_renamed.
Qed.

(** The name of a model is seen by neither [elbo] nor [predict]. *)
Lemma observed_elbo_renamed h nm (self : SparseHensman.t) :
  observed (SparseHensman.elbo h (renamed nm self))
  = observed (SparseHensman.elbo h self).
Proof.
rewrite /SparseHensman.elbo; apply: observed_bind => [|qf] //.
rewrite [SparseHensman.is_sparse (renamed nm self)]/=.
case: (SparseHensman.is_sparse self).
  rewrite /SparseHensman.qf_sparse; apply: observed_bind => [|r] //.
  exact: observed_predict_renamed.
rewrite /SparseHensman.qf_dense; apply: observed_bind => [|Lff] //.
exact: observed_cholesky_renamed.
Qed.

Lemma observed_sparse_predict_renamed h nm (self : SparseHensman.t) Xs full
    as_tensor predict_y :
  observed (SparseHensman.predict h (renamed nm self) Xs full as_tensor predict_y)
  = observed (SparseHensman.predict h self Xs full as_tensor predict_y).
Proof.
rewrite /SparseHensman.predict; apply: observed_bind => [|Xs'] //.
by apply: observed_bind => [|r] //; exact: observed_predict_renamed.
Qed.

(** The name given to the constructor ends in the [name] attribute and
    nowhere else. *)
Lemma SparseHensman_init_name model config kernel X y Z likelihood jitter mean
    name name0 h :
  @SparseHensman.__init__ model config kernel X y Z likelihood jitter mean name0 h
  = match @SparseHensman.__init__ model config kernel X y Z likelihood jitter
            mean name h with
    | Ok (self, h') => Ok (renamed name0 self, h')
    | Raise e => Raise e
    end.
Proof.
rewrite /SparseHensman.__init__ /Model.__init__.
case: Model._check_input => [[X' y']|] //.
case: (if l_output_dims likelihood is Some _ then _ else _) => //.
case: validate_y => //; cbv beta iota zeta.
move: (if mean is Some _ then _ else _) => st.
move: (match dtype config with Float32 => _ | _ => _ end) => j.
cbn [Model.X Model.input_dims Model.data_points Model.kernel Model.y
     Model.likelihood Model.jitter Model.mean Model.name Model._params].
case: Z => [z|] //.
by case: init_inducing_points => // Zt; case: Model._check_input => [[Zc ?]|].
Qed.

(** C9. [Hensman(kernel, X, y, likelihood, jitter, mean, name)] is
    [SparseHensman(kernel, X, y, None, likelihood, jitter, mean, name)]: the
    two constructions agree on every input, and on the model they build
    [is_sparse] is false, [Z] holds [X] and is not trainable, [q_mu] and
    [q_sqrt] have as many rows as there are data points, [elbo()] is the
    branch of [SparseHensman.elbo] that is not sparse, and [predict()] is
    [SparseHensman.predict].  Under another name, such as the one
    [SparseHensman] defaults to, the constructor builds the same model but for
    its [name], with the same events and values of [elbo()] and
    [predict()]. *)
Theorem hensman_is_dense_sparse_hensman (model : Type) config kernel X y
    likelihood jitter mean name (h : store) (self : Hensman.t) (h' : store) :
  @Hensman.__init__ model config kernel X y likelihood jitter mean name h
    = Ok (self, h') ->
  let base := SparseHensman.base self in
  let n := Model.data_points base in
  [/\ (forall name0 h0,
        @Hensman.__init__ model config kernel X y likelihood jitter mean name0 h0
        = SparseHensman.__init__ config kernel X y None likelihood jitter mean
            name0 h0)
      /\ (forall name0,
        @SparseHensman.__init__ model config kernel X y None likelihood jitter
          mean name0 h = Ok (renamed name0 self, h')),
      SparseHensman.is_sparse self = false,
      [/\ p_value (deref h' (SparseHensman.Z self)) = tensor_of_mx (Model.X base),
          p_trainable (deref h' (SparseHensman.Z self)) = false,
          @matrix_value model h' (SparseHensman.Z self) (Model.input_dims base)
            = Ok (existT _ n (Model.X base)),
          p_value (deref h' (SparseHensman.q_mu self))
            = tensor_of_mx (0 : 'M[R]_(n, 1))
        & p_value (deref h' (SparseHensman.q_sqrt self))
            = tensor_of_mx (1%:M : 'M[R]_n)],
      forall h1,
        Hensman.elbo h1 self =
        (let! qf := SparseHensman.qf_dense h1 self in
         SparseHensman.elbo_of h1 qf)
        /\ (forall name0,
             observed (SparseHensman.elbo h1 (renamed name0 self))
             = observed (Hensman.elbo h1 self))
    & forall h1 Xs full as_tensor predict_y,
        Hensman.predict h1 self Xs full as_tensor predict_y
        = SparseHensman.predict h1 self Xs full as_tensor predict_y
        /\ (forall name0,
             observed (SparseHensman.predict h1 (renamed name0 self) Xs full
                         as_tensor predict_y)
             = observed (Hensman.predict h1 self Xs full as_tensor predict_y))].
Proof.
rewrite /Hensman.__init__ => E0.
have eN name0 :
    @SparseHensman.__init__ model config kernel X y None likelihood jitter
      mean name0 h = Ok (renamed name0 self, h').
  by rewrite (@SparseHensman_init_name model config kernel X y None likelihood
                jitter mean name name0 h) E0.
move: E0 => /SparseHensman_init_spec [m0 [h0 [E]]].
case: self eN => b sp qm qs z eN.
cbn [SparseHensman.base SparseHensman.q_mu SparseHensman.q_sqrt
     SparseHensman.Z SparseHensman.is_sparse isSome].
move=> eb [e1 e2 e3 e4] sh' /(_ erefl) [dZ dmu dsq].
move: eN; rewrite eb e1 e2 e3 e4 => eN.
cbn [Model.X Model.data_points Model.input_dims].
split=> //.
- split; rewrite ?dZ //.
  by rewrite /matrix_value dZ /= !eqxx /= mx_of_tensorK.
- by move=> h1; split=> // name0; exact: observed_elbo_renamed.
- move=> h1 Xs full t py; split=> // name0.
  exact: observed_sparse_predict_renamed.
Qed.

(** [Hensman] on the unit model, under the default names. *)
Lemma hensman_is_dense_sparse_hensman_witness :
  exists (self : Hensman.t) (h' : store),
  [/\ @Hensman.__init__ unit (mkConfig OtherDtype (10 ^- 8))
        (unit_kernel [::]) (Tensor [:: 1%N; 1%N] [:: 0])
        (Tensor [:: 1%N; 1%N] [:: 0]) (plain_likelihood None) (10 ^- 8)
        None (Some Hensman.default_name) [::]
      = Ok (self, h'),
      @SparseHensman.__init__ unit (mkConfig OtherDtype (10 ^- 8))
        (unit_kernel [::]) (Tensor [:: 1%N; 1%N] [:: 0])
        (Tensor [:: 1%N; 1%N] [:: 0]) None (plain_likelihood None) (10 ^- 8)
        None (Some SparseHensman.default_name) [::]
      = Ok (renamed (Some SparseHensman.default_name) self, h')
    & SparseHensman.is_sparse self = false].
Proof.
have [[self h'] E] : {sh | @Hensman.__init__ unit (mkConfig OtherDtype (10 ^- 8))
      (unit_kernel [::]) (Tensor [:: 1%N; 1%N] [:: 0])
      (Tensor [:: 1%N; 1%N] [:: 0]) (plain_likelihood None) (10 ^- 8)
      None (Some Hensman.default_name) [::] = Ok sh}.
  eexists; rewrite /Hensman.__init__ /SparseHensman.__init__ /Model.__init__.
  by rewrite check_input_eq /=.
have [[_ eN] sp _ _ _] := hensman_is_dense_sparse_hensman E.
by exists self, h'; split.
Defined.

(** ** Valid kernels and the factorizations of the models *)

Lemma K_tr k n1 n2 d (X1 : 'M[R]_(n1, d)) (X2 : 'M[R]_(n2, d)) :
  kernel_valid k -> (K k X1 X2)^T = K k X2 X1.
Proof. by case=> sk _; apply/matrixP => i j; rewrite !mxE sk. Qed.

Lemma K_sym k n d (P : 'M[R]_(n, d)) : kernel_valid k -> symmetric (K k P P).
Proof. exact: K_tr. Qed.

Lemma K_diagE k n d (P : 'M[R]_(n, d)) i : K_diag k P 0 i = K k P P i i.
Proof. by rewrite !mxE. Qed.

Lemma K_diag_trace k n d (P : 'M[R]_(n, d)) : \sum_i K_diag k P 0 i = \tr (K k P P).
Proof. by apply: eq_bigr => i _; rewrite K_diagE. Qed.

Lemma row_col_mxu m n d (A : 'M[R]_(m, d)) (B : 'M[R]_(n, d)) i :
  row (lshift n i) (col_mx A B) = row i A.
Proof. by apply/rowP => j; rewrite [LHS]mxE [RHS]mxE col_mxEu. Qed.

Lemma row_col_mxd m n d (A : 'M[R]_(m, d)) (B : 'M[R]_(n, d)) i :
  row (rshift m i) (col_mx A B) = row i B.
Proof. by apply/rowP => j; rewrite [LHS]mxE [RHS]mxE col_mxEd. Qed.

Lemma K_block k m n d (Z : 'M[R]_(m, d)) (P : 'M[R]_(n, d)) :
  K k (col_mx Z P) (col_mx Z P)
  = block_mx (K k Z Z) (K k Z P) (K k P Z) (K k P P).
Proof.
apply/matrixP => i j; rewrite mxE.
case: (split_ordP i) => i' ->; case: (split_ordP j) => j' ->.
- by rewrite block_mxEul mxE !row_col_mxu.
- by rewrite block_mxEur mxE row_col_mxu row_col_mxd.
- by rewrite block_mxEdl mxE row_col_mxu row_col_mxd.
- by rewrite block_mxEdr mxE !row_col_mxd.
Qed.

Lemma diagonal_mean_ge0 n (A : 'M[R]_n) : possemidef A -> 0 <= Model.diagonal_mean A.
Proof.
move=> pA; rewrite /Model.diagonal_mean divr_ge0 ?ler0n // sumr_ge0 // => i _.
exact: possemidef_diag_ge0.
Qed.

(** A positive definite matrix stays so under the jitter, and a positive
    semi-definite one with a positive diagonal mean becomes so. *)
Lemma jitter_posdef n (A : 'M[R]_n) (j : R) :
  symmetric A -> posdef A -> 0 <= j ->
  symmetric (A + (j * Model.diagonal_mean A)%:M)
  /\ posdef (A + (j * Model.diagonal_mean A)%:M).
Proof.
move=> sA pA j0; split; first exact/symmetricD/symmetric_scalar.
apply: posdefD => //; apply: possemidef_scalar.
by rewrite mulr_ge0 // diagonal_mean_ge0 //; exact: posdef_semidef.
Qed.

Lemma jitter_semidef_posdef n (A : 'M[R]_n) (j : R) :
  symmetric A -> possemidef A -> 0 < j -> 0 < Model.diagonal_mean A ->
  symmetric (A + (j * Model.diagonal_mean A)%:M)
  /\ posdef (A + (j * Model.diagonal_mean A)%:M).
Proof.
move=> sA pA j0 d0; split; first exact/symmetricD/symmetric_scalar.
by apply: posdefDl => //; apply: posdef_scalar; rewrite mulr_gt0.
Qed.

(** [_cholesky] returns the factor of a symmetric positive definite matrix,
    after the one call of the factorization. *)
Lemma cholesky_succeeds S (inst : Model.Subclass S) (self : S) n (A : 'M[R]_n) b :
  let A' :=
    if b then A + (Model.jitter (Model.super self) * Model.diagonal_mean A)%:M
    else A in
  symmetric A' -> posdef A' ->
  exists L, [/\ cholesky A' = Some L,
                Model._cholesky self A b = ([:: TorchCholesky A'], Ok L),
                lower_pos L & L *m L^T = A'].
Proof.
move=> A' sA pA; have [L eL] := cholesky_complete sA pA.
have [tL dL LL] := cholesky_sound sA eL.
by exists L; split=> //; rewrite cholesky_call -/A' eL.
Qed.

Lemma qform_corner m n (e : R) (z : 'cV[R]_(m + n)) :
  qform (block_mx e%:M 0 0 (0 : 'M[R]_n)) z = e * dot (usubmx z) (usubmx z).
Proof.
rewrite -{1}[z]vsubmxK /qform tr_col_mx mul_row_block mul_row_col.
rewrite !mulmx0 !addr0 mul0mx addr0 mul_mx_scalar -scalemxAl.
by rewrite scale00.
Qed.

(** The part of the kernel matrix of the data that the inducing points do not
    explain is positive semi-definite, whatever the jitter of [Kuu]. *)
Lemma inducing_residual k m n d (Z : 'M[R]_(m, d)) (P : 'M[R]_(n, d))
    (eps : R) (Luu : 'M[R]_m) :
  kernel_valid k -> 0 <= eps -> lower_pos Luu ->
  Luu *m Luu^T = K k Z Z + eps%:M ->
  let v := solve_triangular Luu (K k Z P) in
  possemidef (K k P P - v^T *m v).
Proof.
move=> vk e0 lpL eL v.
have uL := unit_lower_pos lpL.
have uA : K k Z Z + eps%:M \in unitmx by rewrite -eL unitmx_mul unitmx_tr uL.
have -> : v^T *m v = (K k Z P)^T *m invmx (K k Z Z + eps%:M) *m K k Z P.
  by rewrite /v /solve_triangular trmx_mul -eL invmx_gram // !mulmxA.
apply: schur_possemidef => // z.
have -> : block_mx (K k Z Z + eps%:M) (K k Z P) (K k Z P)^T (K k P P)
        = K k (col_mx Z P) (col_mx Z P) + block_mx eps%:M 0 0 0.
  by rewrite K_block add_block_mx !addr0 K_tr.
rewrite qformD addr_ge0 //; first by case: vk => _; apply.
by rewrite qform_corner mulr_ge0 // dot_ge0.
Qed.

(** ** Computations *)

Lemma bind_lift_Ok model A B (a : A) (f : A -> comp model B) :
  bind (lift (Ok a)) f = f a.
Proof. by rewrite /bind /lift /=; case: (f a). Qed.

Lemma bind_lift_Raise model A B e (f : A -> comp model B) :
  bind (lift (Raise e : result model A)) f = ([::], Raise e).
Proof. by []. Qed.

Lemma bind_Ok model A B evs (a : A) (f : A -> comp model B) :
  bind (evs, Ok a) f = (evs ++ (f a).1, (f a).2).
Proof. by []. Qed.

Lemma bind_ret model A B (a : A) (f : A -> comp model B) : bind (ret a) f = f a.
Proof. exact: bind_lift_Ok. Qed.

(** ** The noise of a Gaussian likelihood *)

Lemma index_channel_scalar model (self : Model.t) s n d (P : 'M[R]_(n, d)) :
  @Model._index_channel model self (scalar_tensor s) n d P = Ok (scalar_tensor s).
Proof. by rewrite /Model._index_channel /= andbF. Qed.

Lemma add_times_eye_scalar model n (A : 'M[R]_n) s :
  @add_times_eye model n A (scalar_tensor s) = Ok (A + s%:M).
Proof.
rewrite /add_times_eye /=; congr (Ok (_ + _)).
by apply/matrixP => i j; rewrite !mxE /item /= mulr_natr.
Qed.

Lemma add_broadcast_scalar model n (v : 'rV[R]_n) s :
  @add_broadcast model n v (scalar_tensor s) = Ok (v + const_mx s).
Proof. by []. Qed.

(** ** The exact log marginal likelihood *)

Lemma exact_noisy_Kff h (self : Exact.t) r s :
  Exact.variance_per_data self = false ->
  l_scale (Model.likelihood (Exact.base self)) = Some r ->
  p_value (deref h r) = scalar_tensor s ->
  Exact.noisy_Kff h self =
  Ok (K (Model.kernel (Exact.base self)) (Model.X (Exact.base self))
        (Model.X (Exact.base self)) + s%:M).
Proof.
move=> vpd el ev; rewrite /Exact.noisy_Kff /likelihood_scale el ev vpd.
by rewrite index_channel_scalar add_times_eye_scalar.
Qed.

Lemma noisy_posdef k n d (P : 'M[R]_(n, d)) s :
  kernel_valid k -> 0 < s ->
  symmetric (K k P P + s%:M) /\ posdef (K k P P + s%:M).
Proof.
move=> vk s0; split; first exact/symmetricD/symmetric_scalar/K_sym.
by apply: posdefDl; [case: vk => _; apply | exact: posdef_scalar].
Qed.

(** The evaluation of [Exact.log_marginal_likelihood] on a valid model with
    a scalar noise variance: one factorization, which succeeds, and the value
    computed from the factor. *)
Lemma exact_lml_eval (h : store) (self : Exact.t) (r : ref) (s : R) :
  let base := Exact.base self in
  let P := Model.X base in
  let n := Model.data_points base in
  let y := Exact.centered_y base in
  let Ks := K (Model.kernel base) P P + s%:M in
  let A := Ks + (Model.jitter base * Model.diagonal_mean Ks)%:M in
  kernel_valid (Model.kernel base) ->
  Exact.variance_per_data self = false ->
  l_scale (Model.likelihood base) = Some r ->
  p_value (deref h r) = scalar_tensor s ->
  0 < s -> 0 <= Model.jitter base ->
  exists L,
    [/\ cholesky A = Some L, lower_pos L, L *m L^T = A
      & Exact.log_marginal_likelihood h self =
          ([:: TorchCholesky A],
           Ok (- (2^-1 * n%:R * ln (2 * PI)) - \sum_i ln (L i i)
               - 2^-1 * (y^T *m cholesky_solve y L) 0 0))].
Proof.
move=> base P n y Ks A vk vpd el ev s0 j0.
have [sK pK] := noisy_posdef P vk s0.
have [sA pA] := jitter_posdef sK pK j0.
have [L [eL eC lpL LL]] := @cholesky_succeeds _ _ self _ Ks true sA pA.
exists L; split=> //.
rewrite /Exact.log_marginal_likelihood (exact_noisy_Kff vpd el ev).
by rewrite bind_lift_Ok [Model._cholesky _ _ _]eC bind_Ok.
Qed.

(** The value computed from the factor is the Gaussian log evidence. *)
Lemma gaussian_evidence_of_factor n (A L : 'M[R]_n) (y : 'cV[R]_n) (c : R) :
  lower_pos L -> L *m L^T = A ->
  - c - \sum_i ln (L i i) - 2^-1 * (y^T *m cholesky_solve y L) 0 0
  = - (2^-1 * qform (invmx A) y) - 2^-1 * ln (\det A) - c.
Proof.
move=> lpL LL; rewrite /cholesky_solve LL mulmxA -/(qform _ _).
have := logdet_lower_pos lpL; rewrite LL.
move: (qform _ _) (ln (\det _)) (\sum_i _) => q ld sl e.
by rewrite e; lra.
Qed.

(** C1. With a valid kernel, a scalar noise variance [s > 0] and a jitter
    that is not negative, [Exact.log_marginal_likelihood()] returns, after one
    factorization, the value the code computes from the Cholesky factor [L]
    of [A], which is [K(X,X) + s I] plus the jitter, and that value is the
    Gaussian log evidence [-1/2 y^T A^-1 y - 1/2 log|A| - 1/2 n log(2 pi)],
    where [y] has the mean subtracted if there is one; [A] is [K(X,X) + s I]
    itself when the jitter is zero. *)
Theorem exact_log_marginal_likelihood_closed_form (h : store) (self : Exact.t)
    (r : ref) (s : R) :
  let base := Exact.base self in
  let P := Model.X base in
  let n := Model.data_points base in
  let y :=
    if Model.mean base is Some m then Model.y base - mean_col m P
    else Model.y base in
  let Ks := K (Model.kernel base) P P + s%:M in
  let A := Ks + (Model.jitter base * Model.diagonal_mean Ks)%:M in
  kernel_valid (Model.kernel base) ->
  Exact.variance_per_data self = false ->
  l_scale (Model.likelihood base) = Some r ->
  p_value (deref h r) = scalar_tensor s ->
  0 < s -> 0 <= Model.jitter base ->
  exists L,
    [/\ cholesky A = Some L,
        Exact.log_marginal_likelihood h self =
          ([:: TorchCholesky A],
           Ok (- (2^-1 * n%:R * ln (2 * PI)) - \sum_i ln (L i i)
               - 2^-1 * (y^T *m cholesky_solve y L) 0 0)),
        outcome (Exact.log_marginal_likelihood h self) =
          Ok (- (2^-1 * qform (invmx A) y) - 2^-1 * ln (\det A)
              - 2^-1 * n%:R * ln (2 * PI))
      & Model.jitter base = 0 -> A = Ks].
Proof.
move=> base P n y Ks A vk vpd el ev s0 j0.
have [L [eL lpL LL eE]] := exact_lml_eval vk vpd el ev s0 j0.
exists L; split=> //; last by rewrite /A => ->; rewrite mul0r raddf0 addr0.
by rewrite eE /outcome /= (gaussian_evidence_of_factor _ _ lpL LL).
Qed.

Lemma unit_kernel_valid dict : kernel_valid (unit_kernel dict).
Proof.
split=> // d n P.
have -> : K (unit_kernel dict) P P = (const_mx 1 : 'cV[R]_n) *m (const_mx 1)^T.
  by apply/matrixP => i j; rewrite !mxE big_ord1 !mxE mulr1.
exact: possemidef_gram.
Qed.

(** The unit model with noise variance 1 and no jitter. *)
Lemma exact_log_marginal_likelihood_closed_form_witness :
  let self := Exact.mk (unit_model [::] (Some 0%N) 0 [::]) false in
  let h : store := [:: new_Param (scalar_tensor 1) (Some "scale"%string) None true] in
  [/\ kernel_valid (Model.kernel (Exact.base self)),
      p_value (deref h 0) = scalar_tensor 1
    & is_Ok (outcome (Exact.log_marginal_likelihood h self))].
Proof.
move=> self h; have vk := unit_kernel_valid [::].
have [L [_ _ e _]] :=
  @exact_log_marginal_likelihood_closed_form h self 0%N 1 vk erefl erefl erefl
    ltr01 (lexx 0).
by split=> //; rewrite e.
Defined.

(** ** What the constructors leave in the store *)

(** The walk of the registry renames Parameters and changes no value. *)
Lemma register_parameters_value obj name st k :
  p_value (deref (_register_parameters obj name st).1 k) = p_value (deref st.1 k).
Proof.
move: obj name st; fix IH 1; case=> [r|items|oname dict|v] name st /=.
- exact: p_value_update.
- move: 0%N; elim: items st => [|v vs IHvs] st i //=.
  by rewrite IHvs IH.
- elim: dict st => [|v vs IHvs] st //=.
  by rewrite IHvs IH.
- by [].
Qed.

Lemma Model_init_store model config kernel X y likelihood jitter mean name h
    (self : Model.t) h' :
  @Model.__init__ model config kernel X y likelihood jitter mean name h
    = Ok (self, h') ->
  [/\ forall k, p_value (deref h' k) = p_value (deref h k),
      promoted (shape X) = Some (Model.data_points self, Model.input_dims self)
    & 0 <= jitter -> 0 <= Model.jitter self].
Proof.
rewrite /Model.__init__ check_input_eq.
case: (promoted (shape X)) => [[r c]|] //; case: ifP => // _.
case: (promoted (shape y)) => [[r' c']|] //.
case: (c' != 1%N) => //; case: (r != r') => //.
cbv beta iota zeta.
case: (if l_output_dims likelihood is Some _ then _ else _) => //.
case: validate_y => //.
have := register_parameters_value (PModule (k_name kernel) (k_dict kernel)) None
          (h, [::]).
move: (_register_parameters (PModule (k_name kernel) _) _ _) => st1 v1.
have := register_parameters_value (PModule (l_name likelihood) (l_dict likelihood))
          None st1.
move: (_register_parameters (PModule (l_name likelihood) _) _ _) => st2 v2.
have vj : 0 <= jitter ->
    0 <= match dtype config with
         | Float32 => Num.max jitter (10 ^- 6)
         | Float64 => Num.max jitter (10 ^- 15)
         | OtherDtype => jitter
         end.
  by move=> j0; case: dtype => //; rewrite le_max j0.
case: mean => [m|]; last first.
  by case=> <- <-; split=> // k; rewrite v2 v1.
have := register_parameters_value (PModule (m_name m) (m_dict m)) None st2.
move: (_register_parameters (PModule (m_name m) _) _ _) => st3 v3.
by case=> <- <-; split=> // k; rewrite v3 v2 v1.
Qed.

Lemma Exact_init_spec model gaussian config kernel X y variance jitter mean name
    h (self : Exact.t) h' :
  @Exact.__init__ model gaussian config kernel X y variance jitter mean name h
    = Ok (self, h') ->
  let per_data :=
    [&& ndim variance == 2%N,
        (ndim X != 1%N) || (dim variance 0 == dim X 0)
      & dim variance 1 == 1%N] in
  let base := Exact.base self in
  [/\ Exact.variance_per_data self = per_data,
      [/\ Model.kernel base = kernel, Model.mean base = mean
        & l_scale (Model.likelihood base) = Some (size h)],
      p_value (deref h' (size h))
        = (if per_data then reshape variance [:: numel variance] else variance),
      promoted (shape X) = Some (Model.data_points base, Model.input_dims base)
    & 0 <= jitter -> 0 <= Model.jitter base].
Proof.
rewrite /Exact.__init__; case: ifP => // _.
rewrite /GaussianLikelihood /alloc; cbv beta iota zeta.
case E: Model.__init__ => [[m0 h0]|] //; case=> <- <-.
have [ev ep ej] := Model_init_store E.
have [_ _ ek el em] := Model_init_registry E.
cbn [Exact.base Exact.variance_per_data]; split=> //.
- by rewrite ek em el.
- by rewrite el; cbn [l_scale]; rewrite p_value_update // ev deref_rcons.
Qed.

(** ** Prediction with a variance per data point *)

Lemma exact_noisy_Kff_per_data h (self : Exact.t) r :
  Exact.variance_per_data self = true ->
  l_scale (Model.likelihood (Exact.base self)) = Some r ->
  numel (p_value (deref h r)) = Exact.n self ->
  Exact.noisy_Kff h self =
  Ok (K (Model.kernel (Exact.base self)) (Model.X (Exact.base self))
        (Model.X (Exact.base self))
      + diag_mx (\row_i nth 0 (data (p_value (deref h r))) i)).
Proof.
move=> vpd el en; rewrite /Exact.noisy_Kff /likelihood_scale el vpd.
by rewrite /add_diagflat en eqxx.
Qed.

(** C6. An [Exact] model constructed with a variance of shape
    [(data_points, 1)] has [variance_per_data] set, and then every call of
    [predict] with [predict_y=True] raises the [ValueError] at once: no
    factorization is asked for and nothing is returned or changed, whatever
    the query and the store.  With [predict_y=False], a valid kernel, a jitter
    that is not negative and positive variances, [predict] on a query that
    [_check_input] accepts returns a mean and a variance after one
    factorization. *)
Theorem exact_predict_per_data_variance (model : Type) gaussian config kernel
    X y variance jitter mean name (h : store) (self : Exact.t) (h' : store) :
  @Exact.__init__ model gaussian config kernel X y variance jitter mean name h
    = Ok (self, h') ->
  shape variance = [:: Exact.n self; 1%N] ->
  [/\ Exact.variance_per_data self = true,
      forall h1 Xs full as_tensor,
        Exact.predict h1 self Xs full as_tensor true
        = ([::],
           Raise (ValueError
             "can only predict function values when data point variances are given, set predict_y=False"))
    & kernel_valid kernel -> 0 <= jitter ->
      (forall i, (i < Exact.n self)%N -> 0 < nth 0 (data variance) i) ->
      forall Xs Xs' full as_tensor,
        @Model._check_input Exact.t
          (Some (Model.input_dims (Exact.base self))) Xs None = Ok Xs' ->
        exists (A : 'M[R]_(Exact.n self)) mu var,
          Exact.predict h' self Xs full as_tensor false
          = ([:: TorchCholesky A], Ok (mu, var))].
Proof.
move=> /Exact_init_spec [evpd [ek em el] ev ep ej] sv.
have vpd : Exact.variance_per_data self = true.
  rewrite evpd /ndim /dim sv /= andbT.
  move: ep; rewrite /Exact.n; case: (shape X) => [|a [|b [|c s]]] //= [<- _].
  by rewrite eqxx.
split=> //; first by move=> h1 Xs full t; rewrite /Exact.predict vpd.
move=> vk j0 pos Xs Xs' full t cX.
have en : numel (p_value (deref h' (size h))) = Exact.n self.
  rewrite ev -evpd vpd numel1 /numel sv.
  by rewrite !big_cons big_nil !muln1.
have eN := exact_noisy_Kff_per_data vpd el en.
set D := diag_mx _ in eN.
set Kff := K _ _ _ in eN.
have pD : posdef D.
  apply: posdef_diag => i; rewrite mxE ev -evpd vpd /=.
  exact: pos.
have sA : symmetric (Kff + D).
  by apply: symmetricD; [apply: K_sym; rewrite ek | exact: symmetric_diag].
have pA : posdef (Kff + D).
  by apply: posdefDl => //; rewrite /Kff ek; case: vk => _; apply.
have [sJ pJ] := jitter_posdef sA pA (ej j0).
have [L [_ eC _ _]] := @cholesky_succeeds _ _ self _ (Kff + D) true sJ pJ.
rewrite /Exact.predict vpd andbF cX bind_lift_Ok eN bind_lift_Ok.
rewrite [Model._cholesky _ _ _]eC bind_Ok.
by case: full; rewrite bind_ret cats0; do 3!eexists.
Qed.

(** One data point with its own variance 1: the constructor sets
    [variance_per_data], and the prediction of function values succeeds. *)
Lemma exact_predict_per_data_variance_witness :
  exists (self : Exact.t) (h' : store),
  [/\ @Exact.__init__ unit plain_gaussian (mkConfig OtherDtype (10 ^- 8))
        (unit_kernel [::]) (Tensor [:: 1%N; 1%N] [:: 0])
        (Tensor [:: 1%N; 1%N] [:: 0]) (Tensor [:: 1%N; 1%N] [:: 1]) (10 ^- 8)
        None None [::]
      = Ok (self, h'),
      shape (Tensor [:: 1%N; 1%N] [:: 1]) = [:: Exact.n self; 1%N],
      Exact.variance_per_data self = true
    & is_Ok (outcome (Exact.predict h' self (Tensor [:: 1%N; 1%N] [:: 0])
                        false false false))].
Proof.
have [[self h'] E] : {sh | @Exact.__init__ unit plain_gaussian
        (mkConfig OtherDtype (10 ^- 8))
        (unit_kernel [::]) (Tensor [:: 1%N; 1%N] [:: 0])
        (Tensor [:: 1%N; 1%N] [:: 0]) (Tensor [:: 1%N; 1%N] [:: 1]) (10 ^- 8)
        None None [::] = Ok sh}.
  eexists; rewrite /Exact.__init__ /GaussianLikelihood /Model.__init__.
  by rewrite check_input_eq /=.
have [_ _ _ [en ed] _] := Exact_init_spec E.
have sv : shape (Tensor [:: 1%N; 1%N] [:: 1]) = [:: Exact.n self; 1%N].
  by rewrite /Exact.n -en.
have [vpd _ ok] := exact_predict_per_data_variance E sv.
exists self, h'; split=> //.
have j0 : 0 <= (10 ^- 8 : R) by rewrite invr_ge0 exprn_ge0 // ler0n.
have pos i : (i < Exact.n self)%N -> 0 < nth 0 (data (Tensor [:: 1%N; 1%N] [:: 1])) i.
  by rewrite /Exact.n -en; case: i.
have cX : @Model._check_input Exact.t (Some (Model.input_dims (Exact.base self)))
            (Tensor [:: 1%N; 1%N] [:: 0]) None
          = Ok (Tensor [:: 1%N; 1%N] [:: 0], None).
  by rewrite check_input_eq -ed.
have [A [mu [var ->]]] := ok (unit_kernel_valid [::]) j0 pos _ _ false false cX.
by [].
Defined.

(** ** The variational bound of [Titsias] *)

Lemma Ok_inj model A (a b : A) : @Ok model A a = Ok b -> a = b.
Proof. by case. Qed.

Lemma outcome_bind model A B (c : comp model A) (f : A -> comp model B) :
  outcome (bind c f) =
  match outcome c with Ok a => outcome (f a) | Raise e => Raise e end.
Proof. by rewrite /bind /outcome; case: c.2. Qed.

Lemma outcome_cholesky S (inst : Model.Subclass S) (self : S) n (A : 'M[R]_n) b :
  let A' :=
    if b then A + (Model.jitter (Model.super self) * Model.diagonal_mean A)%:M
    else A in
  outcome (Model._cholesky self A b) =
  if cholesky A' is Some L then Ok L
  else Raise (CholeskyException Model.cholesky_message A' self).
Proof. by move=> A'; rewrite cholesky_call -/A'; case: (cholesky A'). Qed.

Lemma scalar_value_scalar model s : @scalar_value model (scalar_tensor s) = Ok s.
Proof. by rewrite /scalar_value /numel /= big_nil. Qed.

Lemma titsias_elbo_outcome h (self : Titsias.t) r s m
    (Zm : 'M[R]_(m, Model.input_dims (Titsias.base self))) :
  let base := Titsias.base self in
  let k := Model.kernel base in
  let P := Model.X base in
  let Kuu := K k Zm Zm in
  let Kuu' := Kuu + (Model.jitter base * Model.diagonal_mean Kuu)%:M in
  @matrix_value Titsias.t h (Titsias.Z self) (Model.input_dims base)
    = Ok (existT _ m Zm) ->
  l_scale (Model.likelihood base) = Some r ->
  p_value (deref h r) = scalar_tensor s ->
  outcome (Titsias.elbo h self) =
  if cholesky Kuu' is Some Luu then
    let v := solve_triangular Luu (K k Zm P) in
    let B := s^-1 *: (v *m v^T) + 1%:M in
    if cholesky B is Some L then
      Ok (titsias_value s (K_diag k P) (Exact.centered_y base) v L)
    else Raise (CholeskyException Model.cholesky_message B self)
  else Raise (CholeskyException Model.cholesky_message Kuu' self).
Proof.
move=> base k P Kuu Kuu' eZ el ev.
rewrite /Titsias.elbo eZ bind_lift_Ok; cbn [projT1 projT2].
rewrite outcome_bind outcome_cholesky -/Kuu -/Kuu'.
case: (cholesky Kuu') => [Luu|] //.
rewrite /likelihood_scale el ev bind_lift_Ok scalar_value_scalar bind_lift_Ok.
rewrite outcome_bind outcome_cholesky.
by case: (cholesky _) => [L|].
Qed.

(** C2, amended. With a valid kernel, a scalar noise variance [s > 0] and a
    jitter that is not negative, a value [Titsias.elbo()] returns is at most
    the Gaussian log evidence of [K(X,X) + s I], which is what
    [Exact.log_marginal_likelihood()] returns for the same kernel, data, noise
    and mean when its jitter is zero. *)
Theorem titsias_elbo_le_log_evidence (h : store) (self : Titsias.t) (r : ref)
    (s T : R) :
  let base := Titsias.base self in
  let P := Model.X base in
  let n := Model.data_points base in
  let y :=
    if Model.mean base is Some m then Model.y base - mean_col m P
    else Model.y base in
  let Ks := K (Model.kernel base) P P + s%:M in
  let evidence :=
    - (2^-1 * qform (invmx Ks) y) - 2^-1 * ln (\det Ks)
    - 2^-1 * n%:R * ln (2 * PI) in
  kernel_valid (Model.kernel base) ->
  l_scale (Model.likelihood base) = Some r ->
  p_value (deref h r) = scalar_tensor s ->
  0 < s -> 0 <= Model.jitter base ->
  outcome (Titsias.elbo h self) = Ok T ->
  T <= evidence
  /\ outcome (Exact.log_marginal_likelihood h (Exact.mk (with_jitter 0 base) false))
     = Ok evidence.
Proof.
move=> base P n y Ks evidence vk el ev s0 j0 eT.
split; last first.
  have [L [eL lpL LL eE]] :=
    @exact_lml_eval h (Exact.mk (with_jitter 0 base) false) r s vk erefl el ev
      s0 (lexx 0).
  rewrite eE /outcome /= (gaussian_evidence_of_factor _ _ lpL LL).
  by rewrite mul0r raddf0 addr0.
case eZ: (@matrix_value Titsias.t h (Titsias.Z self) (Model.input_dims base))
  => [[m Zm]|e]; last by move: eT; rewrite /Titsias.elbo eZ.
move: eT; rewrite (titsias_elbo_outcome eZ el ev).
set Kuu := K _ Zm Zm; set Kuu' := Kuu + _.
case eC1: (cholesky Kuu') => [Luu|] //; cbv zeta.
set v := solve_triangular Luu _; set B := _ + 1%:M.
case eC2: (cholesky B) => [L|] // eT; rewrite -(Ok_inj eT) {eT}.
have sKuu' : symmetric Kuu' by exact/symmetricD/symmetric_scalar/K_sym.
have [tLuu dLuu LLuu] := cholesky_sound sKuu' eC1.
have sB : symmetric B.
  apply: symmetricD; last exact: symmetric_scalar.
  by rewrite /symmetric linearZ /= symmetric_gram.
have [tL dL LL] := cholesky_sound sB eC2.
have e0 : 0 <= Model.jitter base * Model.diagonal_mean Kuu.
  by rewrite mulr_ge0 // diagonal_mean_ge0 //; case: vk => _; apply.
have psd := inducing_residual P vk e0 (conj tLuu dLuu) LLuu.
have := variational_bound y s0 (K_sym P vk) psd (conj tL dL) LL.
rewrite /titsias_value /evidence K_diag_trace /dot /v /solve_triangular.
cbv beta zeta; rewrite /Exact.centered_y -/base -/P -/y -/Ks -/n.
move: (\sum_i _) (ln s) ((y^T *m y) 0 0) (((s^-1 *: _)^T *m _) 0 0)
  (\tr _ - \tr _) (ln (\det _)) (qform _ _) (ln (2 * PI)) (n%:R)
  => a1 a2 a3 a4 a5 a6 a7 a8 a9.
rewrite -!mulrA.
move: (a9 * a2) (a9 * a8) (a3 / s) (a5 / s) => b1 b2 b3 b4; lra.
Qed.

(** ** The bound against an exact model with jitter *)

Lemma K_unit11 dict (A B : 'M[R]_(1, 1)) : K (unit_kernel dict) A B = 1%:M.
Proof. by apply/matrixP => i j; rewrite !mxE !ord1 eqxx mulr1n. Qed.

Lemma diagonal_mean11 (a : R) : Model.diagonal_mean (a%:M : 'M[R]_1) = a.
Proof. by rewrite /Model.diagonal_mean big_ord1 mxE eqxx mulr1n divr1. Qed.

Lemma factor11 (L : 'M[R]_1) (a : R) :
  lower_pos L -> L *m L^T = a%:M ->
  [/\ 0 < L 0 0, L = (L 0 0)%:M & L 0 0 * L 0 0 = a].
Proof.
move=> [_ dL] /matrixP /(_ 0 0); rewrite mx11_00 tr00 scalar00 => e.
by split=> //; rewrite -mx11_scalar.
Qed.

Lemma ln_factor (l a : R) : 0 < l -> l * l = a -> ln l = 2^-1 * ln a.
Proof. by move=> l0 <-; rewrite ln_mul // mulrDr [2^-1 * _]mulrC -splitr. Qed.

Lemma cholesky11 (a : R) :
  0 < a ->
  exists l, [/\ cholesky (a%:M : 'M[R]_1) = Some l%:M, 0 < l & l * l = a].
Proof.
move=> a0.
have [L eL] := cholesky_complete (@symmetric_scalar 1 a) (posdef_scalar a0).
have [tL dL LL] := cholesky_sound (@symmetric_scalar 1 a) eL.
have [l0 e1 e2] := factor11 (conj tL dL) LL.
by exists (L 0 0); split=> //; rewrite -e1.
Qed.

Lemma constant_titsias_Z j :
  @matrix_value Titsias.t constant_store (Titsias.Z (constant_titsias j))
    (Model.input_dims (Titsias.base (constant_titsias j)))
  = Ok (existT _ 1%N (0 : 'M[R]_(1, 1))).
Proof. by rewrite /matrix_value /= mx_of_tensorK. Qed.

Lemma constant_titsias_value j :
  0 < j ->
  exists l t,
    [/\ 0 < l, l * l = 1 + j, 0 < t, t * t = l^-1 * l^-1 + 1
      & outcome (Titsias.elbo constant_store (constant_titsias j))
        = Ok (- (2^-1 * ln (2 * PI)) - ln t - 2^-1 * (1 - l^-1 * l^-1))].
Proof.
move=> j0.
rewrite (@titsias_elbo_outcome _ _ 0%N 1%R _ _ (constant_titsias_Z j) erefl erefl).
cbn [Titsias.base constant_titsias unit_model Model.kernel Model.X Model.jitter
     Model.data_points Model.input_dims].
rewrite !K_unit11 diagonal_mean11 mulr1 -raddfD.
have j1 : 0 < 1 + j by rewrite addr_gt0.
have [l [-> l0 ll]] := cholesky11 j1.
cbv zeta; rewrite /solve_triangular mulmx1 invmx_scalar tr_scalar_mx.
rewrite -scalar_mxM invr1 scale1r -raddfD.
have [t [-> t0 tt]] : exists t, [/\ cholesky ((l^-1 * l^-1 + 1)%:M : 'M[R]_1)
    = Some t%:M, 0 < t & t * t = l^-1 * l^-1 + 1].
  by apply: cholesky11; rewrite ltr_wpDl // mulr_ge0 // invr_ge0 ltW.
exists l, t; split=> //; congr Ok.
have -> : Exact.centered_y (unit_model [::] (Some 0%N) j [:: 0%N; 1%N]) = 0 by [].
rewrite /titsias_value /solve_triangular !mulmx0 scaler0 trmx0 mul0mx.
rewrite !big_ord1 scalar00 tr_scalar_mx -scalar_mxM mxtrace_scalar mulr1n.
rewrite [K_diag _ _ _ _]mxE [(0 : 'M[R]_1) 0 0]mxE ln_1 !divr1 !mulr0 !mulr1.
by rewrite !subr0 addr0.
Qed.

Lemma constant_exact_value j :
  0 <= j ->
  exists e,
    [/\ 0 < e, e * e = 2 + 2 * j
      & outcome (Exact.log_marginal_likelihood constant_store (constant_exact j))
        = Ok (- (2^-1 * ln (2 * PI)) - ln e)].
Proof.
move=> j0.
have [L [_ lpL LL ->]] :=
  @exact_lml_eval constant_store (constant_exact j) 0%N 1%R
    (unit_kernel_valid [::]) erefl erefl erefl ltr01 j0.
move: LL.
cbn [Exact.base constant_exact unit_model Model.kernel Model.X Model.jitter
     Model.data_points Model.input_dims].
rewrite K_unit11 -raddfD diagonal_mean11 -raddfD => LL.
have [e0 _ ee] := factor11 lpL LL.
exists (L 0 0); split=> //; first by rewrite ee; lra.
rewrite /outcome /=; congr Ok.
have -> : Exact.centered_y (unit_model [::] (Some 0%N) j [:: 0%N]) = 0 by [].
by rewrite big_ord1 /cholesky_solve !mulmx0 [(0 : 'M[R]_1) 0 0]mxE mulr1 mulr0 subr0.
Qed.

Lemma ln_inv (x : R) : 0 < x -> ln x^-1 = - ln x.
Proof.
move=> x0; have i0 : 0 < x^-1 by rewrite invr_gt0.
have h := ln_mul i0 x0; move: h.
rewrite -[X in ln X]/(x^-1 * x)%R mulVf ?gt_eqF // ln_1 => h.
by apply/eqP; rewrite -addr_eq0 -h.
Qed.

(** With the same positive jitter in both, the variational value of the
    constant model is above the exact one. *)
Lemma constant_titsias_exceeds_exact j :
  0 < j ->
  exists T E,
    [/\ outcome (Titsias.elbo constant_store (constant_titsias j)) = Ok T,
        outcome (Exact.log_marginal_likelihood constant_store (constant_exact j))
          = Ok E
      & E < T].
Proof.
move=> j0.
have [l [t [l0 ll t0 tt ->]]] := constant_titsias_value j0.
have [e [e0 ee ->]] := constant_exact_value (ltW j0).
do 2!eexists; split=> //.
rewrite (ln_factor t0 tt) (ln_factor e0 ee).
have j1 : 0 < 1 + j by rewrite addr_gt0.
have -> : l^-1 * l^-1 = (1 + j)^-1 by rewrite -invfM ll.
set a := (1 + j)^-1.
have a0 : 0 < a by rewrite invr_gt0.
have a1 : a < 1 by rewrite invf_lt1 // ltrDl.
have -> : 2 + 2 * j = 2 * a^-1 by rewrite /a invrK; lra.
have a2 : 0 < a + 1 by rewrite addr_gt0.
have x0 : 0 < (a + 1) / (2 / a) by rewrite !divr_gt0.
have aa : a * a < a by rewrite -{3}[a]mulr1 ltr_pM2l.
move: (ln (2 * PI)) => c.
have := ln_le_sub1 x0.
rewrite ln_mul ?invr_gt0 ?divr_gt0 // ln_inv ?divr_gt0 // invf_div.
move: (ln (a + 1)) (ln (2 / a)) => u w.
rewrite mulrDl mul1r mulrA.
move: aa; move: (a * a) => q aa h; lra.
Qed.

(** C2, as stated, fails when the exact model has a jitter: for one data
    point at the origin with observation 0, the constant kernel 1, noise
    variance 1, the inducing point at the data point and the default jitter
    [1e-8] in both models, [Titsias.elbo()] is above
    [Exact.log_marginal_likelihood()]. *)
Lemma titsias_elbo_exceeds_jittered_exact :
  exists T E,
    [/\ outcome (Titsias.elbo constant_store (constant_titsias (10 ^- 8)%R)) = Ok T,
        outcome (Exact.log_marginal_likelihood constant_store
                   (constant_exact (10 ^- 8)%R)) = Ok E
      & E < T].
Proof.
by apply: constant_titsias_exceeds_exact; rewrite invr_gt0 exprn_gt0 // ltr0n.
Qed.

(** The constant model with jitter 1 in [Titsias] and none in [Exact]. *)
Lemma titsias_elbo_le_log_evidence_witness :
  exists T E,
    [/\ outcome (Titsias.elbo constant_store (constant_titsias 1%R)) = Ok T,
        outcome (Exact.log_marginal_likelihood constant_store
                   (Exact.mk (with_jitter 0%R (Titsias.base (constant_titsias 1%R)))
                      false)) = Ok E
      & T <= E].
Proof.
have [l [t [_ _ _ _ eT]]] := @constant_titsias_value 1%R ltr01.
have [le eE] :=
  @titsias_elbo_le_log_evidence constant_store (constant_titsias 1%R) 0%N 1%R _
    (unit_kernel_valid [::]) erefl erefl ltr01 ler01 eT.
by do 2!eexists; split; [exact: eT | exact: eE | exact: le].
Defined.

(** ** The full covariance of [Snelson.predict] *)

Lemma bind_not_Ok model A B (c : comp model A) (f : A -> comp model B) :
  (forall a, ~~ is_Ok (outcome (f a))) -> ~~ is_Ok (outcome (bind c f)).
Proof. by move=> nf; rewrite outcome_bind; case: (outcome c). Qed.

Lemma bind_not_NameError model A B (c : comp model A) (f : A -> comp model B) :
  ~~ is_NameError (outcome c) ->
  (forall a, ~~ is_NameError (outcome (f a))) ->
  ~~ is_NameError (outcome (bind c f)).
Proof. by move=> nc nf; rewrite outcome_bind; case: (outcome c) nc. Qed.

Lemma check_input_not_NameError model d X y :
  ~~ is_NameError (@Model._check_input model d X y).
Proof.
rewrite check_input_eq; case: (promoted _) => [[r c]|] //; case: ifP => // _.
case: y => [y|].
  case: (promoted _) => [[r' c']|] //.
  by case: (c' != 1%N) => //; case: (r != r').
by case: d => [d|] //; case: (c != d).
Qed.

Lemma cholesky_not_NameError S (inst : Model.Subclass S) (self : S) n
    (A : 'M[R]_n) b :
  ~~ is_NameError (outcome (Model._cholesky self A b)).
Proof. by rewrite outcome_cholesky; case: (cholesky _). Qed.

Lemma matrix_value_not_NameError model h r d :
  ~~ is_NameError (@matrix_value model h r d).
Proof. by rewrite /matrix_value; case: ifP. Qed.

Lemma likelihood_scale_not_NameError model h l :
  ~~ is_NameError (@likelihood_scale model h l).
Proof. by rewrite /likelihood_scale; case: (l_scale l). Qed.

Lemma index_channel_not_NameError model self value n d (P : 'M[R]_(n, d)) :
  ~~ is_NameError (@Model._index_channel model self value n d P).
Proof.
by rewrite /Model._index_channel /Model.index_select; case: ifP => // _; case: ifP.
Qed.

Lemma add_broadcast_not_NameError model n (v : 'rV[R]_n) t :
  ~~ is_NameError (@add_broadcast model n v t).
Proof. by rewrite /add_broadcast; case: (broadcast _ _ _). Qed.

Lemma sub00 m n (M N : 'M[R]_(m, n)) i j : (M - N) i j = M i j - N i j.
Proof. by rewrite !mxE. Qed.

Lemma column_square_sums_gram m n (v : 'M[R]_(m, n)) i :
  column_square_sums v 0 i = (v^T *m v) i i.
Proof. by rewrite !mxE; apply: eq_bigr => j _; rewrite !mxE expr2. Qed.

(** C8. On a [Snelson] model with a valid kernel, a positive jitter, inducing
    points whose kernel diagonal has a positive mean and a positive scalar
    noise variance, [predict(Xs, full=True)] on a query that [_check_input]
    accepts raises [NameError] for the name [w].  On every model, store and
    query, [predict(Xs, full=True)] returns nothing, and
    [predict(Xs, full=False)] does not raise [NameError]. *)
Theorem snelson_predict_full_raises_name_error (h : store) (self : Snelson.t)
    (Xs : tensor) (Xs' : tensor * option tensor) (as_tensor predict_y : bool)
    (r : ref) (s : R) m (Zm : 'M[R]_(m, Model.input_dims (Snelson.base self))) :
  let base := Snelson.base self in
  let k := Model.kernel base in
  kernel_valid k ->
  0 < Model.jitter base -> 0 < Model.diagonal_mean (K k Zm Zm) ->
  @matrix_value Snelson.t h (Snelson.Z self) (Model.input_dims base)
    = Ok (existT _ m Zm) ->
  l_scale (Model.likelihood base) = Some r ->
  p_value (deref h r) = scalar_tensor s -> 0 < s ->
  @Model._check_input Snelson.t (Some (Model.input_dims base)) Xs None = Ok Xs' ->
  [/\ outcome (Snelson.predict h self Xs true as_tensor predict_y)
        = Raise (NameError "w"),
      forall h1 (self1 : Snelson.t) Xs1 t1 py1,
        ~~ is_Ok (outcome (Snelson.predict h1 self1 Xs1 true t1 py1))
    & forall h1 (self1 : Snelson.t) Xs1 t1 py1,
        ~~ is_NameError (outcome (Snelson.predict h1 self1 Xs1 false t1 py1))].
Proof.
move=> base k vk j0 d0 eZ el ev s0 cX; split.
- set P := Model.X base.
  have pK : possemidef (K k Zm Zm) by case: vk => _; apply.
  have [sU pU] := jitter_semidef_posdef (K_sym Zm vk) pK j0 d0.
  have [Luu [_ eC lpU LU]] := @cholesky_succeeds _ _ self _ (K k Zm Zm) true sU pU.
  have e0 : 0 <= Model.jitter base * Model.diagonal_mean (K k Zm Zm).
    by rewrite mulr_ge0 // ltW.
  have psd := inducing_residual P vk e0 lpU LU.
  set v := solve_triangular Luu (K k Zm P) in psd.
  pose g : 'rV[R]_(Model.data_points base) :=
    K_diag k P - column_square_sums v + const_mx s.
  have g0 i : 0 <= g 0 i.
    rewrite /g add00 sub00 K_diagE column_square_sums_gram [const_mx _ _ _]mxE.
    by rewrite addr_ge0 ?(ltW s0) // -sub00; exact: possemidef_diag_ge0.
  pose G := diag_mx (map_mx (fun x => 1 / x) g).
  have sB : symmetric (v *m G *m v^T + 1%:M).
    by apply: symmetricD; [exact/symmetric_congr/symmetric_diag
                          | exact: symmetric_scalar].
  have pB : posdef (v *m G *m v^T + 1%:M).
    apply: posdefDl; last exact: posdef_scalar.
    apply/possemidef_congr/possemidef_diag => i.
    by rewrite mxE divr_ge0.
  have [L [_ eC2 _ _]] := @cholesky_succeeds _ _ self _ _ false sB pB.
  rewrite /Snelson.predict cX bind_lift_Ok eZ bind_lift_Ok; cbn [projT1 projT2].
  rewrite outcome_bind [Model._cholesky _ _ _]eC; cbn [outcome snd].
  rewrite /likelihood_scale el ev bind_lift_Ok index_channel_scalar bind_lift_Ok.
  rewrite add_broadcast_scalar bind_lift_Ok.
  by rewrite outcome_bind [Model._cholesky _ _ _]eC2.
- move=> h1 self1 Xs1 t1 py1; rewrite /Snelson.predict.
  by do 7![apply: bind_not_Ok => ?].
- move=> h1 self1 Xs1 t1 py1; rewrite /Snelson.predict.
  apply: bind_not_NameError => [|?]; first exact: check_input_not_NameError.
  apply: bind_not_NameError => [|?]; first exact: matrix_value_not_NameError.
  apply: bind_not_NameError => [|?]; first exact: cholesky_not_NameError.
  apply: bind_not_NameError => [|?]; first exact: likelihood_scale_not_NameError.
  apply: bind_not_NameError => [|?]; first exact: index_channel_not_NameError.
  apply: bind_not_NameError => [|?]; first exact: add_broadcast_not_NameError.
  apply: bind_not_NameError => [|?]; first exact: cholesky_not_NameError.
  apply: bind_not_NameError => [|?] //; case: py1 => //.
  apply: bind_not_NameError => [|?]; first exact: likelihood_scale_not_NameError.
  apply: bind_not_NameError => [|?]; first exact: index_channel_not_NameError.
  exact: add_broadcast_not_NameError.
Qed.

(** The constant model with jitter 1, queried at the origin. *)
Lemma snelson_predict_full_raises_name_error_witness :
  outcome (Snelson.predict constant_store (constant_snelson 1%R)
             (Tensor [:: 1%N; 1%N] [:: 0]) true false true)
  = Raise (NameError "w").
Proof.
have eZ : @matrix_value Snelson.t constant_store (Snelson.Z (constant_snelson 1%R))
            (Model.input_dims (Snelson.base (constant_snelson 1%R)))
          = Ok (existT _ 1%N (0 : 'M[R]_(1, 1))).
  by rewrite /matrix_value /= mx_of_tensorK.
have d0 : 0 < Model.diagonal_mean
               (K (Model.kernel (Snelson.base (constant_snelson 1%R)))
                  (0 : 'M[R]_(1, 1)) 0).
  by rewrite K_unit11 diagonal_mean11.
have cX : @Model._check_input Snelson.t
            (Some (Model.input_dims (Snelson.base (constant_snelson 1%R))))
            (Tensor [:: 1%N; 1%N] [:: 0]) None
          = Ok (Tensor [:: 1%N; 1%N] [:: 0], None).
  by rewrite check_input_eq.
by have [] := @snelson_predict_full_raises_name_error constant_store
  (constant_snelson 1%R) _ _ false true 0%N 1%R _ _ (unit_kernel_valid [::])
  ltr01 d0 eZ erefl erefl ltr01 cX.
Defined.

(** ** The registry of a model without inducing points *)

(** The construction without inducing points succeeds on the unit model, and
    there [Z] is not registered. *)
Lemma sparse_hensman_registry_witness :
  exists (self : SparseHensman.t) (h' : store),
  [/\ all (fun r => (r < size ([::] : store))%N)
        (owned_refs (unit_kernel [::]) (plain_likelihood None) None),
      @SparseHensman.__init__ unit (mkConfig OtherDtype (10 ^- 8))
        (unit_kernel [::]) (Tensor [:: 1%N; 1%N] [:: 0])
        (Tensor [:: 1%N; 1%N] [:: 0]) None (plain_likelihood None) (10 ^- 8)
        None None [::]
      = Ok (self, h')
    & (SparseHensman.Z self \in Model.get_parameters (SparseHensman.base self))
      = false].
Proof.
have [[self h'] E] : {sh | @SparseHensman.__init__ unit (mkConfig OtherDtype (10 ^- 8))
        (unit_kernel [::]) (Tensor [:: 1%N; 1%N] [:: 0])
        (Tensor [:: 1%N; 1%N] [:: 0]) None (plain_likelihood None) (10 ^- 8)
        None None [::] = Ok sh}.
  by eexists; rewrite /SparseHensman.__init__ /Model.__init__ check_input_eq /=.
have wf : all (fun r => (r < size ([::] : store))%N)
        (owned_refs (unit_kernel [::]) (plain_likelihood None) None) by [].
exists self, h'; split; [exact: wf | exact: E |].
by have [-> -> _ _ _] := sparse_hensman_registry wf E.
Defined.

(** * Further properties of the models *)

(** ** The collapsed bound of [Titsias] *)

(** The products of two whitened cross-covariances go through the inverse
    of the factorized matrix. *)
Lemma nystrom_cross m n1 n2 (Luu A : 'M[R]_m) (B1 : 'M[R]_(m, n1))
    (B2 : 'M[R]_(m, n2)) :
  lower_pos Luu -> Luu *m Luu^T = A ->
  (solve_triangular Luu B1)^T *m solve_triangular Luu B2
  = B1^T *m invmx A *m B2.
Proof.
move=> lpL <-; rewrite /solve_triangular trmx_mul invmx_gram ?unit_lower_pos //.
by rewrite !mulmxA.
Qed.

Lemma nystrom_gram m n (Luu A : 'M[R]_m) (B : 'M[R]_(m, n)) :
  lower_pos Luu -> Luu *m Luu^T = A ->
  (solve_triangular Luu B)^T *m solve_triangular Luu B = B^T *m invmx A *m B.
Proof. exact: nystrom_cross. Qed.

Lemma scaled_gram_posdef m n (s : R) (v : 'M[R]_(m, n)) :
  0 < s ->
  symmetric (s^-1 *: (v *m v^T) + 1%:M) /\ posdef (s^-1 *: (v *m v^T) + 1%:M).
Proof.
move=> s0; split.
  apply: symmetricD; last exact: symmetric_scalar.
  by rewrite /symmetric linearZ /= symmetric_gram.
apply: posdefDl; last exact: posdef_scalar.
move=> x; rewrite qformZ mulr_ge0 ?invr_ge0 ?(ltW s0) //.
exact: possemidef_gram.
Qed.

(** The two factorizations of [Titsias] succeed when the matrix of the
    inducing points, with the jitter, is positive definite. *)
Lemma titsias_factors k m n d (Zm : 'M[R]_(m, d)) (P : 'M[R]_(n, d)) (j s : R) :
  let Kuu' := K k Zm Zm + (j * Model.diagonal_mean (K k Zm Zm))%:M in
  kernel_valid k -> 0 < s -> posdef Kuu' ->
  exists Luu L,
    let v := solve_triangular Luu (K k Zm P) in
    let B := s^-1 *: (v *m v^T) + 1%:M in
    [/\ cholesky Kuu' = Some Luu, lower_pos Luu, Luu *m Luu^T = Kuu',
        cholesky B = Some L & lower_pos L /\ L *m L^T = B].
Proof.
move=> Kuu' vk s0 pK.
have sK : symmetric Kuu' by exact/symmetricD/symmetric_scalar/K_sym.
have [Luu eC1] := cholesky_complete sK pK.
have [tLuu dLuu LLuu] := cholesky_sound sK eC1.
have [sB pB] := scaled_gram_posdef (solve_triangular Luu (K k Zm P)) s0.
have [L eC2] := cholesky_complete sB pB.
have [tL dL LL] := cholesky_sound sB eC2.
by exists Luu, L; split.
Qed.

(** X1. With a valid kernel, a scalar noise variance [s > 0] and inducing
    points whose kernel matrix, with the jitter, is positive definite,
    [Titsias.elbo()] returns the logarithm of the Gaussian density of [y]
    under the covariance [Q + s I], where [Q] is the Nystrom approximation
    [Kfu (Kuu + jitter)^-1 Kuf] of [Kff], less the trace penalty
    [(tr Kff - tr Q) / (2 s)]: the expression of the comment in the code. *)
Theorem titsias_elbo_collapsed (h : store) (self : Titsias.t) (r : ref)
    (s : R) m (Zm : 'M[R]_(m, Model.input_dims (Titsias.base self))) :
  let base := Titsias.base self in
  let k := Model.kernel base in
  let P := Model.X base in
  let n := Model.data_points base in
  let y := Exact.centered_y base in
  let Kuu := K k Zm Zm in
  let Kuu' := Kuu + (Model.jitter base * Model.diagonal_mean Kuu)%:M in
  let Q := (K k Zm P)^T *m invmx Kuu' *m K k Zm P in
  kernel_valid k ->
  @matrix_value Titsias.t h (Titsias.Z self) (Model.input_dims base)
    = Ok (existT _ m Zm) ->
  l_scale (Model.likelihood base) = Some r ->
  p_value (deref h r) = scalar_tensor s ->
  0 < s -> posdef Kuu' ->
  outcome (Titsias.elbo h self)
  = Ok (- (2^-1 * n%:R * ln (2 * PI)) - 2^-1 * ln (\det (Q + s%:M))
        - 2^-1 * qform (invmx (Q + s%:M)) y
        - 2^-1 * (\tr (K k P P) - \tr Q) / s).
Proof.
move=> base k P n y Kuu Kuu' Q vk eZ el ev s0 pK.
rewrite (titsias_elbo_outcome eZ el ev) -/Kuu -/Kuu'.
have [Luu [L [eC1 lpLuu LLuu eC2 [lpL LL]]]] :=
  @titsias_factors k _ _ _ Zm P (Model.jitter base) s vk s0 pK.
rewrite eC1; cbv zeta; rewrite eC2; congr (Ok _).
set v := solve_triangular Luu _ in LL *.
have eQ : Q = v^T *m v by rewrite (nystrom_gram _ lpLuu LLuu).
have h1 := low_rank_logdet s0 lpL LL.
have h2 := low_rank_quad y s0 lpL LL.
rewrite eQ [v^T *m v + _]addrC h1 h2 [\tr (v^T *m v)]mxtrace_mulC.
rewrite /titsias_value K_diag_trace /dot /solve_triangular; cbv beta zeta.
rewrite -/base -/P -/y -/n.
move: (\sum_i _) (ln s) ((y^T *m y) 0 0) (((s^-1 *: _)^T *m _) 0 0)
  (\tr _ - \tr _) (ln (2 * PI)) (n%:R) => a1 a2 a3 a4 a5 a8 a9.
rewrite -!mulrA.
by move: (a9 * a2) (a9 * a8) (a3 / s) (a5 / s) => b1 b2 b3 b4; lra.
Qed.

Lemma constant_titsias_posdef (j : R) :
  0 < j ->
  let base := Titsias.base (constant_titsias j) in
  let Kuu := K (Model.kernel base) (0 : 'M[R]_(1, Model.input_dims base)) 0 in
  posdef (Kuu + (Model.jitter base * Model.diagonal_mean Kuu)%:M).
Proof.
move=> j0 base Kuu.
have vk := unit_kernel_valid [::].
apply: (proj2 (jitter_semidef_posdef _ _ j0 _)).
- exact: (K_sym _ vk).
- by case: vk => _; apply.
- by rewrite /Kuu K_unit11 diagonal_mean11 ltr01.
Qed.

(** The constant model with jitter 1. *)
Lemma titsias_elbo_collapsed_witness :
  exists T, outcome (Titsias.elbo constant_store (constant_titsias 1%R)) = Ok T.
Proof.
eexists.
exact: (@titsias_elbo_collapsed constant_store (constant_titsias 1%R) 0%N 1%R
          1%N 0 (unit_kernel_valid [::]) (constant_titsias_Z 1%R) erefl erefl
          ltr01 (constant_titsias_posdef ltr01)).
Defined.

(** ** The divergence of [SparseHensman] *)

Lemma ln_lt_sub1 (x : R) : 0 < x -> x != 1 -> ln x < x - 1.
Proof.
move=> /RltP hx x1; apply/RltP.
have nz : Rminus x 1 <> 0%R.
  by move=> e; move: x1; rewrite -subr_eq0 => /eqP; apply.
have h := @exp_ineq1 _ nz.
have e : Rplus 1 (Rminus x 1) = x by Lra.lra.
by rewrite e in h; have := ln_increasing _ _ hx h; rewrite ln_exp.
Qed.

Lemma dot_eq0 n (x : 'cV[R]_n) : dot x x = 0 -> x = 0.
Proof.
move=> e; apply/eqP; apply/negPn/negP => /dot_gt0.
by rewrite e ltxx.
Qed.

(** The divergence as a sum of terms that are not negative. *)
Lemma kl_gaussian_split n (q_mu : 'cV[R]_n) (q_sqrt : 'M[R]_n) :
  SparseHensman.kl_gaussian q_mu q_sqrt
  = 2^-1 * (dot q_mu q_mu
            + \sum_i (q_sqrt i i ^+ 2 - 1 - ln (q_sqrt i i ^+ 2))).
Proof.
rewrite /SparseHensman.kl_gaussian /dot; cbv zeta; congr (_ * _).
under eq_bigr do rewrite mxE.
under [X in _ + X]eq_bigr do rewrite mxE.
rewrite !big_split /= !sumrN sumr_const card_ord.
move: (\sum_i ln _) (\sum_i _ ^+ 2) ((_ *m _) 0 0) (n%:R) => a b c d.
by lra.
Qed.

(** X2. With a [q_sqrt] whose diagonal has no zero, [kl_gaussian] is not
    negative, and it is zero exactly for [q_mu = 0] and a diagonal of
    [q_sqrt] of entries 1 or -1: its entries off the diagonal play no role. *)
Theorem kl_gaussian_ge0 n (q_mu : 'cV[R]_n) (q_sqrt : 'M[R]_n) :
  (forall i, q_sqrt i i != 0) ->
  0 <= SparseHensman.kl_gaussian q_mu q_sqrt /\
  (SparseHensman.kl_gaussian q_mu q_sqrt = 0 <->
   q_mu = 0 /\ forall i, q_sqrt i i ^+ 2 = 1).
Proof.
move=> nz; rewrite kl_gaussian_split.
have p0 i : 0 < q_sqrt i i ^+ 2 by rewrite exprn_even_gt0 //= nz.
have g0 i : 0 <= q_sqrt i i ^+ 2 - 1 - ln (q_sqrt i i ^+ 2).
  by rewrite subr_ge0 ln_le_sub1.
have s0 : 0 <= \sum_i (q_sqrt i i ^+ 2 - 1 - ln (q_sqrt i i ^+ 2)).
  exact: sumr_ge0.
have d0 := dot_ge0 q_mu.
split; first by rewrite mulr_ge0 ?invr_ge0 ?ler0n // addr_ge0.
split=> [/eqP|[-> e1]]; last first.
  rewrite /dot mulmx0 mxE big1 ?addr0 ?mulr0 // => i _.
  by rewrite e1 ln_1 !subrr.
rewrite mulf_eq0 invr_eq0 pnatr_eq0 /= paddr_eq0 // => /andP[/eqP e /eqP es].
split; first exact: dot_eq0.
move=> i; apply/eqP; apply/negPn/negP => ne1.
have : 0 < q_sqrt i i ^+ 2 - 1 - ln (q_sqrt i i ^+ 2).
  by rewrite subr_gt0 ln_lt_sub1.
have /psumr_eq0P : \sum_i (q_sqrt i i ^+ 2 - 1 - ln (q_sqrt i i ^+ 2)) = 0 := es.
by move=> /(_ (fun i _ => g0 i) i isT) ->; rewrite ltxx.
Qed.

(** A column of one zero with the identity of size 1. *)
Lemma kl_gaussian_ge0_witness :
  0 <= SparseHensman.kl_gaussian (0 : 'cV[R]_1) 1%:M /\
  (SparseHensman.kl_gaussian (0 : 'cV[R]_1) 1%:M = 0 <->
   (0 : 'cV[R]_1) = 0 /\ forall i : 'I_1, (1%:M : 'M[R]_1) i i ^+ 2 = 1).
Proof.
apply: kl_gaussian_ge0 => i.
by rewrite mxE eqxx oner_neq0.
Defined.

Lemma tril_is_trig n (A : 'M[R]_n) : is_trig_mx (tril A).
Proof.
by apply/is_trig_mxP => i j lt; rewrite mxE leqNgt lt.
Qed.

Lemma tril_diag n (A : 'M[R]_n) i : tril A i i = A i i.
Proof. by rewrite mxE leqnn. Qed.

Lemma logdet_tril_gram n (A : 'M[R]_n) :
  (forall i, A i i != 0) ->
  ln (\det (tril A *m (tril A)^T)) = \sum_i ln (A i i ^+ 2).
Proof.
move=> nz; rewrite det_mulmx det_tr det_trig ?tril_is_trig // -big_split /=.
have p0 (i : 'I_n) : xpredT i -> 0 < tril A i i * tril A i i.
  by move=> _; rewrite tril_diag -expr2 exprn_even_gt0 //= nz.
have [_ ->] := ln_prod (index_enum _) p0.
by apply: eq_bigr => i _; rewrite tril_diag expr2.
Qed.

Lemma trace_tril_gram n (A : 'M[R]_n) :
  \tr (tril A *m (tril A)^T)
  = \sum_i A i i ^+ 2 + \sum_(i < n) \sum_(j < n | (j < i)%N) A i j ^+ 2.
Proof.
rewrite /mxtrace -big_split /=; apply: eq_bigr => i _.
rewrite diag_gram (bigD1 i) //= tril_diag; congr (_ + _).
rewrite big_mkcond [RHS]big_mkcond /=; apply: eq_bigr => j _.
rewrite mxE; case: ltngtP => [lt|gt|/val_inj ->]; rewrite ?eqxx //=.
- by rewrite neq_ltn lt.
- by rewrite expr0n; case: (_ != _).
Qed.

(** X3. [kl_gaussian] against the divergence of the Gaussian of mean [q_mu]
    and covariance [T T^T], [T] the lower triangle of [q_sqrt] the models
    use, from the standard Gaussian: the value of the code is that divergence
    less half the sum of the squares of the entries of [q_sqrt] strictly
    under the diagonal, since its trace term only sums the squared diagonal.
    The two agree when [q_sqrt] is diagonal. *)
Theorem kl_gaussian_trace_of_diagonal n (q_mu : 'cV[R]_n) (q_sqrt : 'M[R]_n) :
  (forall i, q_sqrt i i != 0) ->
  let T := tril q_sqrt in
  SparseHensman.kl_gaussian q_mu q_sqrt
  = 2^-1 * (\tr (T *m T^T) + (q_mu^T *m q_mu) 0 0 - n%:R
            - ln (\det (T *m T^T)))
    - 2^-1 * \sum_(i < n) \sum_(j < n | (j < i)%N) q_sqrt i j ^+ 2.
Proof.
move=> nz T; rewrite /T logdet_tril_gram // trace_tril_gram.
rewrite /SparseHensman.kl_gaussian; cbv zeta.
under eq_bigr do rewrite mxE.
under [X in (_ + X)%R]eq_bigr do rewrite mxE.
move: (\sum_i ln _) (\sum_i _ ^+ 2) ((_ *m _) 0 0) (n%:R)
  (\sum_(i < n) \sum_(j < n | _) _) => a b c d e.
by lra.
Qed.

(** A lower triangular [q_sqrt] of size 2 with a nonzero entry under the
    diagonal. *)
Lemma kl_gaussian_trace_of_diagonal_witness :
  let q_sqrt : 'M[R]_2 := \matrix_(i, j) if (j <= i)%N then 1 else 0 in
  let T := tril q_sqrt in
  SparseHensman.kl_gaussian (0 : 'cV[R]_2) q_sqrt
  = 2^-1 * (\tr (T *m T^T) + ((0 : 'cV[R]_2)^T *m (0 : 'cV[R]_2)) 0 0 - 2%:R
            - ln (\det (T *m T^T)))
    - 2^-1 * \sum_(i < 2) \sum_(j < 2 | (j < i)%N) q_sqrt i j ^+ 2.
Proof.
apply: kl_gaussian_trace_of_diagonal => i.
by rewrite mxE leqnn oner_neq0.
Defined.

(** ** The walk of the registry *)

(** The walk only renames: what a Parameter holds besides its name is read
    the same before and after. *)
Lemma register_parameters_field A (g : Param -> A) obj name st k :
  (forall nm p, g (set_name nm p) = g p) ->
  g (deref (_register_parameters obj name st).1 k) = g (deref st.1 k).
Proof.
move=> hg; move: obj name st; fix IH 1; case=> [r|items|oname dict|v] name st /=.
- by rewrite deref_update; case: ifP => // /andP [/eqP -> _].
- move: 0%N; elim: items st => [|v vs IHvs] st i //=.
  by rewrite IHvs IH.
- elim: dict st => [|v vs IHvs] st //=.
  by rewrite IHvs IH.
- by [].
Qed.

(** A Parameter the object does not reach is left as it is. *)
Lemma register_parameters_frame obj name st k :
  k \notin refs_of obj ->
  deref (_register_parameters obj name st).1 k = deref st.1 k.
Proof.
move: obj name st; fix IH 1; case=> [r|items|oname dict|v] name st /=.
- by rewrite inE deref_update => /negbTE ->.
- move: 0%N; elim: items st => [|v vs IHvs] st i //=.
  by rewrite mem_cat negb_or => /andP [n1 n2]; rewrite IHvs // IH.
- elim: dict st => [|v vs IHvs] st //=.
  by rewrite mem_cat negb_or => /andP [n1 n2]; rewrite IHvs // IH.
- by [].
Qed.

(** X4. [_register_parameters] appends to the registry the Parameters the
    object reaches, in the order of the walk and once per path that reaches
    them; it creates no Parameter, leaves alone those the object does not
    reach, and of those it reaches it changes the name only. *)
Theorem register_parameters_walk (obj : pyobj) (name : option string)
    (st : registry) :
  let st' := _register_parameters obj name st in
  [/\ st'.2 = st.2 ++ refs_of obj,
      size st'.1 = size st.1,
      forall k, k \notin refs_of obj -> deref st'.1 k = deref st.1 k
    & forall k nm, set_name nm (deref st'.1 k) = set_name nm (deref st.1 k)].
Proof.
move=> st'; have [e1 e2] := register_parameters_refs obj name st.
split=> // [k nk|k nm]; first exact: register_parameters_frame.
exact: (register_parameters_field (g := set_name nm)).
Qed.

(** X5. The names the walk of a kernel, mean or likelihood gives: when every
    attribute of the object is a Parameter or plain data, a Parameter takes
    the name of the object (after the prefix the walk was called with), a dot
    and its own name, whatever the attribute that holds it; a Parameter that
    several attributes hold is renamed once per attribute, so that its name
    gets the prefix as many times. *)
Theorem register_parameters_names (oname : string)
    (dict : seq (string * pyobj)) (name : option string) (st : registry)
    (r : ref) :
  all (fun v => if v.2 is PParameter _ then true
                else if v.2 is PData _ then true else false) dict ->
  (r < size st.1)%N ->
  p_name (deref (_register_parameters (PModule oname dict) name st).1 r)
  = iter (count_mem r (refs_of (PModule oname dict)))
      (fun own => Some (register_name own (Some (member_name name oname))))
      (p_name (deref st.1 r)).
Proof.
rewrite [refs_of _]/= [_register_parameters _ _ _]/=.
move: (member_name name oname) => pfx.
elim: dict st => [|[k [r'|items|on d|v]] vs IHvs] st //= flat rh.
- rewrite IHvs ?size_update //= deref_update addnC iterD [r' == r]eq_sym.
  by case: eqP => [e|//]; rewrite -e rh.
- by rewrite IHvs.
Qed.

(** A kernel with one Parameter under two attributes. *)
Lemma register_parameters_names_witness :
  p_name (deref (_register_parameters
                   (PModule "k" [:: ("a"%string, PParameter 0%N);
                                    ("b"%string, PParameter 0%N)]) None
                   ([:: new_Param (scalar_tensor 1%R) (Some "w"%string) None true],
                    [::])).1 0%N)
  = Some "k.k.w"%string.
Proof.
by rewrite register_parameters_names.
Defined.

(** ** The factorization under the jitter *)

Lemma lower_pos_gram_diag n (L : 'M[R]_n) i : lower_pos L -> 0 < (L *m L^T) i i.
Proof.
case=> _ pL; rewrite diag_gram (bigD1 i) //=.
apply: ltr_wpDr; last by rewrite exprn_gt0.
by apply: sumr_ge0 => j _; rewrite sqr_ge0.
Qed.

(** X6. On a symmetric positive semi-definite matrix that is not empty, with
    a positive jitter, [_cholesky(K, add_jitter=True)] returns exactly when
    the diagonal of [K] is not zero: it then returns the factor of [K] with
    the jitter on its diagonal; when the diagonal is zero the jitter, being
    relative to its mean, adds nothing, and [CholeskyException] is raised. *)
Theorem cholesky_jitter_semidefinite S (inst : Model.Subclass S) (self : S)
    n (A : 'M[R]_n.+1) :
  let A' := A + (Model.jitter (Model.super self) * Model.diagonal_mean A)%:M in
  symmetric A -> possemidef A -> 0 < Model.jitter (Model.super self) ->
  if 0 < Model.diagonal_mean A then
    exists L, [/\ outcome (Model._cholesky self A true) = Ok L,
                  lower_pos L & L *m L^T = A']
  else
    A' = A /\
    outcome (Model._cholesky self A true)
    = Raise (CholeskyException Model.cholesky_message A' self).
Proof.
move=> A' sA pA j0; case: ifP => [d0|/negbT].
  have [sA' pA'] := jitter_semidef_posdef sA pA j0 d0.
  have [L [_ eL lpL LL]] := @cholesky_succeeds S inst self _ A true sA' pA'.
  by exists L; split=> //; rewrite /outcome eL.
rewrite -leNgt => d0.
have e0 : Model.diagonal_mean A = 0.
  by apply/eqP; rewrite eq_le d0 diagonal_mean_ge0.
have eA : A' = A by rewrite /A' e0 mulr0 raddf0 addr0.
split=> //; rewrite outcome_cholesky -/A'.
case eC: (cholesky A') => [L|] //.
have sA' : symmetric A' by rewrite eA.
have [tL dL LL] := cholesky_sound sA' eC.
have := @lower_pos_gram_diag _ L 0 (conj tL dL); rewrite LL eA.
have /psumr_eq0P z : \sum_i A i i = 0.
  move/eqP: e0; rewrite /Model.diagonal_mean mulf_eq0 invr_eq0 pnatr_eq0 /=.
  by rewrite orbF => /eqP.
by rewrite (z (fun i _ => possemidef_diag_ge0 i pA) ord0 isT) ltxx.
Qed.

(** The matrix of one entry 1 in the model of one data point, with jitter 1. *)
Lemma cholesky_jitter_semidefinite_witness :
  let self := unit_model [::] None 1%R [::] in
  let A : 'M[R]_1 := 1%:M in
  exists L, [/\ outcome (Model._cholesky self A true) = Ok L,
                lower_pos L
              & L *m L^T = A + (Model.jitter self * Model.diagonal_mean A)%:M].
Proof.
move=> self A.
have sA : symmetric A by exact: symmetric_scalar.
have pA : possemidef A by apply: possemidef_scalar; exact: ler01.
have := @cholesky_jitter_semidefinite _ Model.Model_Subclass self _ A sA pA ltr01.
by rewrite diagonal_mean11 ltr01.
Defined.

(** ** The validation of inputs *)

(** X7. What [_check_input] returns it accepts again, and returns unchanged:
    validating twice is validating once. *)
Theorem check_input_idempotent (model : Type) (d : option nat)
    (X : tensor) (y : option tensor) (X' : tensor) (y' : option tensor) :
  @Model._check_input model d X y = Ok (X', y') ->
  @Model._check_input model d X' y' = Ok (X', y').
Proof.
rewrite !check_input_eq.
case: (promoted (shape X)) => [[r c]|] //; case e0: (_ || _) => //.
case: y => [y|]; last first.
  case: d => [d|] //; case cd: (c != d) => // -[<- <-] /=.
  by rewrite e0 cd.
case: (promoted (shape y)) => [[r' c']|] //.
case c1: (c' != 1%N) => //; case rr: (r != r') => // -[<- <-] /=.
by rewrite e0 c1 rr.
Qed.

(** Six numbers as three rows, with their three outputs. *)
Lemma check_input_idempotent_witness :
  let X := Tensor [:: 3%N; 2%N] [:: 0; 0; 0; 0; 0; 0] in
  let y := Tensor [:: 3%N] [:: 0; 0; 0] in
  let X' := X in
  let y' := Tensor [:: 3%N; 1%N] [:: 0; 0; 0] in
  @Model._check_input unit None X' (Some y') = Ok (X', Some y').
Proof.
move=> X y X' y'.
by apply: (@check_input_idempotent unit None X (Some y)); rewrite check_input_eq.
Defined.

(** ** The selection of per-channel values *)

Lemma take1_drop (xs : seq R) k :
  (k < size xs)%N -> take 1 (drop k xs) = [:: nth 0 xs k].
Proof.
elim: xs k => [|x xs IH] [|k] //=; first by rewrite take0.
by rewrite ltnS => /IH.
Qed.

Lemma flatten_slices (xs : seq R) (zs : seq Z) :
  all (fun z : Z => Z.leb 0 z && (Z.to_nat z < size xs)%N) zs ->
  flatten [seq take 1 (drop (Z.to_nat z * 1) xs) | z <- zs]
  = [seq nth 0 xs (Z.to_nat z) | z <- zs].
Proof.
elim: zs => [|z zs IH] //= /andP [/andP [_ lt] /IH ->].
by rewrite muln1 take1_drop.
Qed.

Lemma first_column0 n d (X : 'M[R]_(n, d.+1)) i :
  Model.first_column X i = X i 0.
Proof.
rewrite /Model.first_column; case: insubP => [j _ ej|]; last by rewrite ltn0Sn.
by congr (X i _); apply: val_inj.
Qed.

(** X8. With several output dimensions, [_index_channel] on a value with one
    entry per channel returns, for each row of [X], the entry of the channel
    that the first coordinate of the row names, truncated towards zero to an
    integer; it raises [IndexError] as soon as one row names a channel that is
    negative or not below the number of channels. *)
Theorem index_channel_selects (model : Type) (self : Model.t) (xs : seq R)
    n d (X : 'M[R]_(n, d.+1)) :
  let c := output_dims (Model.kernel self) in
  let channel (i : 'I_n) := Model.long (X i 0) in
  (1 < c)%N -> size xs = c ->
  @Model._index_channel model self (Tensor [:: c] xs) n d.+1 X =
  if all (fun i => Z.leb 0 (channel i) && (Z.to_nat (channel i) < c)%N)
       (enum 'I_n)
  then Ok (Tensor [:: n] [seq nth 0 xs (Z.to_nat (channel i)) | i <- enum 'I_n])
  else Raise (IndexError "index out of range in self").
Proof.
move=> c channel c1 sz.
rewrite /Model._index_channel -/c c1 /ndim /dim /= eqxx /Model.index_select.
rewrite /dim /= big_nil all_map.
have ea : preim (fun i : 'I_n => Model.long (Model.first_column X i))
            (fun z : Z => Z.leb 0 z && (Z.to_nat z < c)%N)
          =1 (fun i => Z.leb 0 (channel i) && (Z.to_nat (channel i) < c)%N).
  by move=> i /=; rewrite first_column0.
rewrite (eq_all ea).
case: ifP => // ok; rewrite size_map size_enum_ord; congr (Ok (Tensor _ _)).
rewrite flatten_slices.
  by rewrite all_map sz; apply: sub_all ok => i /=; rewrite first_column0.
by rewrite -map_comp; apply: eq_map => i /=; rewrite first_column0.
Qed.

(** Two channels with the values 5 and 7, and the rows of channel 1 and 0. *)
Lemma index_channel_selects_witness :
  let k := mkKernel "kernel" [::] 2 (fun _ _ _ => 1) in
  let self := @Model.mk 1 1 k 0 0 (plain_likelihood None) 0 None None [::] in
  let X : 'M[R]_(2, 1) := \matrix_(i, j) (if i == 0 :> nat then 1 else 0) in
  @Model._index_channel unit self (Tensor [:: 2%N] [:: 5%:R; 7%:R]) 2 1 X
  = if all (fun i : 'I_2 => Z.leb 0 (Model.long (X i ord0))
                     && (Z.to_nat (Model.long (X i ord0)) < 2)%N)
         (enum 'I_2)
    then Ok (Tensor [:: 2%N]
               [seq nth 0 [:: 5%:R; 7%:R] (Z.to_nat (Model.long (X i ord0)))
               | i <- enum 'I_2])
    else Raise (IndexError "index out of range in self").
Proof.
move=> k self X.
exact: (@index_channel_selects unit self [:: 5%:R; 7%:R] 2 0 X isT erefl).
Defined.

(** ** The predictions of [Exact] *)

Lemma likelihood_scale_scalar model h (l : Likelihood) r s :
  l_scale l = Some r -> p_value (deref h r) = scalar_tensor s ->
  @likelihood_scale model h l = Ok (scalar_tensor s).
Proof. by move=> el ev; rewrite /likelihood_scale el ev. Qed.

(** X9. With a valid kernel, a scalar noise variance [s > 0] and a jitter that
    is not negative, [Exact.predict] on a query that [_check_input] accepts
    returns the posterior of the Gaussian process: the mean
    [Ksf A^-1 y], plus the mean function at the query if there is one, and
    the covariance [Kss - Ksf A^-1 Kfs], where [A] is [Kff + s I] with the
    jitter; [predict_y] adds [s] to the diagonal, and without [full] the
    diagonal of that covariance is returned.  The covariance of the function
    values is positive semi-definite. *)
Theorem exact_predict_posterior (h : store) (self : Exact.t) (r : ref) (s : R)
    (Xs : tensor) (Xs' : tensor * option tensor)
    (full as_tensor predict_y : bool) :
  let base := Exact.base self in
  let k := Model.kernel base in
  let P := Model.X base in
  let Q : 'M[R]_(dim Xs'.1 0, Model.input_dims base) := mx_of_tensor _ _ Xs'.1 in
  let Ks := K k P P + s%:M in
  let A := Ks + (Model.jitter base * Model.diagonal_mean Ks)%:M in
  let mu0 := (K k P Q)^T *m invmx A *m Exact.centered_y base in
  let mu := if Model.mean base is Some mn then mu0 + mean_col mn Q else mu0 in
  let V := K k Q Q - (K k P Q)^T *m invmx A *m K k P Q in
  let Vy := if predict_y then V + s%:M else V in
  kernel_valid k -> Exact.variance_per_data self = false ->
  l_scale (Model.likelihood base) = Some r ->
  p_value (deref h r) = scalar_tensor s ->
  0 < s -> 0 <= Model.jitter base ->
  @Model._check_input Exact.t (Some (Model.input_dims base)) Xs None = Ok Xs' ->
  outcome (Exact.predict h self Xs full as_tensor predict_y)
  = Ok (tensor_of_mx mu,
        if full then tensor_of_mx Vy else tensor_of_mx (\col_i Vy i i))
  /\ possemidef V.
Proof.
move=> base k P Q Ks A mu0 mu V Vy vk vpd el ev s0 j0 cX.
have [sKs pKs] := @noisy_posdef k _ _ P s vk s0.
have [sA pA] := jitter_posdef sKs pKs j0.
have [L [_ eC lpL LL]] := @cholesky_succeeds _ _ self _ Ks true sA pA.
have eV : (solve_triangular L (K k P Q))^T *m solve_triangular L (K k P Q)
          = (K k P Q)^T *m invmx A *m K k P Q.
  exact: nystrom_gram.
split; last first.
  have m0 : 0 <= Model.diagonal_mean Ks.
    by apply: diagonal_mean_ge0; apply: posdef_semidef.
  have e0 : 0 <= s + Model.jitter base * Model.diagonal_mean Ks.
    by apply: addr_ge0; [exact: ltW | exact: mulr_ge0].
  have := @inducing_residual k _ _ _ P Q _ L vk e0 lpL.
  rewrite raddfD /= addrA -/Ks eV; apply.
  exact: LL.
rewrite /Exact.predict vpd andFb cX bind_lift_Ok.
rewrite (exact_noisy_Kff vpd el ev) bind_lift_Ok -/base -/k -/P -/Ks.
rewrite [Model._cholesky _ _ _]eC outcome_bind /outcome.
cbv beta iota zeta; cbn [snd].
rewrite (likelihood_scale_scalar _ el ev).
have -> : (K k P Q)^T *m cholesky_solve (Exact.centered_y base) L = mu0.
  by rewrite /cholesky_solve LL mulmxA.
rewrite -/Q eV -/V /Vy {Vy}.
case: full; case: predict_y; rewrite ?bind_lift_Ok ?bind_ret;
  rewrite ?index_channel_scalar ?bind_lift_Ok
          ?add_times_eye_scalar ?add_broadcast_scalar ?bind_lift_Ok //.
- congr (Ok (_, tensor_of_mx _)); apply/matrixP => i j.
  by rewrite !mxE /item /= mulr_natr.
- congr (Ok (_, tensor_of_mx _)); apply/matrixP => i j.
  rewrite [LHS]mxE [RHS]mxE (ord1 j) [LHS]add00 [RHS]add00 sub00 K_diagE.
  by rewrite column_square_sums_gram eV -sub00 -/V /item /= !mxE eqxx mulr1n.
- congr (Ok (_, tensor_of_mx _)); apply/matrixP => i j.
  rewrite [LHS]mxE [RHS]mxE (ord1 j) sub00 K_diagE column_square_sums_gram eV.
  by rewrite -sub00.
Qed.

(** The constant model with jitter 1, queried at the origin. *)
Lemma exact_predict_posterior_witness :
  exists mu var,
    outcome (Exact.predict constant_store (constant_exact 1%R)
               (Tensor [:: 1%N; 1%N] [:: 0]) true true true)
    = Ok (mu, var).
Proof.
have cX : @Model._check_input Exact.t
            (Some (Model.input_dims (Exact.base (constant_exact 1%R))))
            (Tensor [:: 1%N; 1%N] [:: 0]) None
          = Ok (Tensor [:: 1%N; 1%N] [:: 0], None).
  by rewrite check_input_eq.
have [e _] :=
  @exact_predict_posterior constant_store (constant_exact 1%R) 0%N 1%R _ _
    true true true (unit_kernel_valid [::]) erefl erefl erefl ltr01 ler01 cX.
by eexists; eexists; exact: e.
Defined.

(** ** The predictions of [Titsias] *)

Section PushThrough.
Variables (m n : nat) (s : R) (v : 'M[R]_(m, n)) (L : 'M[R]_m).
Hypothesis s_gt0 : 0 < s.
Hypothesis lpL : lower_pos L.
Hypothesis eL : L *m L^T = s^-1 *: (v *m v^T) + 1%:M.

Let uW : L *m L^T \in unitmx.
Proof. by rewrite unitmx_mul unitmx_tr unit_lower_pos. Qed.

Let s_neq0 : s != 0. Proof. by rewrite gt_eqF. Qed.

Lemma low_rank_unit : s%:M + v^T *m v \in unitmx.
Proof.
exact: (posdef_unit (low_rank_sym s v) (low_rank_posdef v s_gt0)).
Qed.

(** [s^-1 W^-1 v = v (s I + v^T v)^-1], with [W = L L^T]. *)
Lemma push_through :
  s^-1 *: (invmx (L *m L^T) *m v) = v *m invmx (s%:M + v^T *m v).
Proof.
have e : invmx (L *m L^T) *m v *m (s%:M + v^T *m v) = s *: v.
  rewrite -mulmxA mulmxDr mul_mx_scalar mulmxA.
  have -> : s *: v + v *m v^T *m v = s *: ((L *m L^T) *m v).
    by rewrite eL mulmxDl mul1mx scalerDr -scalemxAl scalerA divff // scale1r addrC.
  by rewrite -scalemxAr mulKmx.
by rewrite -[invmx (L *m L^T) *m v](mulmxK low_rank_unit) e -scalemxAl scalerA
           mulVf // scale1r.
Qed.

(** [I - W^-1 = v (s I + v^T v)^-1 v^T]. *)
Lemma residual_whitened :
  1%:M - invmx (L *m L^T) = v *m invmx (s%:M + v^T *m v) *m v^T.
Proof.
rewrite -push_through -scalemxAl -mulmxA scalemxAr.
have -> : s^-1 *: (v *m v^T) = L *m L^T - 1%:M by rewrite eL addrK.
by rewrite mulmxBr mulVmx // mulmx1.
Qed.

End PushThrough.

(** X10. With a valid kernel, a scalar noise variance [s > 0], a jitter that is
    not negative and inducing points whose kernel matrix, with the jitter, is
    positive definite, [Titsias.predict] on a query that [_check_input]
    accepts returns the mean [Qsf (Qff + s I)^-1 y] and the covariance
    [Kss - Qsf (Qff + s I)^-1 Qfs] of the comment in the code, where
    [Qsf = Ksu (Kuu + jitter)^-1 Kuf] and [Qff = Kfu (Kuu + jitter)^-1 Kuf];
    the mean function at the query is added to the mean, [predict_y] adds
    [s] to the diagonal, and without [full] the diagonal of the covariance
    is returned.  The covariance of the function values is positive
    semi-definite. *)
Theorem titsias_predict_posterior (h : store) (self : Titsias.t) (r : ref)
    (s : R) (Xs : tensor) (Xs' : tensor * option tensor)
    (full as_tensor predict_y : bool)
    m (Zm : 'M[R]_(m, Model.input_dims (Titsias.base self))) :
  let base := Titsias.base self in
  let k := Model.kernel base in
  let P := Model.X base in
  let Q : 'M[R]_(dim Xs'.1 0, Model.input_dims base) := mx_of_tensor _ _ Xs'.1 in
  let Kuu := K k Zm Zm in
  let Kuu' := Kuu + (Model.jitter base * Model.diagonal_mean Kuu)%:M in
  let Qsf := (K k Zm Q)^T *m invmx Kuu' *m K k Zm P in
  let Qff := (K k Zm P)^T *m invmx Kuu' *m K k Zm P in
  let mu0 := Qsf *m invmx (Qff + s%:M) *m Exact.centered_y base in
  let mu := if Model.mean base is Some mn then mu0 + mean_col mn Q else mu0 in
  let V := K k Q Q - Qsf *m invmx (Qff + s%:M) *m Qsf^T in
  let Vy := if predict_y then V + s%:M else V in
  kernel_valid k ->
  @matrix_value Titsias.t h (Titsias.Z self) (Model.input_dims base)
    = Ok (existT _ m Zm) ->
  l_scale (Model.likelihood base) = Some r ->
  p_value (deref h r) = scalar_tensor s ->
  0 < s -> 0 <= Model.jitter base -> posdef Kuu' ->
  @Model._check_input Titsias.t (Some (Model.input_dims base)) Xs None = Ok Xs' ->
  outcome (Titsias.predict h self Xs full as_tensor predict_y)
  = Ok (tensor_of_mx mu,
        if full then tensor_of_mx Vy else tensor_of_mx (\col_i Vy i i))
  /\ possemidef V.
Proof.
move=> base k P Q Kuu Kuu' Qsf Qff mu0 mu V Vy vk eZ el ev s0 j0 pK cX.
have [Luu [L [eC1 lpLuu LLuu eC2 [lpL LL]]]] :=
  @titsias_factors k _ _ _ Zm P (Model.jitter base) s vk s0 pK.
set v := solve_triangular Luu (K k Zm P) in eC2 LL.
set a := solve_triangular Luu (K k Zm Q).
have eQff : Qff + s%:M = s%:M + v^T *m v.
  by rewrite addrC /Qff -(nystrom_gram _ lpLuu LLuu).
have eQsf : Qsf = a^T *m v by rewrite (nystrom_cross _ _ lpLuu LLuu).
have uL := unit_lower_pos lpL.
have eb : (solve_triangular L a)^T *m solve_triangular L a
          = a^T *m invmx (L *m L^T) *m a.
  exact: nystrom_cross.
have eR : a^T *m v *m invmx (s%:M + v^T *m v) *m (a^T *m v)^T
          = a^T *m a - a^T *m invmx (L *m L^T) *m a.
  have -> : a^T *m a - a^T *m invmx (L *m L^T) *m a
            = a^T *m (1%:M - invmx (L *m L^T)) *m a.
    by rewrite mulmxBr mulmx1 mulmxBl.
  by rewrite (residual_whitened s0 lpL LL) trmx_mul trmxK !mulmxA.
have eV : K k Q Q - a^T *m a + (solve_triangular L a)^T *m solve_triangular L a
          = V.
  by rewrite eb /V eQff eQsf eR opprB addrA [RHS]addrAC.
have emu : (solve_triangular L a)^T
             *m (s^-1 *: solve_triangular L (v *m Exact.centered_y base))
           = mu0.
  have -> : (solve_triangular L a)^T
              *m (s^-1 *: solve_triangular L (v *m Exact.centered_y base))
            = a^T *m (s^-1 *: (invmx (L *m L^T) *m v)) *m Exact.centered_y base.
    rewrite /solve_triangular trmx_mul invmx_gram // -!scalemxAr -!scalemxAl.
    by rewrite !mulmxA.
  by rewrite (push_through s0 lpL LL) /mu0 eQff eQsf !mulmxA.
split; last first.
  rewrite -eV => x; rewrite qformD addr_ge0 //.
    have e0 : 0 <= Model.jitter base * Model.diagonal_mean Kuu.
      by apply: mulr_ge0 => //; apply: diagonal_mean_ge0; case: vk => _; apply.
    exact: (@inducing_residual k _ _ _ Zm Q _ Luu vk e0 lpLuu LLuu).
  by have := possemidef_gram (solve_triangular L a)^T x; rewrite trmxK.
rewrite /Titsias.predict cX bind_lift_Ok eZ bind_lift_Ok; cbn [projT1 projT2].
rewrite outcome_bind outcome_cholesky -/base -/k -/Kuu -/Kuu' eC1.
rewrite (likelihood_scale_scalar _ el ev) bind_lift_Ok scalar_value_scalar.
rewrite bind_lift_Ok outcome_bind outcome_cholesky -/P -/v eC2.
cbv beta iota zeta; rewrite -/Q -/a emu /Vy {Vy}.
case: full; case: predict_y; rewrite /ret /outcome /=.
- by rewrite eV.
- by rewrite eV.
- congr (Ok (_, tensor_of_mx _)); apply/matrixP => i j.
  rewrite [LHS]mxE [RHS]mxE (ord1 j) -eV [LHS]add00 [RHS]add00.
  rewrite [in LHS]add00 [in RHS]add00 !sub00 K_diagE !column_square_sums_gram.
  by rewrite !mxE eqxx mulr1n.
- congr (Ok (_, tensor_of_mx _)); apply/matrixP => i j.
  rewrite [LHS]mxE [RHS]mxE (ord1 j) -eV [LHS]add00 [RHS]add00.
  by rewrite !sub00 K_diagE !column_square_sums_gram.
Qed.

(** The constant model with jitter 1, queried at the origin. *)
Lemma titsias_predict_posterior_witness :
  exists mu var,
    outcome (Titsias.predict constant_store (constant_titsias 1%R)
               (Tensor [:: 1%N; 1%N] [:: 0]) true true true)
    = Ok (mu, var).
Proof.
have cX : @Model._check_input Titsias.t
            (Some (Model.input_dims (Titsias.base (constant_titsias 1%R))))
            (Tensor [:: 1%N; 1%N] [:: 0]) None
          = Ok (Tensor [:: 1%N; 1%N] [:: 0], None).
  by rewrite check_input_eq.
have [e _] :=
  @titsias_predict_posterior constant_store (constant_titsias 1%R) 0%N 1%R _ _
    true true true 1%N 0 (unit_kernel_valid [::]) (constant_titsias_Z 1%R)
    erefl erefl ltr01 ler01 (constant_titsias_posdef ltr01) cX.
by eexists; eexists; exact: e.
Defined.

(** ** The predictions of [SparseHensman] *)

(** X11. With a valid kernel, a jitter that is not negative and inducing points
    whose kernel matrix [Kuu], with the jitter, is positive definite,
    [SparseHensman.predict] of function values on a query that [_check_input]
    accepts returns the sparse variational posterior for the inducing
    distribution of mean [Luu q_mu] and covariance [Luu T T^T Luu^T], with
    [Luu] the Cholesky factor of [Kuu] and [T] the lower triangle of
    [q_sqrt]: the mean [Ksu Kuu^-1 (Luu q_mu)], plus the mean function, and
    the covariance [Kss - Ksu Kuu^-1 (Kuu - Luu T T^T Luu^T) Kuu^-1 Kus],
    which is positive semi-definite.  For [q_mu = 0] and [T] the identity,
    the values the constructor sets, this is the prior. *)
Theorem sparse_hensman_predict_whitened (h : store) (self : SparseHensman.t)
    (Xs : tensor) (Xs' : tensor * option tensor) (full as_tensor : bool)
    m (Zm : 'M[R]_(m, Model.input_dims (SparseHensman.base self)))
    (qm : 'cV[R]_m) (qs : 'M[R]_m) :
  let base := SparseHensman.base self in
  let k := Model.kernel base in
  let Q : 'M[R]_(dim Xs'.1 0, Model.input_dims base) := mx_of_tensor _ _ Xs'.1 in
  let Kuu := K k Zm Zm in
  let Kuu' := Kuu + (Model.jitter base * Model.diagonal_mean Kuu)%:M in
  let T := tril qs in
  kernel_valid k ->
  @matrix_value SparseHensman.t h (SparseHensman.Z self) (Model.input_dims base)
    = Ok (existT _ m Zm) ->
  @shaped_value SparseHensman.t h (SparseHensman.q_mu self) m 1 = Ok qm ->
  @shaped_value SparseHensman.t h (SparseHensman.q_sqrt self) m m = Ok qs ->
  0 <= Model.jitter base -> posdef Kuu' ->
  @Model._check_input SparseHensman.t (Some (Model.input_dims base)) Xs None
    = Ok Xs' ->
  exists Luu : 'M[R]_m,
    let mu0 := (K k Zm Q)^T *m invmx Kuu' *m (Luu *m qm) in
    let mu := if Model.mean base is Some mn then mu0 + mean_col mn Q else mu0 in
    let V := K k Q Q
             - (K k Zm Q)^T *m invmx Kuu' *m (Kuu' - Luu *m T *m T^T *m Luu^T)
               *m invmx Kuu' *m K k Zm Q in
    [/\ lower_pos Luu /\ Luu *m Luu^T = Kuu',
        outcome (SparseHensman.predict h self Xs full as_tensor false)
        = Ok (tensor_of_mx mu,
              if full then tensor_of_mx V else tensor_of_mx (\col_i V i i)),
        possemidef V
      & qm = 0 -> T = 1%:M -> mu0 = 0 /\ V = K k Q Q].
Proof.
move=> base k Q Kuu Kuu' T vk eZ eqm eqs j0 pK cX.
have sK : symmetric Kuu' by exact/symmetricD/symmetric_scalar/K_sym.
have [Luu eC] := cholesky_complete sK pK.
have [tLuu dLuu LLuu] := cholesky_sound sK eC.
have lpLuu : lower_pos Luu by split.
have uL := unit_lower_pos lpLuu.
exists Luu => mu0 mu V.
set a := solve_triangular Luu (K k Zm Q).
have e1 : invmx Kuu' *m Luu = (invmx Luu)^T.
  by rewrite -LLuu invmx_gram // -mulmxA mulVmx // mulmx1.
have e2 : Luu^T *m invmx Kuu' = invmx Luu.
  by rewrite -LLuu invmx_gram // mulmxA trmx_inv mulmxV ?unitmx_tr // mul1mx.
have eA : a^T *m a = (K k Zm Q)^T *m invmx Kuu' *m K k Zm Q.
  exact: nystrom_gram.
have eB : (T^T *m a)^T *m (T^T *m a)
          = (K k Zm Q)^T *m invmx Kuu' *m (Luu *m T *m T^T *m Luu^T)
            *m invmx Kuu' *m K k Zm Q.
  rewrite !mulmxA -[_ *m invmx Kuu' *m Luu]mulmxA e1.
  rewrite -[_ *m Luu^T *m invmx Kuu']mulmxA e2.
  by rewrite /a /solve_triangular !trmx_mul trmxK !mulmxA.
have eV : K k Q Q - a^T *m a + (T^T *m a)^T *m (T^T *m a) = V.
  rewrite /V eA eB mulmxBr mulmxBl mulmxBl opprB addrA [RHS]addrAC.
  by rewrite -[_ *m Kuu' *m invmx Kuu']mulmxA mulmxV ?mulmx1 // posdef_unit.
have emu : (K k Zm Q)^T *m solve_triangular Luu^T qm = mu0.
  rewrite /mu0 /solve_triangular !mulmxA -[_ *m invmx Kuu' *m Luu]mulmxA e1.
  by rewrite trmx_inv.
split=> //.
- rewrite /SparseHensman.predict cX bind_lift_Ok; cbn [fst].
  rewrite outcome_bind /SparseHensman._predict eZ bind_lift_Ok.
  cbn [projT1 projT2].
  rewrite outcome_bind outcome_cholesky -/base -/k -/Kuu -/Kuu' eC.
  rewrite eqs bind_lift_Ok eqm bind_lift_Ok -/Q -/a -/T emu.
  case: full; rewrite /ret /outcome /=.
    by rewrite eV.
  congr (Ok (_, tensor_of_mx _)); apply/matrixP => i j.
  rewrite [LHS]mxE [RHS]mxE (ord1 j) -eV [LHS]add00 [RHS]add00.
  by rewrite !sub00 K_diagE !column_square_sums_gram.
- rewrite -eV => x; rewrite qformD addr_ge0 //.
    have e0 : 0 <= Model.jitter base * Model.diagonal_mean Kuu.
      by apply: mulr_ge0 => //; apply: diagonal_mean_ge0; case: vk => _; apply.
    exact: (@inducing_residual k _ _ _ Zm Q _ Luu vk e0 lpLuu LLuu).
  by have := possemidef_gram (T^T *m a)^T x; rewrite trmxK.
- move=> q0 T1; split.
    by rewrite /mu0 q0 !mulmx0.
  by rewrite -eV T1 trmx1 mul1mx addrNK.
Qed.

Lemma tril1 n : tril (1%:M : 'M[R]_n) = 1%:M.
Proof.
apply/matrixP => i j; rewrite !mxE; case: leqP => // lt.
by rewrite -val_eqE ltn_eqF.
Qed.

Lemma shaped_value_tensor_of_mx model h r m n (A : 'M[R]_(m, n)) :
  p_value (deref h r) = tensor_of_mx A -> @shaped_value model h r m n = Ok A.
Proof. by move=> e; rewrite /shaped_value e /= eqxx mx_of_tensorK. Qed.

Lemma kl_gaussian_init n : SparseHensman.kl_gaussian (0 : 'cV[R]_n) 1%:M = 0.
Proof.
rewrite kl_gaussian_split /dot mulmx0 mxE add0r big1 ?mulr0 // => i _.
by rewrite mxE eqxx expr1n ln_1 !subrr.
Qed.

(** X12. On the model [Hensman.__init__] returns, [q_mu] is zero and [q_sqrt]
    the identity, so that the divergence term of [elbo()] is zero: with a
    valid kernel whose matrix [Kff] on the data, with the jitter, is positive
    definite, [elbo()] returns the variational expectation of the likelihood
    under the marginals of variance the diagonal of [Kff] with the jitter,
    and of mean zero, less the mean function when there is one. *)
Theorem hensman_elbo_at_construction (model : Type) (config : config_t)
    (kernel : Kernel) (X y : tensor) (likelihood : Likelihood) (jitter : R)
    (mean : option Mean) (name : option string) (h : store)
    (self : Hensman.t) (h' : store) :
  @Hensman.__init__ model config kernel X y likelihood jitter mean name h
    = Ok (self, h') ->
  let base := SparseHensman.base self in
  let P := Model.X base in
  let Kff := K (Model.kernel base) P P in
  let Kff' := Kff + (Model.jitter base * Model.diagonal_mean Kff)%:M in
  let qf_mu : 'cV[R]_(Model.data_points base) :=
    if Model.mean base is Some mn then - mean_col mn P else 0 in
  kernel_valid kernel -> posdef Kff' ->
  outcome (Hensman.elbo h' self)
  = Ok (variational_expectation (Model.likelihood base) h'
          (Exact.centered_y base) qf_mu (\col_i Kff' i i) P).
Proof.
move=> /SparseHensman_init_spec [m0 [h0 [eM eb [e1 e2 e3 esp] sz hv]]].
have [_ emu esq] := hv erefl.
have [_ _ ek _ _] := Model_init_registry eM.
case: self eb e1 e2 e3 esp => b sp qmu qsq Zr.
cbn [SparseHensman.base SparseHensman.q_mu SparseHensman.q_sqrt SparseHensman.Z
     SparseHensman.is_sparse] => -> -> -> -> ->.
cbn [isSome Model.X Model.kernel Model.jitter Model.mean Model.likelihood
     Model.data_points] => vk.
set Kff := K _ _ _; set Kff' := Kff + _ => pK.
rewrite /Hensman.elbo /SparseHensman.elbo; cbn [SparseHensman.is_sparse].
have sK : symmetric Kff' by apply/symmetricD/symmetric_scalar/K_sym; rewrite ek.
have [L eC] := cholesky_complete sK pK.
have [tL dL LL] := cholesky_sound sK eC.
rewrite outcome_bind /SparseHensman.qf_dense.
cbn [SparseHensman.base SparseHensman.q_mu SparseHensman.q_sqrt Model.kernel
     Model.X Model.data_points Model.mean Model.jitter].
rewrite outcome_bind outcome_cholesky.
rewrite -[Model.jitter (Model.super _)]/(Model.jitter m0) -/Kff -/Kff' eC.
rewrite (shaped_value_tensor_of_mx _ emu) bind_lift_Ok.
rewrite (shaped_value_tensor_of_mx _ esq) bind_lift_Ok.
rewrite /ret /outcome; cbn [snd fst].
rewrite /SparseHensman.elbo_of.
cbn [SparseHensman.base SparseHensman.q_mu SparseHensman.q_sqrt Model.kernel
     Model.X Model.data_points Model.mean Model.jitter Model.likelihood fst snd].
rewrite emu -[dim (tensor_of_mx _) 0]/(Model.data_points m0).
rewrite (shaped_value_tensor_of_mx _ emu) bind_lift_Ok.
rewrite (shaped_value_tensor_of_mx _ esq) bind_lift_Ok.
rewrite /ret; cbn [snd]; rewrite kl_gaussian_init subr0 tril1 mulmx1 LL mulmx0.
congr (Ok (variational_expectation _ _ _ _ _ _)).
by case: (Model.mean m0) => // mn; rewrite sub0r.
Qed.

Lemma unit_kernel_jitter_posdef dict n d (P : 'M[R]_(n.+1, d)) (j : R) :
  0 < j ->
  posdef (K (unit_kernel dict) P P
          + (j * Model.diagonal_mean (K (unit_kernel dict) P P))%:M).
Proof.
move=> j0; have vk := unit_kernel_valid dict.
apply: (proj2 (jitter_semidef_posdef _ _ j0 _)).
- exact: (K_sym _ vk).
- by case: vk => _; apply.
- rewrite /Model.diagonal_mean divr_gt0 ?ltr0n //.
  rewrite (eq_bigr (fun=> 1)) ?sumr_const ?card_ord ?ltr0n // => i _.
  by rewrite mxE.
Qed.

(** The model of one data point at the origin with the constant kernel and
    jitter 1. *)
Lemma hensman_elbo_at_construction_witness :
  exists (self : Hensman.t) (h' : store) (T : R),
    @Hensman.__init__ unit (mkConfig OtherDtype (10 ^- 8))
      (unit_kernel [::]) (Tensor [:: 1%N; 1%N] [:: 0])
      (Tensor [:: 1%N; 1%N] [:: 0]) (plain_likelihood None) 1%R None None [::]
    = Ok (self, h')
    /\ outcome (Hensman.elbo h' self) = Ok T.
Proof.
pose r := @Hensman.__init__ unit (mkConfig OtherDtype (10 ^- 8))
      (unit_kernel [::]) (Tensor [:: 1%N; 1%N] [:: 0])
      (Tensor [:: 1%N; 1%N] [:: 0]) (plain_likelihood None) 1%R None None [::].
pose sh := if r is Ok sh then sh
           else (SparseHensman.mk (unit_model [::] None 0 [::]) false 0 0 0, [::]).
have E : r = Ok (sh.1, sh.2).
  rewrite /sh /r /Hensman.__init__ /SparseHensman.__init__ /Model.__init__.
  by rewrite check_input_eq /=.
have pK := @unit_kernel_jitter_posdef [::] 0 1
             (Model.X (SparseHensman.base sh.1)) 1%R ltr01.
exists sh.1, sh.2; eexists; split; first exact: E.
exact: (hensman_elbo_at_construction E (unit_kernel_valid [::]) pK).
Defined.

(** One inducing point at the origin under the constant kernel, with the
    values of the constructor, queried at the origin. *)
Lemma sparse_hensman_predict_whitened_witness :
  exists (h : store) (self : SparseHensman.t) mu var,
    outcome (SparseHensman.predict h self (Tensor [:: 1%N; 1%N] [:: 0])
               true true false)
    = Ok (mu, var).
Proof.
pose h : store :=
  [:: new_Param (tensor_of_mx (0 : 'M[R]_(1, 1))) (Some "q_mu"%string) None true;
      new_Param (tensor_of_mx (1%:M : 'M[R]_1)) (Some "q_sqrt"%string) None true;
      new_Param (tensor_of_mx (0 : 'M[R]_(1, 1)))
        (Some "induction_points"%string) None true].
pose self :=
  SparseHensman.mk (unit_model [::] None 1%R [:: 0; 1; 2]%N) true 0%N 1%N 2%N.
have eZ : @matrix_value SparseHensman.t h (SparseHensman.Z self)
            (Model.input_dims (SparseHensman.base self))
          = Ok (existT _ 1%N (0 : 'M[R]_(1, 1))).
  by rewrite /matrix_value /= mx_of_tensorK.
have eqm : @shaped_value SparseHensman.t h (SparseHensman.q_mu self) 1 1 = Ok 0.
  exact: shaped_value_tensor_of_mx.
have eqs : @shaped_value SparseHensman.t h (SparseHensman.q_sqrt self) 1 1
           = Ok 1%:M.
  exact: shaped_value_tensor_of_mx.
have pK := @unit_kernel_jitter_posdef [::] 0 1 (0 : 'M[R]_(1, 1)) 1%R ltr01.
have cX : @Model._check_input SparseHensman.t
            (Some (Model.input_dims (SparseHensman.base self)))
            (Tensor [:: 1%N; 1%N] [:: 0]) None
          = Ok (Tensor [:: 1%N; 1%N] [:: 0], None).
  by rewrite check_input_eq.
have [Luu [_ e _ _]] :=
  @sparse_hensman_predict_whitened h self _ _ true true 1%N 0 0 1%:M
    (unit_kernel_valid [::]) eZ eqm eqs ler01 pK cX.
by exists h, self; eexists; eexists; exact: e.
Defined.

(** ** The marginal likelihood of [Snelson] *)

Section Fitc.
Variables (m n : nat) (v : 'M[R]_(m, n)) (g : 'rV[R]_n) (L : 'M[R]_m).
Variable y : 'cV[R]_n.
Hypothesis g_gt0 : forall i, 0 < g 0 i.
Hypothesis lpL : lower_pos L.
Let G : 'M[R]_n := diag_mx (map_mx (fun x => 1 / x) g).
Hypothesis eL : L *m L^T = v *m G *m v^T + 1%:M.

Let S : 'M[R]_n := diag_mx (map_mx sqrt g).
Let Si : 'M[R]_n := diag_mx (map_mx (fun x => (sqrt x)^-1) g).
Let w : 'M[R]_(m, n) := v *m Si.
Let A1 : 'M[R]_n := 1%:M + w^T *m w.

Let sq_gt0 i : 0 < sqrt (g 0 i). Proof. exact: sqrt_pos. Qed.

Let SSi : S *m Si = 1%:M.
Proof.
rewrite /S /Si mulmx_diag -diag_const_mx; congr diag_mx.
by apply/rowP => i; rewrite !mxE divff // gt_eqF.
Qed.

Let SiS : Si *m S = 1%:M.
Proof.
rewrite /S /Si mulmx_diag -diag_const_mx; congr diag_mx.
by apply/rowP => i; rewrite !mxE mulVf // gt_eqF.
Qed.

Let SS : S *m S = diag_mx g.
Proof.
rewrite /S mulmx_diag; congr diag_mx.
by apply/rowP => i; rewrite !mxE sqrt_sq // ltW.
Qed.

Let SiSi : Si *m Si = G.
Proof.
rewrite /Si /G mulmx_diag; congr diag_mx.
by apply/rowP => i; rewrite !mxE -invfM sqrt_sq ?div1r // ltW.
Qed.

Let trS : S^T = S. Proof. exact: tr_diag_mx. Qed.
Let trSi : Si^T = Si. Proof. exact: tr_diag_mx. Qed.

Let eL1 : L *m L^T = 1^-1 *: (w *m w^T) + 1%:M.
Proof.
by rewrite invr1 scale1r /w trmx_mul trSi !mulmxA -[v *m Si *m Si]mulmxA SiSi.
Qed.

Let eA : v^T *m v + diag_mx g = S *m A1 *m S.
Proof.
rewrite /A1 mulmxDr mulmx1 mulmxDl SS addrC; congr (_ + _).
rewrite /w trmx_mul trSi !mulmxA SSi mul1mx.
by rewrite -[v^T *m v *m Si *m S]mulmxA SiS mulmx1.
Qed.

Let pA1 : posdef A1. Proof. exact: (low_rank_posdef w ltr01). Qed.
Let sA1 : symmetric A1. Proof. exact: (low_rank_sym 1 w). Qed.

Lemma fitc_logdet :
  ln (\det (v^T *m v + diag_mx g)) = \sum_i ln (g 0 i) + 2 * \sum_i ln (L i i).
Proof.
have dS : 0 < \det S /\ ln (\det S) = 2^-1 * \sum_i ln (g 0 i).
  rewrite /S det_diag.
  have [p ->] := @ln_prod _ (index_enum _) xpredT
                   (fun i : 'I_n => (map_mx sqrt g) 0 i)
                   (fun i _ => eq_ind_r (fun x => 0 < x) (sq_gt0 i) (mxE _ _ _ _)).
  split=> //; rewrite mulr_sumr; apply: eq_bigr => i _.
  by rewrite mxE (@ln_factor (sqrt (g 0 i)) (g 0 i)) // sqrt_sq // ltW.
have dA := posdef_det_gt0 sA1 pA1.
rewrite eA !det_mulmx ln_mul ?mulr_gt0 ?ln_mul //; try by case: dS.
have -> := low_rank_logdet ltr01 lpL eL1.
case: dS => _ ->; rewrite ln_1 mulr0 add0r.
by move: (\sum_i ln (g 0 i)) (\sum_i ln (L i i)) => a b; lra.
Qed.

Lemma fitc_quad :
  qform (invmx (v^T *m v + diag_mx g)) y
  = (y^T *m G *m y) 0 0 - dot (invmx L *m (v *m G *m y)) (invmx L *m (v *m G *m y)).
Proof.
have uA1 := posdef_unit sA1 pA1.
have -> : invmx (v^T *m v + diag_mx g) = Si *m invmx A1 *m Si^T.
  apply: invmx_uniq; rewrite eA trSi !mulmxA.
  rewrite -[S *m A1 *m S *m Si]mulmxA SSi mulmx1.
  by rewrite -[S *m A1 *m invmx A1]mulmxA mulmxV // mulmx1.
rewrite qform_congr trSi (low_rank_quad (Si *m y) ltr01 lpL eL1) divr1 invr1.
rewrite scale1r.
have -> : w *m (Si *m y) = v *m G *m y.
  by rewrite /w !mulmxA -[v *m Si *m Si]mulmxA SiSi.
congr (_ - _).
by rewrite /dot trmx_mul trSi !mulmxA -[y^T *m Si *m Si]mulmxA SiSi.
Qed.

Let GD : G *m diag_mx g = 1%:M.
Proof.
rewrite /G mulmx_diag -diag_const_mx; congr diag_mx.
by apply/rowP => i; rewrite !mxE div1r mulVf // gt_eqF.
Qed.

Let uW : L *m L^T \in unitmx.
Proof. by rewrite unitmx_mul unitmx_tr unit_lower_pos. Qed.

Lemma fitc_unit : v^T *m v + diag_mx g \in unitmx.
Proof.
have [uS _] := mulmx1_unit SSi.
by rewrite eA !unitmx_mul uS (posdef_unit sA1 pA1).
Qed.

(** [W^-1 v G = v (v^T v + D)^-1], with [W = L L^T] and [D = diag(g)]. *)
Lemma fitc_push_through :
  invmx (L *m L^T) *m (v *m G) = v *m invmx (v^T *m v + diag_mx g).
Proof.
have e : invmx (L *m L^T) *m (v *m G) *m (v^T *m v + diag_mx g) = v.
  rewrite -!mulmxA mulmxDr [G *m diag_mx g]GD mulmxDr mulmx1 !mulmxA.
  have -> : v *m G *m v^T *m v + v = (L *m L^T) *m v.
    by rewrite eL mulmxDl mul1mx.
  by rewrite mulKmx.
by rewrite -[LHS](mulmxK fitc_unit) e.
Qed.

(** [I - W^-1 = v (v^T v + D)^-1 v^T]. *)
Lemma fitc_residual :
  1%:M - invmx (L *m L^T) = v *m invmx (v^T *m v + diag_mx g) *m v^T.
Proof.
rewrite -fitc_push_through -!mulmxA [v *m (G *m v^T)]mulmxA.
have -> : v *m G *m v^T = L *m L^T - 1%:M by rewrite eL addrK.
by rewrite mulmxBr mulVmx // mulmx1.
Qed.

End Fitc.

(** X13. With a valid kernel, a scalar noise variance [s > 0], a jitter that is
    not negative and inducing points whose kernel matrix, with the jitter, is
    positive definite, [Snelson.log_marginal_likelihood()] returns the
    logarithm of the Gaussian density of [y] under the covariance
    [Qff + diag(Kff - Qff) + s I], where [Qff = Kfu (Kuu + jitter)^-1 Kuf]:
    the approximation that is exact on the diagonal. *)
Theorem snelson_log_marginal_likelihood_fitc (h : store) (self : Snelson.t)
    (r : ref) (s : R) m (Zm : 'M[R]_(m, Model.input_dims (Snelson.base self))) :
  let base := Snelson.base self in
  let k := Model.kernel base in
  let P := Model.X base in
  let n := Model.data_points base in
  let y := Exact.centered_y base in
  let Kuu := K k Zm Zm in
  let Kuu' := Kuu + (Model.jitter base * Model.diagonal_mean Kuu)%:M in
  let Qff := (K k Zm P)^T *m invmx Kuu' *m K k Zm P in
  let Sigma := Qff + diag_mx (\row_i (K k P P i i - Qff i i + s)) in
  kernel_valid k ->
  @matrix_value Snelson.t h (Snelson.Z self) (Model.input_dims base)
    = Ok (existT _ m Zm) ->
  l_scale (Model.likelihood base) = Some r ->
  p_value (deref h r) = scalar_tensor s ->
  0 < s -> 0 <= Model.jitter base -> posdef Kuu' ->
  outcome (Snelson.log_marginal_likelihood h self)
  = Ok (- (2^-1 * n%:R * ln (2 * PI)) - 2^-1 * ln (\det Sigma)
        - 2^-1 * qform (invmx Sigma) y).
Proof.
move=> base k P n y Kuu Kuu' Qff Sigma vk eZ el ev s0 j0 pK.
have sK : symmetric Kuu' by exact/symmetricD/symmetric_scalar/K_sym.
have [Luu eC] := cholesky_complete sK pK.
have [tLuu dLuu LLuu] := cholesky_sound sK eC.
have lpLuu : lower_pos Luu by split.
have e0 : 0 <= Model.jitter base * Model.diagonal_mean Kuu.
  by apply: mulr_ge0 => //; apply: diagonal_mean_ge0; case: vk => _; apply.
have psd := inducing_residual P vk e0 lpLuu LLuu.
set v := solve_triangular Luu (K k Zm P) in psd.
have eQ : Qff = v^T *m v by rewrite (nystrom_gram _ lpLuu LLuu).
pose g : 'rV[R]_n := K_diag k P - column_square_sums v + const_mx s.
have eg : \row_i (K k P P i i - Qff i i + s) = g.
  apply/rowP => i; rewrite mxE /g add00 sub00 K_diagE column_square_sums_gram.
  by rewrite [const_mx _ _ _]mxE eQ.
have g0 i : 0 < g 0 i.
  rewrite /g add00 sub00 K_diagE column_square_sums_gram [const_mx _ _ _]mxE.
  by rewrite ltr_wpDl // -sub00; exact: possemidef_diag_ge0.
pose G := diag_mx (map_mx (fun x => 1 / x) g).
have sB : symmetric (v *m G *m v^T + 1%:M).
  by apply: symmetricD; [exact/symmetric_congr/symmetric_diag
                        | exact: symmetric_scalar].
have pB : posdef (v *m G *m v^T + 1%:M).
  apply: posdefDl; last exact: posdef_scalar.
  apply/possemidef_congr/possemidef_diag => i.
  by rewrite mxE divr_ge0 // ltW.
have [L eC2] := cholesky_complete sB pB.
have [tL dL LL] := cholesky_sound sB eC2.
have lpL : lower_pos L by split.
rewrite /Snelson.log_marginal_likelihood eZ bind_lift_Ok; cbn [projT1 projT2].
rewrite outcome_bind outcome_cholesky -/base -/k -/Kuu -/Kuu' eC.
rewrite (likelihood_scale_scalar _ el ev) bind_lift_Ok index_channel_scalar.
rewrite bind_lift_Ok add_broadcast_scalar bind_lift_Ok -/P -/v -/g -/G.
rewrite outcome_bind outcome_cholesky eC2 /ret /outcome; cbn [snd].
congr (Ok _).
rewrite /Sigma eg eQ (fitc_logdet g0 lpL LL) (fitc_quad y g0 lpL LL).
rewrite /Snelson.log_marginal_likelihood_constant /dot /solve_triangular.
rewrite -/base -/n -/y -/G.
move: (\sum_i ln (L i i)) (\sum_i ln (g 0 i)) ((y^T *m G *m y) 0 0)
  (((invmx L *m _)^T *m _) 0 0) (2^-1 * n%:R * ln (2 * PI)) => a1 a2 a3 a4 a5.
by lra.
Qed.

Lemma constant_snelson_Z j :
  @matrix_value Snelson.t constant_store (Snelson.Z (constant_snelson j))
    (Model.input_dims (Snelson.base (constant_snelson j)))
  = Ok (existT _ 1%N (0 : 'M[R]_(1, 1))).
Proof. by rewrite /matrix_value /= mx_of_tensorK. Qed.

(** The constant model with jitter 1. *)
Lemma snelson_log_marginal_likelihood_fitc_witness :
  exists p,
    outcome (Snelson.log_marginal_likelihood constant_store
               (constant_snelson 1%R)) = Ok p.
Proof.
eexists.
exact: (@snelson_log_marginal_likelihood_fitc constant_store
          (constant_snelson 1%R) 0%N 1%R 1%N 0 (unit_kernel_valid [::])
          (constant_snelson_Z 1%R) erefl erefl ltr01 ler01
          (@unit_kernel_jitter_posdef [::] 0 1 0 1%R ltr01)).
Defined.

(** X14. With a valid kernel, a scalar noise variance [s > 0], a jitter that is
    not negative and inducing points whose kernel matrix, with the jitter, is
    positive definite, [Snelson.predict] without [full], on a query that
    [_check_input] accepts, returns the mean [Qsf Sigma^-1 y],
    plus the mean function at the query if there is one, and the diagonal of
    [Kss - Qsf Sigma^-1 Qfs], where [Sigma = Qff + diag(Kff - Qff) + s I] is
    the covariance of [log_marginal_likelihood()] and
    [Qsf = Ksu (Kuu + jitter)^-1 Kuf]; [predict_y] adds [s] to each
    variance.  The matrix [Kss - Qsf Sigma^-1 Qfs] is positive semi-definite,
    so that the variances are not negative. *)
Theorem snelson_predict_fitc (h : store) (self : Snelson.t) (r : ref)
    (s : R) (Xs : tensor) (Xs' : tensor * option tensor)
    (as_tensor predict_y : bool)
    m (Zm : 'M[R]_(m, Model.input_dims (Snelson.base self))) :
  let base := Snelson.base self in
  let k := Model.kernel base in
  let P := Model.X base in
  let Q : 'M[R]_(dim Xs'.1 0, Model.input_dims base) := mx_of_tensor _ _ Xs'.1 in
  let Kuu := K k Zm Zm in
  let Kuu' := Kuu + (Model.jitter base * Model.diagonal_mean Kuu)%:M in
  let Qsf := (K k Zm Q)^T *m invmx Kuu' *m K k Zm P in
  let Qff := (K k Zm P)^T *m invmx Kuu' *m K k Zm P in
  let Sigma := Qff + diag_mx (\row_i (K k P P i i - Qff i i + s)) in
  let mu0 := Qsf *m invmx Sigma *m Exact.centered_y base in
  let mu := if Model.mean base is Some mn then mu0 + mean_col mn Q else mu0 in
  let V := K k Q Q - Qsf *m invmx Sigma *m Qsf^T in
  let Vy := if predict_y then V + s%:M else V in
  kernel_valid k ->
  @matrix_value Snelson.t h (Snelson.Z self) (Model.input_dims base)
    = Ok (existT _ m Zm) ->
  l_scale (Model.likelihood base) = Some r ->
  p_value (deref h r) = scalar_tensor s ->
  0 < s -> 0 <= Model.jitter base -> posdef Kuu' ->
  @Model._check_input Snelson.t (Some (Model.input_dims base)) Xs None = Ok Xs' ->
  outcome (Snelson.predict h self Xs false as_tensor predict_y)
  = Ok (tensor_of_mx mu, tensor_of_mx (\col_i Vy i i))
  /\ possemidef V.
Proof.
move=> base k P Q Kuu Kuu' Qsf Qff Sigma mu0 mu V Vy vk eZ el ev s0 j0 pK cX.
have sK : symmetric Kuu' by exact/symmetricD/symmetric_scalar/K_sym.
have [Luu eC] := cholesky_complete sK pK.
have [tLuu dLuu LLuu] := cholesky_sound sK eC.
have lpLuu : lower_pos Luu by split.
have e0 : 0 <= Model.jitter base * Model.diagonal_mean Kuu.
  by apply: mulr_ge0 => //; apply: diagonal_mean_ge0; case: vk => _; apply.
have psd := inducing_residual P vk e0 lpLuu LLuu.
set v := solve_triangular Luu (K k Zm P) in psd.
set a := solve_triangular Luu (K k Zm Q).
have eQ : Qff = v^T *m v by rewrite (nystrom_gram _ lpLuu LLuu).
have eQsf : Qsf = a^T *m v by rewrite (nystrom_cross _ _ lpLuu LLuu).
pose g : 'rV[R]_(Model.data_points base) :=
  K_diag k P - column_square_sums v + const_mx s.
have eg : \row_i (K k P P i i - Qff i i + s) = g.
  apply/rowP => i; rewrite mxE /g add00 sub00 K_diagE column_square_sums_gram.
  by rewrite [const_mx _ _ _]mxE eQ.
have g0 i : 0 < g 0 i.
  rewrite /g add00 sub00 K_diagE column_square_sums_gram [const_mx _ _ _]mxE.
  by rewrite ltr_wpDl // -sub00; exact: possemidef_diag_ge0.
pose G := diag_mx (map_mx (fun x => 1 / x) g).
have sB : symmetric (v *m G *m v^T + 1%:M).
  by apply: symmetricD; [exact/symmetric_congr/symmetric_diag
                        | exact: symmetric_scalar].
have pB : posdef (v *m G *m v^T + 1%:M).
  apply: posdefDl; last exact: posdef_scalar.
  apply/possemidef_congr/possemidef_diag => i.
  by rewrite mxE divr_ge0 // ltW.
have [L eC2] := cholesky_complete sB pB.
have [tL dL LL] := cholesky_sound sB eC2.
have lpL : lower_pos L by split.
have eS : Sigma = v^T *m v + diag_mx g by rewrite /Sigma eg eQ.
have eb : (solve_triangular L a)^T *m solve_triangular L a
          = a^T *m invmx (L *m L^T) *m a.
  exact: nystrom_cross.
have eR : a^T *m v *m invmx Sigma *m (a^T *m v)^T
          = a^T *m a - a^T *m invmx (L *m L^T) *m a.
  have -> : a^T *m a - a^T *m invmx (L *m L^T) *m a
            = a^T *m (1%:M - invmx (L *m L^T)) *m a.
    by rewrite mulmxBr mulmx1 mulmxBl.
  by rewrite (fitc_residual g0 lpL LL) eS trmx_mul trmxK !mulmxA.
have eV : K k Q Q - a^T *m a + (solve_triangular L a)^T *m solve_triangular L a
          = V.
  by rewrite eb /V eQsf eR opprB addrA [RHS]addrAC.
have emu : (solve_triangular L a)^T
             *m solve_triangular L (v *m G *m Exact.centered_y base)
           = mu0.
  rewrite (nystrom_cross _ _ lpL (erefl _)) /mu0 eQsf eS.
  rewrite -[a^T *m v *m invmx _]mulmxA -(fitc_push_through g0 lpL LL) -/G.
  by rewrite !mulmxA.
split; last first.
  rewrite -eV => x; rewrite qformD addr_ge0 //.
    exact: (@inducing_residual k _ _ _ Zm Q _ Luu vk e0 lpLuu LLuu).
  by have := possemidef_gram (solve_triangular L a)^T x; rewrite trmxK.
rewrite /Snelson.predict cX bind_lift_Ok eZ bind_lift_Ok; cbn [projT1 projT2].
rewrite outcome_bind outcome_cholesky -/base -/k -/Kuu -/Kuu' eC.
rewrite (likelihood_scale_scalar _ el ev) bind_lift_Ok index_channel_scalar.
rewrite bind_lift_Ok add_broadcast_scalar bind_lift_Ok -/P -/v -/g -/G.
rewrite outcome_bind outcome_cholesky eC2.
cbv beta iota zeta; rewrite -/Q -/a emu /Vy {Vy}.
case: predict_y; rewrite ?bind_lift_Ok ?bind_ret ?index_channel_scalar
  ?bind_lift_Ok ?add_broadcast_scalar ?bind_lift_Ok /ret /outcome /=.
- congr (Ok (_, tensor_of_mx _)); apply/matrixP => i j.
  rewrite [LHS]mxE [RHS]mxE (ord1 j) -eV [LHS]add00 [RHS]add00.
  rewrite [in LHS]add00 [in RHS]add00 !sub00 K_diagE !column_square_sums_gram.
  by rewrite !mxE eqxx mulr1n.
- congr (Ok (_, tensor_of_mx _)); apply/matrixP => i j.
  rewrite [LHS]mxE [RHS]mxE (ord1 j) -eV [LHS]add00 [RHS]add00.
  by rewrite !sub00 K_diagE !column_square_sums_gram.
Qed.

(** The constant model with jitter 1, queried at the origin. *)
Lemma snelson_predict_fitc_witness :
  exists mu var,
    outcome (Snelson.predict constant_store (constant_snelson 1%R)
               (Tensor [:: 1%N; 1%N] [:: 0]) false true true)
    = Ok (mu, var).
Proof.
have cX : @Model._check_input Snelson.t
            (Some (Model.input_dims (Snelson.base (constant_snelson 1%R))))
            (Tensor [:: 1%N; 1%N] [:: 0]) None
          = Ok (Tensor [:: 1%N; 1%N] [:: 0], None).
  by rewrite check_input_eq.
have [e _] :=
  @snelson_predict_fitc constant_store (constant_snelson 1%R) 0%N 1%R _ _
    true true 1%N 0 (unit_kernel_valid [::]) (constant_snelson_Z 1%R)
    erefl erefl ltr01 ler01 (@unit_kernel_jitter_posdef [::] 0 1 0 1%R ltr01) cX.
by eexists; eexists; exact: e.
Defined.

(** ** The variational Gaussian approximation *)

Lemma posdef_gram_unit n (F : 'M[R]_n) : F \in unitmx -> posdef (F *m F^T).
Proof.
move=> uF x x0; rewrite qformE -mulmxA -{1}[F]trmxK -dot_mull dot_gt0 //.
by rewrite mulmx_unit_neq0 // unitmx_tr.
Qed.

(** For a factor [L] of [B]: [ln det B + tr B^-1 - n >= 0], in the terms the
    code computes them from [L] and from its inverse. *)
Lemma logdet_trace_inv_ge0 n (L : 'M[R]_n) :
  lower_pos L ->
  let invL := solve_triangular L 1%:M in
  \sum_i ln (L i i ^+ 2) = ln (\det (L *m L^T)) /\
  \sum_i \sum_j invL i j ^+ 2 = \tr (invmx (L *m L^T)) /\
  0 <= ln (\det (L *m L^T)) + \tr (invmx (L *m L^T)) - n%:R.
Proof.
move=> lpL invL; have uL := unit_lower_pos lpL.
have eI : invL = invmx L by rewrite /invL /solve_triangular mulmx1.
have e1 : \sum_i ln (L i i ^+ 2) = ln (\det (L *m L^T)).
  rewrite logdet_lower_pos // mulr_sumr; apply: eq_bigr => i _.
  by rewrite ln_sqr //; case: lpL.
have e2 : \sum_i \sum_j invL i j ^+ 2 = \tr (invmx (L *m L^T)).
  rewrite invmx_gram // mxtrace_mulC eI /mxtrace.
  by apply: eq_bigr => i _; rewrite diag_gram.
split=> //; split=> //.
have uF : (invmx L)^T \in unitmx by rewrite unitmx_tr unitmx_inv.
have dB : 0 < \det (L *m L^T).
  by rewrite det_mulmx det_tr mulr_gt0 // det_lower_pos.
have := logdet_le_trace (symmetric_gram (invmx L)^T) (posdef_gram_unit uF).
rewrite trmxK -invmx_gram // det_inv (ln_inv dB).
by move: (ln _) (\tr _) (n%:R) => a b c; lra.
Qed.

Lemma scaled_kernel_matrix n (la : 'cV[R]_n) (A : 'M[R]_n) :
  \matrix_(i, j) (la i 0 * la j 0 * A i j) = diag_mx la^T *m A *m (diag_mx la^T)^T.
Proof.
rewrite tr_diag_mx mul_diag_mx mul_mx_diag; apply/matrixP => i j.
by rewrite !mxE mulrAC.
Qed.

(** X15. With a valid kernel, and [q_nu] and [q_lambda] of the shape the
    constructor gives them, [q_lambda] without a zero entry,
    [OpperArchambeau.elbo()] always returns: the matrix
    [B = Lambda Kff Lambda + I] it factorizes, [Lambda] the diagonal matrix of
    [q_lambda], is positive definite.  The value is the variational
    expectation of the likelihood under the marginals of mean [Kff q_nu], less
    the mean function, less half of
    [q_nu^T Kff q_nu + ln det B + tr B^-1 - n], which is not negative: the
    bound never exceeds the variational expectation. *)
Theorem opper_archambeau_elbo_bound (h : store) (self : OpperArchambeau.t)
    (nu la : 'cV[R]_(Model.data_points (OpperArchambeau.base self))) :
  let base := OpperArchambeau.base self in
  let k := Model.kernel base in
  let P := Model.X base in
  let n := Model.data_points base in
  let Kff := K k P P in
  let B := diag_mx la^T *m Kff *m diag_mx la^T + 1%:M in
  let kl := (nu^T *m Kff *m nu) 0 0 + ln (\det B) + \tr (invmx B) - n%:R in
  let qf_mu :=
    if Model.mean base is Some mn then Kff *m nu - mean_col mn P
    else Kff *m nu in
  let qf_var : 'cV[R]_n :=
    \col_i (1 / la i 0 ^+ 2 - (invmx B) i i / la i 0 / la i 0) in
  kernel_valid k ->
  @shaped_value OpperArchambeau.t h (OpperArchambeau.q_nu self) n 1 = Ok nu ->
  @shaped_value OpperArchambeau.t h (OpperArchambeau.q_lambda self) n 1
    = Ok la ->
  (forall i, la i 0 != 0) ->
  outcome (OpperArchambeau.elbo h self)
  = Ok (variational_expectation (Model.likelihood base) h
          (Exact.centered_y base) qf_mu qf_var P - 2^-1 * kl)
  /\ 0 <= kl.
Proof.
move=> base k P n Kff B kl qf_mu qf_var vk enu ela _.
have pK : possemidef Kff by case: vk => _; apply.
have eB : \matrix_(i, j) (la i 0 * la j 0 * Kff i j) + 1%:M = B.
  by rewrite scaled_kernel_matrix tr_diag_mx.
have sB : symmetric B.
  apply: symmetricD; last exact: symmetric_scalar.
  rewrite -{2}[diag_mx la^T]tr_diag_mx.
  exact/symmetric_congr/(K_sym _ vk).
have pB : posdef B.
  apply: posdefDl; last exact: posdef_scalar.
  rewrite -{2}[diag_mx la^T]tr_diag_mx.
  exact: possemidef_congr.
have [L eC] := cholesky_complete sB pB.
have [tL dL LL] := cholesky_sound sB eC.
have lpL : lower_pos L by split.
have [e1 [e2 ge0]] := logdet_trace_inv_ge0 lpL.
split; last first.
  rewrite /kl -LL -!addrA addr_ge0 //; last by rewrite !addrA.
  by rewrite -/(qform Kff nu).
rewrite /OpperArchambeau.elbo -/base -/n enu bind_lift_Ok ela bind_lift_Ok.
have eInv : (solve_triangular L 1%:M)^T *m solve_triangular L 1%:M = invmx B.
  by rewrite /solve_triangular mulmx1 -invmx_gram ?unit_lower_pos // LL.
rewrite -/k -/P -/Kff eB outcome_bind outcome_cholesky eC /ret /outcome.
cbn [snd]; rewrite eInv e1 e2 LL -/qf_mu -/qf_var; congr (Ok (_ - _ * _)).
rewrite /kl mulmxA.
by move: (ln _) (\tr _) (n%:R) (_ 0 0) => a b c d; lra.
Qed.

(** One data point at the origin under the constant kernel, with the values
    of the constructor. *)
Lemma opper_archambeau_elbo_bound_witness :
  exists (h : store) (self : OpperArchambeau.t) (T : R),
    outcome (OpperArchambeau.elbo h self) = Ok T.
Proof.
pose h : store :=
  [:: new_Param (tensor_of_mx (0 : 'M[R]_(1, 1))) (Some "q_nu"%string) None true;
      new_Param (tensor_of_mx (const_mx 1 : 'M[R]_(1, 1)))
        (Some "q_lambda"%string) None true].
pose self := OpperArchambeau.mk (unit_model [::] None 1%R [:: 0; 1]%N) 0%N 1%N.
have enu : @shaped_value OpperArchambeau.t h (OpperArchambeau.q_nu self) 1 1
           = Ok 0.
  exact: shaped_value_tensor_of_mx.
have ela : @shaped_value OpperArchambeau.t h (OpperArchambeau.q_lambda self) 1 1
           = Ok (const_mx 1).
  exact: shaped_value_tensor_of_mx.
have nz (i : 'I_1) : (const_mx 1 : 'cV[R]_1) i 0 != 0.
  by rewrite mxE oner_neq0.
have [e _] :=
  @opper_archambeau_elbo_bound h self 0 (const_mx 1) (unit_kernel_valid [::])
    enu ela nz.
by exists h, self; eexists; exact: e.
Defined.

Lemma qform_corner_mx m n (E : 'M[R]_m) (z : 'cV[R]_(m + n)) :
  qform (block_mx E 0 0 (0 : 'M[R]_n)) z = qform E (usubmx z).
Proof.
rewrite -{1}[z]vsubmxK /qform tr_col_mx mul_row_block mul_row_col.
by rewrite !mulmx0 !addr0 mul0mx addr0.
Qed.

(** The residual of the kernel matrix of a query, given the points of a
    factorized matrix [K(Z,Z) + E] with [E] positive semi-definite, is
    positive semi-definite. *)
Lemma kernel_residual k m n d (Z : 'M[R]_(m, d)) (P : 'M[R]_(n, d))
    (E L : 'M[R]_m) :
  kernel_valid k -> possemidef E -> lower_pos L ->
  L *m L^T = K k Z Z + E ->
  possemidef (K k P P - (K k Z P)^T *m invmx (K k Z Z + E) *m K k Z P).
Proof.
move=> vk pE lpL eL.
have uA : K k Z Z + E \in unitmx.
  by rewrite -eL unitmx_mul unitmx_tr unit_lower_pos.
apply: schur_possemidef => // z.
have -> : block_mx (K k Z Z + E) (K k Z P) (K k Z P)^T (K k P P)
        = K k (col_mx Z P) (col_mx Z P) + block_mx E 0 0 0.
  by rewrite K_block add_block_mx !addr0 K_tr.
rewrite qformD addr_ge0 //; first by case: vk => _; apply.
by rewrite qform_corner_mx.
Qed.

(** X16. With a valid kernel and a [q_lambda] without a zero entry,
    [OpperArchambeau.predict] of function values on a query that
    [_check_input] accepts returns the mean [Ksf q_nu], plus the mean
    function at the query if there is one, and the covariance
    [Kss - Ksf (Kff + D)^-1 Kfs], where [D] is the diagonal matrix of the
    [1 / q_lambda^2]; without [full] its diagonal is returned.  No jitter is
    added, and the covariance is positive semi-definite. *)
Theorem opper_archambeau_predict_posterior (h : store)
    (self : OpperArchambeau.t) (Xs : tensor) (Xs' : tensor * option tensor)
    (full as_tensor : bool)
    (nu la : 'cV[R]_(Model.data_points (OpperArchambeau.base self))) :
  let base := OpperArchambeau.base self in
  let k := Model.kernel base in
  let P := Model.X base in
  let n := Model.data_points base in
  let Q : 'M[R]_(dim Xs'.1 0, Model.input_dims base) := mx_of_tensor _ _ Xs'.1 in
  let A := K k P P + diag_mx (\row_i (1 / la i 0 ^+ 2)) in
  let mu0 := (K k P Q)^T *m nu in
  let mu := if Model.mean base is Some mn then mu0 + mean_col mn Q else mu0 in
  let V := K k Q Q - (K k P Q)^T *m invmx A *m K k P Q in
  kernel_valid k ->
  @shaped_value OpperArchambeau.t h (OpperArchambeau.q_nu self) n 1 = Ok nu ->
  @shaped_value OpperArchambeau.t h (OpperArchambeau.q_lambda self) n 1
    = Ok la ->
  (forall i, la i 0 != 0) ->
  @Model._check_input OpperArchambeau.t (Some (Model.input_dims base)) Xs None
    = Ok Xs' ->
  outcome (OpperArchambeau.predict h self Xs full as_tensor false)
  = Ok (tensor_of_mx mu,
        if full then tensor_of_mx V else tensor_of_mx (\col_i V i i))
  /\ possemidef V.
Proof.
move=> base k P n Q A mu0 mu V vk enu ela nz cX.
have pK : possemidef (K k P P) by case: vk => _; apply.
have d0 i : 0 < (\row_i (1 / la i 0 ^+ 2)) 0 i.
  by rewrite mxE divr_gt0 // exprn_even_gt0 //= nz.
have sA : symmetric A by exact/symmetricD/symmetric_diag/K_sym.
have pA : posdef A by apply: posdefDl => //; apply: posdef_diag.
have [L eC] := cholesky_complete sA pA.
have [tL dL LL] := cholesky_sound sA eC.
have lpL : lower_pos L by split.
have eV : (solve_triangular L (K k P Q))^T *m solve_triangular L (K k P Q)
          = (K k P Q)^T *m invmx A *m K k P Q.
  exact: nystrom_gram.
split; last first.
  apply: (kernel_residual Q vk _ lpL LL).
  by apply: posdef_semidef; apply: posdef_diag.
rewrite /OpperArchambeau.predict cX bind_lift_Ok -/base -/n ela bind_lift_Ok.
rewrite -/k -/P outcome_bind outcome_cholesky -/A eC enu bind_lift_Ok.
rewrite /ret /outcome; cbn [snd fst]; rewrite -/Q eV -/V.
case: full => //.
congr (Ok (_, tensor_of_mx _)); apply/matrixP => i j.
rewrite [LHS]mxE [RHS]mxE (ord1 j) sub00 K_diagE column_square_sums_gram eV.
by rewrite -sub00.
Qed.

(** One data point at the origin under the constant kernel, with the values
    of the constructor, queried at the origin. *)
Lemma opper_archambeau_predict_posterior_witness :
  exists (h : store) (self : OpperArchambeau.t) mu var,
    outcome (OpperArchambeau.predict h self (Tensor [:: 1%N; 1%N] [:: 0])
               true true false)
    = Ok (mu, var).
Proof.
pose h : store :=
  [:: new_Param (tensor_of_mx (0 : 'M[R]_(1, 1))) (Some "q_nu"%string) None true;
      new_Param (tensor_of_mx (const_mx 1 : 'M[R]_(1, 1)))
        (Some "q_lambda"%string) None true].
pose self := OpperArchambeau.mk (unit_model [::] None 1%R [:: 0; 1]%N) 0%N 1%N.
have enu : @shaped_value OpperArchambeau.t h (OpperArchambeau.q_nu self) 1 1
           = Ok 0.
  exact: shaped_value_tensor_of_mx.
have ela : @shaped_value OpperArchambeau.t h (OpperArchambeau.q_lambda self) 1 1
           = Ok (const_mx 1).
  exact: shaped_value_tensor_of_mx.
have nz (i : 'I_1) : (const_mx 1 : 'cV[R]_1) i 0 != 0.
  by rewrite mxE oner_neq0.
have cX : @Model._check_input OpperArchambeau.t
            (Some (Model.input_dims (OpperArchambeau.base self)))
            (Tensor [:: 1%N; 1%N] [:: 0]) None
          = Ok (Tensor [:: 1%N; 1%N] [:: 0], None).
  by rewrite check_input_eq.
have [e _] :=
  @opper_archambeau_predict_posterior h self _ _ true true 0 (const_mx 1)
    (unit_kernel_valid [::]) enu ela nz cX.
by exists h, self; eexists; eexists; exact: e.
Defined.

(** ** The constructors of the sparse models *)

Lemma deref_set_name h r nm k :
  deref (update h r (set_name nm)) k
  = if (k == r) && (r < size h)%N then set_name nm (deref h r) else deref h k.
Proof. exact: deref_update. Qed.

(** What [register_inducing_points] does to the model and to the store. *)
Lemma register_inducing_points_spec model kernel Z (self : Model.t) h
    (self' : Model.t) Zr h' :
  @register_inducing_points model kernel Z self h = Ok (self', Zr, h') ->
  exists Zt Zc,
    [/\ @init_inducing_points model Z _ _ (Model.X self) kernel = Ok Zt,
        @Model._check_input model (Some (Model.input_dims self)) Zt None
          = Ok (Zc, None),
        [/\ Zr = size h, size h' = (size h).+1
          & self' = Model.mk (Model.kernel self) (Model.X self) (Model.y self)
                      (Model.likelihood self) (Model.jitter self)
                      (Model.mean self) (Model.name self)
                      (Model._params self ++ [:: size h])],
        deref h' (size h)
          = mkParam (Some "induction_points"%string) Zc None None true false None
              (numel Zc - (if (1 < output_dims kernel)%N then dim Zc 0 else 0))
      & forall k, (k < size h)%N -> deref h' k = deref h k].
Proof.
rewrite /register_inducing_points.
case eI: init_inducing_points => [Zt|] //.
case eC: Model._check_input => [[Zc oy]|] //.
have eo : oy = None.
  move: eC; rewrite check_input_eq.
  case: (promoted _) => [[r c]|] //; case: (_ || _) => //.
  by case: (c != _) => // -[_ <-].
rewrite /alloc; cbv beta iota zeta; cbn [fst snd _register_parameters].
move=> [<- <- <-]; exists Zt, Zc; rewrite eo in eC *; split=> //.
- split=> //; last by rewrite cats1.
  by rewrite size_update; case: ifP => _; rewrite ?size_update size_rcons.
- rewrite deref_update eqxx /=; case: (1 < output_dims kernel)%N.
    rewrite size_update size_rcons ltnSn deref_update eqxx size_rcons ltnSn /=.
    by rewrite deref_rcons.
  by rewrite size_rcons ltnSn deref_rcons /= subn0.
- move=> k kh; rewrite deref_update (ltn_eqF kh) /=.
  case: (1 < output_dims kernel)%N; rewrite ?deref_update ?(ltn_eqF kh) /=;
    by rewrite deref_rcons_lt.
Qed.

(** The Parameter of the inducing points holds a matrix that is not empty,
    with one column per input dimension. *)
Lemma checked_matrix_value model model' d Zt Zc h r :
  @Model._check_input model (Some d) Zt None = Ok (Zc, None) ->
  p_value (deref h r) = Zc ->
  exists m (Zm : 'M[R]_(m.+1, d)),
    @matrix_value model' h r d = Ok (existT _ m.+1 Zm).
Proof.
rewrite check_input_eq /matrix_value.
case: (promoted _) => [[a c]|] //; case e0: (_ || _) => //.
case cd: (c != d) => // -[<-] ->.
have -> : (ndim (Tensor [:: a; c] (data Zt)) == 2%N)
          && (dim (Tensor [:: a; c] (data Zt)) 1 == d) = true.
  by rewrite /ndim /dim /= (negbFE cd).
case: a e0 => [|m] // _.
exists m, (mx_of_tensor m.+1 d (Tensor [:: m.+1; c] (data Zt))).
reflexivity.
Qed.

(** What the constructors of [Titsias] and [Snelson] build once the Gaussian
    likelihood is created: the base model, then the inducing points. *)
Lemma sparse_init_tail model model' gaussian config kernel X y Z v jitter mean
    name h (m0 : Model.t) h0 (s' : Model.t) Zr h2 :
  let lik := (GaussianLikelihood gaussian config v h).1 in
  let h1 := (GaussianLikelihood gaussian config v h).2 in
  @Model.__init__ model config kernel X y lik jitter mean name h1
    = Ok (m0, h0) ->
  @register_inducing_points model kernel Z m0 h0 = Ok (s', Zr, h2) ->
  [/\ Model._params s' = owned_refs kernel lik mean ++ [:: Zr],
      [/\ Model.kernel s' = kernel, Model.mean s' = mean,
          l_scale (Model.likelihood s') = Some (size h)
        & Zr = (size h).+1],
      size h2 = (size h).+2
      /\ (forall k, (k < size h)%N -> p_value (deref h2 k) = p_value (deref h k)),
      p_value (deref h2 (size h)) = v
      /\ p_name (deref h2 Zr) = Some "induction_points"%string
      /\ p_trainable (deref h2 Zr)
    & exists m (Zm : 'M[R]_(m.+1, Model.input_dims s')),
        @matrix_value model' h2 Zr (Model.input_dims s')
        = Ok (existT _ m.+1 Zm)].
Proof.
rewrite /GaussianLikelihood /alloc; cbv beta iota zeta; cbn [fst snd].
set lik := mkLikelihood _ _ _ _ _ _ _; set h1 := rcons h _ => E E2.
have [er sz ek el em] := Model_init_registry E.
have [ev _ _] := Model_init_store E.
have [Zt [Zc [eI eC [eZr sz2 es'] dZ fr]]] := register_inducing_points_spec E2.
have sh1 : size h1 = (size h).+1 by rewrite size_rcons.
subst s' Zr.
cbn [Model._params Model.kernel Model.mean Model.likelihood Model.input_dims].
rewrite sz sh1.
have dZ' : deref h2 (size h).+1
           = mkParam (Some "induction_points"%string) Zc None None true false None
               (numel Zc - (if (1 < output_dims kernel)%N then dim Zc 0 else 0)).
  by rewrite -sh1 -sz.
split.
- by rewrite er.
- by split=> //; rewrite el.
- split; first by rewrite sz2 sz sh1.
  move=> k kh; have kh0 : (k < size h0)%N by rewrite sz sh1 ltnW.
  by rewrite (fr _ kh0) ev /h1 deref_rcons_lt.
- have hh0 : (size h < size h0)%N by rewrite sz sh1.
  by rewrite (fr _ hh0) ev /h1 deref_rcons dZ'.
- have eZc : p_value (deref h2 (size h).+1) = Zc by rewrite dZ'.
  exact: (@checked_matrix_value model model' _ Zt Zc h2 _ eC eZc).
Qed.

(** X17. On the model [Titsias.__init__] returns, the registry lists the
    Parameters of the kernel, the noise variance [scale] of the Gaussian
    likelihood the constructor creates, those of the mean, and last the
    inducing points [Z]; the constructor allocates [scale] and [Z], in that
    order, and changes the value of no Parameter that existed; [scale] holds
    the variance given, and [Z], named [induction_points] and trainable,
    holds a matrix that is not empty with one column per input dimension, as
    [elbo()] and [predict()] expect it. *)
Theorem titsias_init_spec (model : Type) (gaussian : gaussian_capability)
    (config : config_t) (kernel : Kernel) (X y : tensor) (Z : Z_arg)
    (variance : tensor) (jitter : R) (mean : option Mean)
    (name : option string) (h : store) (self : Titsias.t) (h' : store) :
  @Titsias.__init__ model gaussian config kernel X y Z variance jitter mean
    name h = Ok (self, h') ->
  let base := Titsias.base self in
  let lik := (GaussianLikelihood gaussian config variance h).1 in
  [/\ Model._params base = owned_refs kernel lik mean ++ [:: Titsias.Z self],
      [/\ Model.kernel base = kernel, Model.mean base = mean,
          l_scale (Model.likelihood base) = Some (size h)
        & Titsias.Z self = (size h).+1],
      size h' = (size h).+2
      /\ (forall k, (k < size h)%N -> p_value (deref h' k) = p_value (deref h k)),
      p_value (deref h' (size h)) = variance
      /\ p_name (deref h' (Titsias.Z self)) = Some "induction_points"%string
      /\ p_trainable (deref h' (Titsias.Z self))
    & exists m (Zm : 'M[R]_(m.+1, Model.input_dims base)),
        @matrix_value Titsias.t h' (Titsias.Z self) (Model.input_dims base)
        = Ok (existT _ m.+1 Zm)].
Proof.
rewrite /Titsias.__init__.
case eG: GaussianLikelihood => [lik h1].
case E: Model.__init__ => [[m0 h0]|] //.
case E2: register_inducing_points => [[[s' Zr] h2]|] // [<- <-].
have := @sparse_init_tail model Titsias.t gaussian config kernel X y Z variance
          jitter mean name h m0 h0 s' Zr h2.
by rewrite eG; apply.
Qed.

(** One data point and one inducing point at the origin. *)
Lemma titsias_init_spec_witness :
  exists (self : Titsias.t) (h' : store),
    @Titsias.__init__ unit plain_gaussian (mkConfig OtherDtype (10 ^- 8))
      (unit_kernel [::]) (Tensor [:: 1%N; 1%N] [:: 0])
      (Tensor [:: 1%N; 1%N] [:: 0]) (ZTensor (Tensor [:: 1%N; 1%N] [:: 0]))
      (scalar_tensor 1%R) 1%R None None [::]
    = Ok (self, h')
    /\ size h' = 2%N.
Proof.
pose r := @Titsias.__init__ unit plain_gaussian (mkConfig OtherDtype (10 ^- 8))
      (unit_kernel [::]) (Tensor [:: 1%N; 1%N] [:: 0])
      (Tensor [:: 1%N; 1%N] [:: 0]) (ZTensor (Tensor [:: 1%N; 1%N] [:: 0]))
      (scalar_tensor 1%R) 1%R None None [::].
pose sh := if r is Ok sh then sh
           else (Titsias.mk (unit_model [::] None 0 [::]) 0, [::]).
have E : r = Ok (sh.1, sh.2).
  rewrite /sh /r /Titsias.__init__ /Model.__init__ /register_inducing_points.
  by rewrite !check_input_eq /=.
have [_ _ [sz _] _ _] := titsias_init_spec E.
by exists sh.1, sh.2; split; [exact: E | exact: sz].
Defined.

(** X18. [Snelson.__init__] looks at the variance with its dimensions of size
    one removed: if what is left has rank above one, or rank one and a length
    that is not the number of output dimensions, it raises [ValueError]
    before anything else, whatever the data; a variance whose dimensions all
    have size one passes like a number.  On the model it returns, [scale]
    holds the variance without its dimensions of size one, the registry lists
    the Parameters of the kernel, [scale], those of the mean and last the
    inducing points [Z], and [Z] holds a matrix that is not empty with one
    column per input dimension. *)
Theorem snelson_init_spec (model : Type) (gaussian : gaussian_capability)
    (config : config_t) (kernel : Kernel) (X y : tensor) (Z : Z_arg)
    (variance : tensor) (jitter : R) (mean : option Mean)
    (name : option string) (h : store) :
  let v := squeeze variance in
  let bad :=
    (1 < ndim v)%N || ((ndim v == 1%N) && (dim v 0 != output_dims kernel)) in
  let r := @Snelson.__init__ model gaussian config kernel X y Z variance jitter
             mean name h in
  let lik := (GaussianLikelihood gaussian config v h).1 in
  [/\ bad ->
      r = Raise (ValueError "variance must be float or have shape (channels,)"),
      all (fun k => k == 1%N) (shape variance) -> ~~ bad
    & forall (self : Snelson.t) (h' : store), r = Ok (self, h') ->
      let base := Snelson.base self in
      ~~ bad /\
      [/\ Model._params base = owned_refs kernel lik mean ++ [:: Snelson.Z self],
          [/\ Model.kernel base = kernel, Model.mean base = mean,
              l_scale (Model.likelihood base) = Some (size h)
            & Snelson.Z self = (size h).+1],
          size h' = (size h).+2
          /\ (forall k, (k < size h)%N ->
                p_value (deref h' k) = p_value (deref h k)),
          p_value (deref h' (size h)) = v
          /\ p_name (deref h' (Snelson.Z self)) = Some "induction_points"%string
          /\ p_trainable (deref h' (Snelson.Z self))
        & exists m (Zm : 'M[R]_(m.+1, Model.input_dims base)),
            @matrix_value Snelson.t h' (Snelson.Z self) (Model.input_dims base)
            = Ok (existT _ m.+1 Zm)]].
Proof.
move=> v bad r lik; rewrite /r /Snelson.__init__ -/v -/bad; split.
- by move=> ->.
- move=> a1; rewrite /bad /v /squeeze /ndim /dim; cbn [shape].
  have -> : [seq k <- shape variance | k != 1%N] = [::].
    by elim: (shape variance) a1 => [|k s IH] //= /andP [-> /IH].
  by [].
- move=> self h'; case: bad => //; rewrite /lik {lik}.
  have := @sparse_init_tail model Snelson.t gaussian config kernel X y Z v
            jitter mean name h.
  case eG: GaussianLikelihood => [lik1 h1]; cbn [fst snd] => tail.
  case E: Model.__init__ => [[m0 h0]|] //.
  case E2: register_inducing_points => [[[s' Zr] h2]|] // [<- <-].
  by split=> //; apply: tail E E2.
Qed.

Lemma field_update A (g : Param -> A) h r f k :
  (forall p, g (f p) = g p) -> g (deref (update h r f) k) = g (deref h k).
Proof. by move=> hf; rewrite deref_update; case: ifP => // /andP [/eqP -> _]. Qed.

(** X19. On the model [OpperArchambeau.__init__] returns, the registry lists
    the Parameters of the kernel, of the likelihood and of the mean, then
    [q_nu] and [q_lambda], which the constructor allocates in that order
    without changing the value of a Parameter that existed; [q_nu] is the
    zero column and [q_lambda] the column of ones, one entry per data point,
    and [q_lambda] is bounded below by the positive minimum of the
    configuration: they have the shape [elbo()] and [predict()] read them
    with. *)
Theorem opper_archambeau_init_spec (model : Type) (config : config_t)
    (kernel : Kernel) (X y : tensor) (likelihood : Likelihood) (jitter : R)
    (mean : option Mean) (name : option string) (h : store)
    (self : OpperArchambeau.t) (h' : store) :
  @OpperArchambeau.__init__ model config kernel X y likelihood jitter mean
    name h = Ok (self, h') ->
  let base := OpperArchambeau.base self in
  let n := Model.data_points base in
  [/\ Model._params base
      = owned_refs kernel likelihood mean
        ++ [:: OpperArchambeau.q_nu self; OpperArchambeau.q_lambda self],
      [/\ OpperArchambeau.q_nu self = size h,
          OpperArchambeau.q_lambda self = (size h).+1
        & size h' = (size h).+2],
      forall k, (k < size h)%N -> p_value (deref h' k) = p_value (deref h k),
      @shaped_value OpperArchambeau.t h' (OpperArchambeau.q_nu self) n 1 = Ok 0
      /\ @shaped_value OpperArchambeau.t h' (OpperArchambeau.q_lambda self) n 1
         = Ok (const_mx 1)
    & p_lower (deref h' (OpperArchambeau.q_lambda self))
      = Some (scalar_tensor (positive_minimum config))].
Proof.
rewrite /OpperArchambeau.__init__.
case E: Model.__init__ => [[m0 h0]|] //.
have [er sz ek el em] := Model_init_registry E.
have [ev _ _] := Model_init_store E.
rewrite /alloc /_register_parameters; cbv beta iota zeta; cbn [fst snd].
rewrite !size_rcons => -[<- <-].
cbn [OpperArchambeau.base OpperArchambeau.q_nu OpperArchambeau.q_lambda
     Model._params Model.data_points].
set p1 := new_Param _ (Some "q_nu"%string) _ _.
set p2 := new_Param _ (Some "q_lambda"%string) _ _.
set h1 := rcons (rcons h0 p1) p2.
have s1 : size h1 = (size h0).+2 by rewrite !size_rcons.
have d1 : deref h1 (size h0) = p1.
  by rewrite /h1 deref_rcons_lt ?size_rcons // deref_rcons.
have d2 : deref h1 (size h0).+1 = p2.
  by rewrite /h1 -(size_rcons h0 p1) deref_rcons.
split.
- by rewrite er -!cats1 -!catA sz.
- by rewrite !size_update s1 sz.
- move=> k kh; rewrite !p_value_update // /h1 !deref_rcons_lt ?size_rcons ?sz //.
  by rewrite ltnW.
- split; apply: shaped_value_tensor_of_mx.
    by rewrite !p_value_update // d1.
  by rewrite !p_value_update // d2.
- by rewrite !(field_update (g := p_lower)) // d2.
Qed.

(** One data point at the origin under the constant kernel. *)
Lemma opper_archambeau_init_spec_witness :
  exists (self : OpperArchambeau.t) (h' : store),
    @OpperArchambeau.__init__ unit (mkConfig OtherDtype (10 ^- 8))
      (unit_kernel [::]) (Tensor [:: 1%N; 1%N] [:: 0])
      (Tensor [:: 1%N; 1%N] [:: 0]) (plain_likelihood None) 1%R None None [::]
    = Ok (self, h')
    /\ size h' = 2%N.
Proof.
pose r := @OpperArchambeau.__init__ unit (mkConfig OtherDtype (10 ^- 8))
      (unit_kernel [::]) (Tensor [:: 1%N; 1%N] [:: 0])
      (Tensor [:: 1%N; 1%N] [:: 0]) (plain_likelihood None) 1%R None None [::].
pose sh := if r is Ok sh then sh
           else (OpperArchambeau.mk (unit_model [::] None 0 [::]) 0 0, [::]).
have E : r = Ok (sh.1, sh.2).
  rewrite /sh /r /OpperArchambeau.__init__ /Model.__init__.
  by rewrite check_input_eq /=.
have [_ [_ _ sz] _ _ _] := opper_archambeau_init_spec E.
by exists sh.1, sh.2; split; [exact: E | exact: sz].
Defined.

(** ** The constructors of [Model] and [Exact] *)

(** [Model.__init__] only renames Parameters. *)
Lemma Model_init_field A (g : Param -> A) model config kernel X y likelihood
    jitter mean name h (self : Model.t) h' :
  (forall nm p, g (set_name nm p) = g p) ->
  @Model.__init__ model config kernel X y likelihood jitter mean name h
    = Ok (self, h') ->
  forall k, g (deref h' k) = g (deref h k).
Proof.
move=> hg; rewrite /Model.__init__.
case: Model._check_input => [[X' y']|] //.
case: ifP => // _; case: validate_y => //.
have f1 := fun st k =>
  register_parameters_field (PModule (k_name kernel) (k_dict kernel)) None st k hg.
have f2 := fun st k =>
  register_parameters_field (PModule (l_name likelihood) (l_dict likelihood))
    None st k hg.
case: mean => [m|] [_ <-] k; last by rewrite f2 f1.
by rewrite (register_parameters_field (PModule (m_name m) (m_dict m)) None _ k hg)
           f2 f1.
Qed.

(** X20. [Exact.__init__] registers the noise variance [scale] it creates and
    makes it trainable exactly when the variance is not given per data
    point: with a variance per data point [scale] is registered but is not
    among [parameters()], the Parameters the optimizer sees.  The
    constructor changes the trainability of no other Parameter. *)
Theorem exact_init_noise_trainable (model : Type)
    (gaussian : gaussian_capability) (config : config_t) (kernel : Kernel)
    (X y : tensor) (variance : tensor) (jitter : R) (mean : option Mean)
    (name : option string) (h : store) (self : Exact.t) (h' : store) :
  @Exact.__init__ model gaussian config kernel X y variance jitter mean name h
    = Ok (self, h') ->
  let base := Exact.base self in
  let scale := size h in
  [/\ scale \in Model.get_parameters base,
      p_trainable (deref h' scale) = ~~ Exact.variance_per_data self,
      (scale \in Model.parameters h' base) = ~~ Exact.variance_per_data self
    & forall r, (r < size h)%N ->
        p_trainable (deref h' r) = p_trainable (deref h r)].
Proof.
rewrite /Exact.__init__; case: ifP => // _.
rewrite /GaussianLikelihood /alloc; cbv beta iota zeta.
set lik := mkLikelihood _ _ _ _ _ _ _; set h1 := rcons h _.
case E: Model.__init__ => [[m0 h0]|] //; case=> <- <-.
have [er sz ek el em] := Model_init_registry E.
have ft := Model_init_field (g := p_trainable) (fun _ _ => erefl) E.
cbn [Exact.base Exact.variance_per_data]; rewrite el; cbn [l_scale lik].
have sh1 : size h1 = (size h).+1 by rewrite size_rcons.
have inP : size h \in Model._params m0.
  by rewrite er /owned_refs !mem_cat /lik /= inE eqxx orbT.
set pd := [&& _, _ & _].
have tr : p_trainable (deref (update h0 (size h) (set_trainable (~~ pd))) (size h))
          = ~~ pd.
  by rewrite deref_update eqxx sz sh1 ltnSn.
split=> //.
- by rewrite /Model.parameters mem_filter tr inP andbT.
- move=> r rh; rewrite deref_update (ltn_eqF rh) /= ft /h1.
  by rewrite deref_rcons_lt.
Qed.

(** One data point with its own variance. *)
Lemma exact_init_noise_trainable_witness :
  exists (self : Exact.t) (h' : store),
    @Exact.__init__ unit plain_gaussian (mkConfig OtherDtype (10 ^- 8))
      (unit_kernel [::]) (Tensor [:: 1%N; 1%N] [:: 0])
      (Tensor [:: 1%N; 1%N] [:: 0]) (Tensor [:: 1%N; 1%N] [:: 1]) (10 ^- 8)
      None None [::]
    = Ok (self, h')
    /\ (0%N \in Model.parameters h' (Exact.base self))
       = ~~ Exact.variance_per_data self.
Proof.
have [[self h'] E] : {sh | @Exact.__init__ unit plain_gaussian
        (mkConfig OtherDtype (10 ^- 8))
        (unit_kernel [::]) (Tensor [:: 1%N; 1%N] [:: 0])
        (Tensor [:: 1%N; 1%N] [:: 0]) (Tensor [:: 1%N; 1%N] [:: 1]) (10 ^- 8)
        None None [::] = Ok sh}.
  eexists; rewrite /Exact.__init__ /GaussianLikelihood /Model.__init__.
  by rewrite check_input_eq /=.
have [_ _ e _] := exact_init_noise_trainable E.
by exists self, h'; split; [exact: E | exact: e].
Defined.


(** ** The initial inducing points *)

Lemma torch_min_spec model (xs : seq R) :
  xs != [::] ->
  exists2 x, x \in xs & @torch_min model xs = Ok x /\ forall y, y \in xs -> x <= y.
Proof.
case: xs => [|x xs] // _; rewrite /torch_min.
elim: xs => [|z xs [m mx [[em] le]]] /=.
  by exists x; rewrite ?inE //; split=> // y; rewrite inE => /eqP ->.
exists (Num.min z m).
  case: (leP z m) => _; first by rewrite !inE eqxx orbT.
  by move: mx; rewrite !inE => /orP [->|->] //; rewrite !orbT.
split; first by rewrite em.
move=> y; rewrite !inE => /or3P [/eqP ->|/eqP ->|yxs]; rewrite ge_min.
- by rewrite le ?orbT // inE eqxx.
- by rewrite lexx.
- by rewrite le ?orbT // inE yxs orbT.
Qed.

Lemma torch_max_spec model (xs : seq R) :
  xs != [::] ->
  exists2 x, x \in xs & @torch_max model xs = Ok x /\ forall y, y \in xs -> y <= x.
Proof.
case: xs => [|x xs] // _; rewrite /torch_max.
elim: xs => [|z xs [m mx [[em] le]]] /=.
  by exists x; rewrite ?inE //; split=> // y; rewrite inE => /eqP ->.
exists (Num.max z m).
  case: (leP z m) => _; last by rewrite !inE eqxx orbT.
  by move: mx; rewrite !inE => /orP [->|->] //; rewrite !orbT.
split; first by rewrite em.
move=> y; rewrite !inE => /or3P [/eqP ->|/eqP ->|yxs]; rewrite le_max.
- by rewrite le ?orbT // inE eqxx.
- by rewrite lexx.
- by rewrite le ?orbT // inE yxs orbT.
Qed.

Lemma nth_flatten_rows d (ss : seq (seq R)) k i :
  all (fun s => size s == d) ss -> (i < d)%N ->
  nth 0 (flatten ss) (k * d + i) = nth 0 (nth [::] ss k) i.
Proof.
move=> + id; elim: ss k => [|s ss IH] k /=; first by rewrite !nth_nil.
case/andP => /eqP sd /IH {}IH; rewrite nth_cat sd.
case: k => [|k]; first by rewrite mul0n add0n id.
by rewrite mulSn -addnA ltnNge leq_addr /= addKn IH.
Qed.

Lemma nth_linspace a b m k :
  (k < m)%N ->
  nth 0 (linspace a b m) k
  = if m == 1%N then a else a + k%:R * (b - a) / (m.-1)%:R.
Proof.
by move=> km; rewrite /linspace (nth_map 0%N) ?size_iota // nth_iota.
Qed.

(** The columns of [linspace_columns], when no column of the data is
    empty. *)
Lemma linspace_columns_ok model (x : seq (seq R)) cols m :
  x != [::] ->
  exists cs,
    [/\ @linspace_columns model x cols m = Ok cs, size cs = size cols
      & forall j, (j < size cols)%N ->
        exists lo hi,
          let xi := [seq nth 0 r (nth 0%N cols j) | r <- x] in
          [/\ lo \in xi, hi \in xi, forall z, z \in xi -> lo <= z <= hi
            & nth [::] cs j = linspace lo hi m]].
Proof.
move=> x0; elim: cols => [|i cols [cs [ecs scs hcs]]] /=.
  by exists [::].
have xi0 : [seq nth 0 r i | r <- x] != [::] by rewrite -size_eq0 size_map size_eq0.
have [lo lo_in [elo lo_le]] := torch_min_spec model xi0.
have [hi hi_in [ehi hi_le]] := torch_max_spec model xi0.
exists (linspace lo hi m :: cs); rewrite elo ehi ecs; split=> //=.
  by rewrite scs.
case=> [|j] /=; last by rewrite ltnS => /hcs.
move=> _; exists lo, hi; split=> // z zin.
by rewrite lo_le // hi_le.
Qed.

Lemma column_rows_of m n (A : 'M[R]_(m, n)) (j : 'I_n) :
  [seq nth 0 r j | r <- rows_of A] = [seq A i j | i <- enum 'I_m].
Proof.
rewrite /rows_of -map_comp; apply: eq_map => i /=.
by rewrite (nth_map j) ?size_enum_ord // nth_ord_enum.
Qed.

Lemma nth_rows_of_columns (cs : seq (seq R)) m k i :
  (k < m)%N -> (i < size cs)%N ->
  nth 0 (nth [::] (rows_of_columns cs m) k) i = nth 0 (nth [::] cs i) k.
Proof.
move=> km ics; rewrite /rows_of_columns (nth_map 0%N) ?size_iota // nth_iota //.
by rewrite add0n (nth_map [::]).
Qed.

(** X22. For a kernel with one output dimension and a number [M] of inducing
    points, [init_inducing_points] on data that are not empty returns [M]
    points with the input dimensions of the data: in each coordinate they are
    equally spaced from the smallest to the largest value the data take in
    that coordinate (one point sits at the smallest), so that they lie in the
    bounding box of the data.  For [M = 0] the result is empty, which
    [_check_input] refuses in the constructors. *)
Theorem init_inducing_points_linspace (model : Type) n d
    (X : 'M[R]_(n.+1, d)) (kernel : Kernel) (M : nat) :
  (output_dims kernel <= 1)%N ->
  exists Zt : tensor,
    [/\ @init_inducing_points model (ZInt M) _ _ X kernel = Ok Zt,
        shape Zt = [:: M; d],
        forall i : 'I_d, exists r1 r2 : 'I_n.+1,
          (forall r, X r1 i <= X r i <= X r2 i) /\
          forall k : 'I_M,
            mx_of_tensor M d Zt k i
            = if M == 1%N then X r1 i
              else X r1 i + k%:R * (X r2 i - X r1 i) / (M.-1)%:R
      & M = 0%N ->
        @Model._check_input model (Some d) Zt None
        = Raise (ValueError "X must not be empty")].
Proof.
move=> od; rewrite /init_inducing_points ltnNge od /=.
have x0 : rows_of X != [::].
  by rewrite -size_eq0 /rows_of size_map size_enum_ord.
have [cs [ecs scs hcs]] := linspace_columns_ok model (iota 0 d) M x0.
rewrite ecs; eexists; split=> //; last first.
  by move=> ->; rewrite check_input_eq.
move=> i; have id : (i < size (iota 0 d))%N by rewrite size_iota.
have [lo [hi [lo_in hi_in bnd ecol]]] := hcs i id.
move: lo_in hi_in bnd; rewrite nth_iota // add0n column_rows_of.
move=> /mapP [r1 _ e1] /mapP [r2 _ e2] bnd.
exists r1, r2; split.
  by move=> r; rewrite -e1 -e2; apply: bnd; apply: map_f; rewrite mem_enum.
have ar : all (fun s => size s == d) (rows_of_columns cs M).
  apply/allP => s /mapP [k' _ ->].
  by rewrite size_map scs size_iota.
move=> k; rewrite mxE /= (nth_flatten_rows _ ar) //.
rewrite nth_rows_of_columns ?scs ?size_iota // ecol nth_linspace //.
by rewrite -e1 -e2.
Qed.

(** Two data points on the line and three inducing points. *)
Lemma init_inducing_points_linspace_witness :
  exists Zt : tensor,
    @init_inducing_points unit (ZInt 3) _ _
      (\matrix_(i < 2, j < 1) i%:R : 'M[R]_(2, 1)) (unit_kernel [::]) = Ok Zt
    /\ shape Zt = [:: 3; 1]%N.
Proof.
have [Zt [e s _ _]] :=
  @init_inducing_points_linspace unit 1 1 (\matrix_(i < 2, j < 1) i%:R)
    (unit_kernel [::]) 3 (leqnn 1).
by exists Zt; split.
Defined.

(** ** The variational Parameters of [SparseHensman] *)

Lemma Model_init_nonempty model config kernel X y likelihood jitter mean name h
    (self : Model.t) h' :
  @Model.__init__ model config kernel X y likelihood jitter mean name h
    = Ok (self, h') ->
  Model.data_points self != 0%N.
Proof.
rewrite /Model.__init__ check_input_eq.
case: (promoted (shape X)) => [[r c]|] //; case e0: (_ || _) => //.
case: (promoted (shape y)) => [[r' c']|] //.
case: (c' != 1%N) => //; case: (r != r') => //.
cbv beta iota zeta.
case: (if l_output_dims likelihood is Some _ then _ else _) => //.
case: validate_y => // -[<- _]; cbn [Model.data_points dim shape nth].
by move: e0; case: (r == 0%N).
Qed.

(** X23. On the model [SparseHensman.__init__] returns, sparse or not, [Z]
    holds a matrix that is not empty with one column per input dimension,
    [q_mu] is the zero column and [q_sqrt] the identity matrix with one row
    per row of [Z], and [q_sqrt] reports the size of its lower triangle as
    its number of parameters: the shapes [elbo()] and [predict()] read, and
    the values for which they give the prior.  Without inducing points [Z]
    holds the training inputs and is not trainable. *)
Theorem sparse_hensman_init_values (model : Type) (config : config_t)
    (kernel : Kernel) (X y : tensor) (Z : option Z_arg)
    (likelihood : Likelihood) (jitter : R) (mean : option Mean)
    (name : option string) (h : store) (self : SparseHensman.t) (h' : store) :
  @SparseHensman.__init__ model config kernel X y Z likelihood jitter mean
    name h = Ok (self, h') ->
  let base := SparseHensman.base self in
  exists m (Zm : 'M[R]_(m.+1, Model.input_dims base)),
    [/\ @matrix_value SparseHensman.t h' (SparseHensman.Z self)
          (Model.input_dims base) = Ok (existT _ m.+1 Zm),
        @shaped_value SparseHensman.t h' (SparseHensman.q_mu self) m.+1 1
          = Ok 0,
        @shaped_value SparseHensman.t h' (SparseHensman.q_sqrt self) m.+1 m.+1
          = Ok 1%:M,
        p_num_parameters (deref h' (SparseHensman.q_sqrt self))
          = ((m.+1 * m.+1 + m.+1) %/ 2)%N
      & Z = None ->
        [/\ m.+1 = Model.data_points base,
            p_value (deref h' (SparseHensman.Z self))
              = tensor_of_mx (Model.X base)
          & p_trainable (deref h' (SparseHensman.Z self)) = false]].
Proof.
rewrite /SparseHensman.__init__.
case E: Model.__init__ => [[m0 h0]|] //.
have n0 := Model_init_nonempty E.
case: Z => [z|]; rewrite /alloc /_register_parameters; cbv beta iota zeta.
  case eI: init_inducing_points => [Zt|] //; rewrite check_input_eq.
  case: (promoted (shape Zt)) => [[r c]|] //; case e0: (_ || _) => //.
  case cd: (c != _) => //; cbv beta iota zeta; cbn [fst snd dim shape nth].
  case: r e0 => [|m] // _.
  set pmu := new_Param _ (Some "q_mu"%string) _ _.
  set psq := new_Param _ (Some "q_sqrt"%string) _ _.
  set pZ := new_Param _ (Some "induction_points"%string) _ _.
  set h1 := rcons h0 pmu; set h2 := rcons h1 psq.
  set f := set_num_parameters _.
  set h3 := update h2 (size h1) f.
  have s1 : size h1 = (size h0).+1 by rewrite size_rcons.
  have s2 : size h2 = (size h0).+2 by rewrite size_rcons s1.
  have s3 : size h3 = (size h0).+2 by rewrite size_update.
  set h4 := (if (1 < output_dims kernel)%N then _ else _).
  have s4 : size h4 = (size h0).+3.
    by rewrite /h4; case: ifP => _; rewrite ?size_update size_rcons s3.
  have v4 k : p_value (deref h4 k) = p_value (deref (rcons h3 pZ) k).
    by rewrite /h4; case: ifP => _ //; rewrite p_value_update.
  have n4 k : (k < size h3)%N ->
      p_num_parameters (deref h4 k) = p_num_parameters (deref h3 k).
    move=> k3; rewrite /h4; case: ifP => _.
      by rewrite deref_update size_rcons (ltn_eqF k3) /= deref_rcons_lt.
    by rewrite deref_rcons_lt.
  cbn [isSome fst snd] => -[<- <-].
  cbn [SparseHensman.base SparseHensman.q_mu SparseHensman.q_sqrt
       SparseHensman.Z Model.input_dims Model.data_points].
  exists m, (mx_of_tensor m.+1 (Model.input_dims m0)
               (Tensor [:: m.+1; c] (data Zt))).
  have ec : c = Model.input_dims m0 by apply/eqP; rewrite -[_ == _]negbK cd.
  split=> //.
  - rewrite /matrix_value !p_value_update // v4 deref_rcons.
    by rewrite /pZ /ndim /dim /= -ec eqxx.
  - apply: shaped_value_tensor_of_mx.
    rewrite !p_value_update // v4 deref_rcons_lt ?s3 // /h3 p_value_update //.
    by rewrite /h2 deref_rcons_lt ?s1 // /h1 deref_rcons.
  - apply: shaped_value_tensor_of_mx.
    have lt13 : (size h1 < size h3)%N by rewrite s3 s1.
    rewrite !p_value_update // v4 (deref_rcons_lt _ lt13) /h3 p_value_update //.
    by rewrite /h2 deref_rcons.
  - have lt13 : (size h1 < size h3)%N by rewrite s3 s1.
    rewrite !(field_update (g := p_num_parameters)) // (n4 _ lt13).
    by rewrite /h3 deref_update eqxx s2 s1 ltnSn.
cbn [fst snd].
set pmu := new_Param _ (Some "q_mu"%string) _ _.
set psq := new_Param _ (Some "q_sqrt"%string) _ _.
set pZ := new_Param _ None _ _.
set h1 := rcons h0 pmu; set h2 := rcons h1 psq.
set f := set_num_parameters _.
set h3 := update h2 (size h1) f.
have s1 : size h1 = (size h0).+1 by rewrite size_rcons.
have s2 : size h2 = (size h0).+2 by rewrite size_rcons s1.
have s3 : size h3 = (size h0).+2 by rewrite size_update.
move=> [<- <-].
cbn [SparseHensman.base SparseHensman.q_mu SparseHensman.q_sqrt
     SparseHensman.Z Model.input_dims Model.data_points Model.X].
case: m0 E n0 @pmu @psq @pZ @h1 @h2 @f @h3 s1 s2 s3
  => [[|n] d k0 X0 y0 l0 j0 mn0 nm0 ps0] // E _ pmu psq pZ h1 h2 f h3 s1 s2 s3.
cbn [Model.input_dims Model.data_points Model.X].
exists n, X0.
have dZ n1 n2 :
    deref (update (update (rcons h3 pZ) (size h0) (set_name n1))
             (size h1) (set_name n2)) (size h3) = pZ.
  have e21 : ((size h0).+2 == (size h0).+1) = false by rewrite gtn_eqF.
  have e20 : ((size h0).+2 == size h0) = false by rewrite gtn_eqF // ltnW.
  rewrite !deref_update s3 s1 e21 e20 !andFb -s3.
  exact: deref_rcons.
split=> //.
- by rewrite /matrix_value dZ /pZ /ndim /dim /= !eqxx mx_of_tensorK.
- apply: shaped_value_tensor_of_mx.
  rewrite !p_value_update // deref_rcons_lt ?s3 // /h3 p_value_update //.
  by rewrite /h2 deref_rcons_lt ?s1 // /h1 deref_rcons.
- apply: shaped_value_tensor_of_mx.
  have lt13 : (size h1 < size h3)%N by rewrite s3 s1.
  rewrite !p_value_update // (deref_rcons_lt _ lt13) /h3 p_value_update //.
  by rewrite /h2 deref_rcons.
- have lt13 : (size h1 < size h3)%N by rewrite s3 s1.
  rewrite !(field_update (g := p_num_parameters)) // (deref_rcons_lt _ lt13).
  by rewrite /h3 deref_update eqxx s2 s1 ltnSn.
- by move=> _; rewrite dZ.
Qed.

(** One data point at the origin under the constant kernel, without inducing
    points. *)
Lemma sparse_hensman_init_values_witness :
  exists (self : SparseHensman.t) (h' : store),
    @SparseHensman.__init__ unit (mkConfig OtherDtype (10 ^- 8))
      (unit_kernel [::]) (Tensor [:: 1%N; 1%N] [:: 0])
      (Tensor [:: 1%N; 1%N] [:: 0]) None (plain_likelihood None) (10 ^- 8)
      None None [::]
    = Ok (self, h')
    /\ exists m, @shaped_value SparseHensman.t h' (SparseHensman.q_sqrt self)
                   m.+1 m.+1 = Ok 1%:M.
Proof.
have [[self h'] E] : {sh | @SparseHensman.__init__ unit
        (mkConfig OtherDtype (10 ^- 8))
        (unit_kernel [::]) (Tensor [:: 1%N; 1%N] [:: 0])
        (Tensor [:: 1%N; 1%N] [:: 0]) None (plain_likelihood None) (10 ^- 8)
        None None [::] = Ok sh}.
  by eexists; rewrite /SparseHensman.__init__ /Model.__init__ check_input_eq /=.
have [m [Zm [_ _ e _ _]]] := sparse_hensman_init_values E.
by exists self, h'; split; [exact: E | exists m].
Defined.

(** ** Assignments in sequence *)


